(** * Greedy join reordering: a shallow embedding of
      [planner/core/rule_join_reorder_greedy.go]

    The development follows the Go file top-down:

    - [Float64]: the IEEE-754 binary64 costs ([float64] in Go), taken from the
      inductive specification of floats of the standard library;
    - the data model ([Column], [Expression], [ScalarFunction],
      [LogicalPlan], [jrNode], [joinReorderGreedySolver]);
    - [checkConnectionAndMakeJoin], the inner scan of
      [constructConnectedJoinTree], its growing loop and [solve];
    - [SliceHeap]: the same [checkConnectionAndMakeJoin] over Go slices that
      share backing arrays, to account for [make]/[copy] and the in-place
      filter;
    - the vocabulary of the statements and the concrete groups they are
      tried on;
    - the properties: the order on costs, the edge scan and the residual
      partition, the greedy scan, termination, failures, slices, the join
      graph and its components, and the predicates of the final tree. *)

From Stdlib Require Import List ZArith Bool Lia Permutation Arith PeanoNat.
From Stdlib Require Import Sorted.
From Stdlib Require Import Floats.SpecFloat.
Import ListNotations.

Set Implicit Arguments.

(* ------------------------------------------------------------------ *)
(** ** binary64 costs *)

Module Float64.

Definition float64 : Type := spec_float.

Definition prec : Z := 53.
Definition emax : Z := 1024.

(** Go's [+] on [float64]. *)
Definition add (x y : float64) : float64 := SFadd prec emax x y.

(** Go's [<], [==], [<=] and [>] on [float64]; all four are [false] as
    soon as one operand is a NaN. *)
Definition ltb (x y : float64) : bool := SFltb x y.
Definition eqb (x y : float64) : bool := SFeqb x y.
Definition leb (x y : float64) : bool := SFleb x y.
Definition gtb (x y : float64) : bool := SFltb y x.

(** [math.MaxFloat64], the largest finite binary64:
    (2^53 - 1) * 2^971. *)
Definition MaxFloat64 : float64 := S754_finite false (2 ^ 53 - 1) (emax - prec).

Definition PosInf : float64 := S754_infinity false.
Definition NaN : float64 := S754_nan.

(** The binary64 value of a small non-negative integer. *)
Definition ofZ (z : Z) : float64 := binary_normalize prec emax z 0 false.

Definition isNaN (x : float64) : bool :=
  match x with S754_nan => true | _ => false end.

End Float64.

Import Float64.

(* ------------------------------------------------------------------ *)
(** ** Data model *)

(** [expression.Column]: a column is identified by its [UniqueID]. *)
Definition Column : Type := nat.

(** [expression.Schema]: the ordered output columns of a plan. *)
Definition Schema : Type := list Column.

(** [Schema.Contains]. *)
Definition Contains (s : Schema) (col : Column) : bool :=
  existsb (Nat.eqb col) s.

(** Modelled from the spec: [expression.MergeSchema] is not part of the
    source file; the merged schema is the union of both subtrees' output
    columns, the left ones first. *)
Definition MergeSchema (lSchema rSchema : Schema) : Schema :=
  lSchema ++ rSchema.

(** [expression.Expression], as far as the solver looks at it: a residual
    predicate, with an identity and the columns it references. *)
Record Expression : Type := mkExpr {
  exprID : nat;
  exprColumns : list Column
}.

(** Modelled from the spec: [expression.ExprFromSchema] is not part of the
    source file; it holds when every column the predicate references is
    contained in the schema. *)
Definition ExprFromSchema (expr : Expression) (schema : Schema) : bool :=
  forallb (Contains schema) (exprColumns expr).

(** [*expression.ScalarFunction] restricted to the equality edges: the
    return type and the two column arguments [GetArgs()[0]], [GetArgs()[1]]. *)
Record ScalarFunction : Type := mkEQ {
  GetType : nat;
  Arg0 : Column;
  Arg1 : Column
}.

(** [expression.NewFunctionInternal(ctx, ast.EQ, tp, a, b)]. *)
Definition NewFunctionInternalEQ (tp : nat) (a b : Column) : ScalarFunction :=
  mkEQ tp a b.

(** [LogicalPlan]: the members of a join group are data sources, possibly
    below a selection; the solver builds [LogicalJoin] nodes over them. *)
Inductive LogicalPlan : Type :=
| DataSource (id : nat) (schema : Schema)
| LogicalSelection (Conditions : list Expression) (child : LogicalPlan)
| LogicalJoin (lChild rChild : LogicalPlan)
              (EqualConditions : list ScalarFunction)
              (OtherConditions : list Expression).

(** [LogicalPlan.Schema()]; a join outputs the merged schema of its
    children. *)
Fixpoint PlanSchema (p : LogicalPlan) : Schema :=
  match p with
  | DataSource _ schema => schema
  | LogicalSelection _ child => PlanSchema child
  | LogicalJoin l r _ _ => MergeSchema (PlanSchema l) (PlanSchema r)
  end.

(** [jrNode]: a plan with its cumulative cost. *)
Record jrNode : Type := mkJrNode {
  p : LogicalPlan;
  cumCost : float64
}.

(** [joinReorderGreedySolver], with the fields of the embedded
    [baseSingleGroupJoinOrderSolver] that the greedy solver reads and
    writes. *)
Record joinReorderGreedySolver : Type := mkSolver {
  curJoinGroup : list jrNode;
  otherConds : list Expression;
  eqEdges : list ScalarFunction
}.

(** Go's [error]; [None] is the nil error. *)
Definition error : Type := nat.

(* ------------------------------------------------------------------ *)
(** ** Helpers of the base solver and of package [expression] *)

(** Modelled from the spec: [baseSingleGroupJoinOrderSolver.newCartesianJoin]
    is not part of the source file; a cross join carries no predicate. *)
Definition newCartesianJoin (lChild rChild : LogicalPlan) : LogicalPlan :=
  LogicalJoin lChild rChild [] [].

(** Modelled from the spec: [baseSingleGroupJoinOrderSolver.newJoinWithEdges]
    is not part of the source file; it builds the join of the two subtrees
    filtered by the given equality edges and the attached residuals. *)
Definition newJoinWithEdges (lChild rChild : LogicalPlan)
    (eqEdges : list ScalarFunction) (otherConds : list Expression) : LogicalPlan :=
  LogicalJoin lChild rChild eqEdges otherConds.

(** Modelled from the spec: [expression.FilterOutInPlace] is not part of the
    source file; it partitions its input into the predicates that do not
    satisfy the filter ([remained], kept in their order) and those that do
    ([filteredOut]).  The list is walked from its last element to its first,
    which is what lets the slice version ([SliceHeap.FilterOutInPlace])
    delete in place; [filteredOut] is therefore collected back to front. *)
Fixpoint filterOutBackward (input : list Expression) (filter : Expression -> bool)
    (filteredOut : list Expression) : list Expression * list Expression :=
  match input with
  | [] => ([], filteredOut)
  | x :: rest =>
      let '(remained, filteredOut') := filterOutBackward rest filter filteredOut in
      if filter x then (remained, filteredOut' ++ [x])
      else (x :: remained, filteredOut')
  end.

Definition FilterOutInPlace (input : list Expression) (filter : Expression -> bool)
    : list Expression * list Expression :=
  filterOutBackward input filter [].

(* ------------------------------------------------------------------ *)
(** ** [checkConnectionAndMakeJoin] *)

(** The loop over [s.eqEdges] (lines 122-131): an edge is used as it is when
    the left node has its first column and the right node its second; it is
    rebuilt with its columns swapped when it connects the nodes the other
    way round. *)
Fixpoint usedEdgesOf (edges : list ScalarFunction) (leftNode rightNode : LogicalPlan)
    : list ScalarFunction :=
  match edges with
  | [] => []
  | edge :: rest =>
      let lCol := Arg0 edge in
      let rCol := Arg1 edge in
      if Contains (PlanSchema leftNode) lCol && Contains (PlanSchema rightNode) rCol
      then edge :: usedEdgesOf rest leftNode rightNode
      else if Contains (PlanSchema rightNode) lCol && Contains (PlanSchema leftNode) rCol
      then NewFunctionInternalEQ (GetType edge) rCol lCol
             :: usedEdgesOf rest leftNode rightNode
      else usedEdgesOf rest leftNode rightNode
  end.

(** The result is Go's pair: a nil plan is [None]. *)
Definition checkConnectionAndMakeJoin (s : joinReorderGreedySolver)
    (leftNode rightNode : LogicalPlan) : option LogicalPlan * list Expression :=
  let usedEdges := usedEdgesOf (eqEdges s) leftNode rightNode in
  match usedEdges with
  | [] => (None, [])
  | _ :: _ =>
      let mergedSchema := MergeSchema (PlanSchema leftNode) (PlanSchema rightNode) in
      let '(remainOtherConds, otherConds') :=
        FilterOutInPlace (otherConds s) (fun expr => ExprFromSchema expr mergedSchema) in
      (Some (newJoinWithEdges leftNode rightNode usedEdges otherConds'), remainOtherConds)
  end.

(* ------------------------------------------------------------------ *)
(** ** The statistics collaborator and the cost model *)

(** What [LogicalPlan.recursiveDeriveStats] gives for a plan: the error it
    returns, if any, and the row count that [statsInfo().RowCount] reads once
    the derivation went through. *)
Record StatsCollaborator : Type := mkStats {
  deriveStatsError : LogicalPlan -> option error;
  RowCount : LogicalPlan -> float64
}.

(** A run of a loop of the model either returns, panics (as Go does on an
    index out of range or a nil dereference), or was given too little
    fuel. *)
Inductive outcome (A : Type) : Type :=
| Returns (a : A)
| Panics
| OutOfFuel.

Arguments Returns {A} a.
Arguments Panics {A}.
Arguments OutOfFuel {A}.

Section Solver.

Variable stats : StatsCollaborator.

(** Modelled from the spec: [baseSingleGroupJoinOrderSolver.baseNodeCumCost]
    is not part of the source file; the base cost of a member is the sum
    of the row-count estimates along its subtree. *)
Fixpoint baseNodeCumCost (groupNode : LogicalPlan) : float64 :=
  match groupNode with
  | DataSource _ _ => RowCount stats groupNode
  | LogicalSelection _ child =>
      add (RowCount stats groupNode) (baseNodeCumCost child)
  | LogicalJoin l r _ _ =>
      add (add (RowCount stats groupNode) (baseNodeCumCost l)) (baseNodeCumCost r)
  end.

(** Modelled from the spec: [baseSingleGroupJoinOrderSolver.calcJoinCumCost]
    is not part of the source file; cumulative join cost =
    CumCount(lhs) + CumCount(rhs) + RowCount(join). *)
Definition calcJoinCumCost (join : LogicalPlan) (lNode rNode : jrNode) : float64 :=
  add (add (cumCost lNode) (cumCost rNode)) (RowCount stats join).

(** *** The scan over the remaining nodes (lines 77-100) *)

Record scanState : Type := mkScan {
  bestCost : float64;
  bestIdx : Z;
  finalRemainOthers : list Expression;
  bestJoin : option LogicalPlan
}.

(** Lines 77-80. *)
Definition scanInit : scanState :=
  mkScan MaxFloat64 (-1) [] None.

(** Lines 82-100, from index [i] on; [inr err] is the early
    [return nil, err]. *)
Fixpoint scanCandidates (s : joinReorderGreedySolver) (curJoinTree : jrNode)
    (i : Z) (nodes : list jrNode) (st : scanState) : scanState + error :=
  match nodes with
  | [] => inl st
  | node :: rest =>
      match checkConnectionAndMakeJoin s (p curJoinTree) (p node) with
      | (None, _) => scanCandidates s curJoinTree (i + 1) rest st
      | (Some newJoin, remainOthers) =>
          match deriveStatsError stats newJoin with
          | Some err => inr err
          | None =>
              let curCost := calcJoinCumCost newJoin curJoinTree node in
              if gtb (bestCost st) curCost
              then scanCandidates s curJoinTree (i + 1) rest
                     (mkScan curCost i remainOthers (Some newJoin))
              else scanCandidates s curJoinTree (i + 1) rest st
          end
      end
  end.

(** [append(s[:i], s[i+1:]...)]. *)
Definition removeAt (A : Type) (i : Z) (l : list A) : list A :=
  firstn (Z.to_nat i) l ++ skipn (Z.to_nat (i + 1)) l.

(** *** One growing step: the body of the [for] of lines 76-112 *)

Inductive stepResult : Type :=
| StepError (err : error)
    (* line 91: return nil, err *)
| StepExhausted
    (* line 103: break *)
| StepMerged (curJoinTree' : jrNode).
    (* lines 106-111 *)

Definition growStep (s : joinReorderGreedySolver) (curJoinTree : jrNode)
    : stepResult * joinReorderGreedySolver :=
  match scanCandidates s curJoinTree 0 (curJoinGroup s) scanInit with
  | inr err => (StepError err, s)
  | inl st =>
      match bestJoin st with
      | None => (StepExhausted, s)
      | Some join =>
          (StepMerged (mkJrNode join (bestCost st)),
           mkSolver (removeAt (bestIdx st) (curJoinGroup s))
                    (finalRemainOthers st)
                    (eqEdges s))
      end
  end.

(** The [for] of lines 76-112; every iteration takes one unit of fuel. *)
Fixpoint growLoop (fuel : nat) (s : joinReorderGreedySolver) (curJoinTree : jrNode)
    : outcome ((option jrNode * option error) * joinReorderGreedySolver) :=
  match fuel with
  | O => OutOfFuel
  | S fuel' =>
      match growStep s curJoinTree with
      | (StepError err, s') => Returns ((None, Some err), s')
      | (StepExhausted, s') => Returns ((Some curJoinTree, None), s')
      | (StepMerged curJoinTree', s') => growLoop fuel' s' curJoinTree'
      end
  end.

(** Lines 73-115. *)
Definition constructConnectedJoinTree (fuel : nat) (s : joinReorderGreedySolver)
    : outcome ((option jrNode * option error) * joinReorderGreedySolver) :=
  match curJoinGroup s with
  | [] => Panics
  | curJoinTree :: rest =>
      growLoop fuel (mkSolver rest (otherConds s) (eqEdges s)) curJoinTree
  end.

(** *** [solve] *)

(** Lines 45-54: derive the stats of every member and append it to the
    group with its base cost. *)
Fixpoint seedGroup (joinNodePlans : list LogicalPlan) (s : joinReorderGreedySolver)
    : option error * joinReorderGreedySolver :=
  match joinNodePlans with
  | [] => (None, s)
  | node :: rest =>
      match deriveStatsError stats node with
      | Some err => (Some err, s)
      | None =>
          seedGroup rest
            (mkSolver (curJoinGroup s ++ [mkJrNode node (baseNodeCumCost node)])
                      (otherConds s) (eqEdges s))
      end
  end.

(** [sort.SliceStable] with the comparison of line 57.  The library sorts
    by insertion (an element moves left past every predecessor it is less
    than); any stable sort gives the same order as long as no cost is a
    NaN.  The sorted prefix is kept back to front. *)
Fixpoint sinkLeft (x : jrNode) (revPrefix : list jrNode) : list jrNode :=
  match revPrefix with
  | [] => [x]
  | y :: rest =>
      if ltb (cumCost x) (cumCost y) then y :: sinkLeft x rest
      else x :: revPrefix
  end.

Definition SliceStable (group : list jrNode) : list jrNode :=
  rev (fold_left (fun revPrefix x => sinkLeft x revPrefix) group []).

(** Modelled from the spec: [baseSingleGroupJoinOrderSolver.makeBushyJoin]
    is not part of the source file; the component trees are combined, in
    the order they were found, by successive predicate-free cross joins
    into a bushy tree; a single tree is returned unchanged, and an empty
    list gives no plan. *)
Fixpoint pairUp (group : list LogicalPlan) : list LogicalPlan :=
  match group with
  | a :: b :: rest => newCartesianJoin a b :: pairUp rest
  | _ => group
  end.

Fixpoint bushyRounds (fuel : nat) (group : list LogicalPlan) : option LogicalPlan :=
  match group with
  | [] => None
  | [tree] => Some tree
  | _ :: _ :: _ =>
      match fuel with
      | O => None
      | S fuel' => bushyRounds fuel' (pairUp group)
      end
  end.

Definition makeBushyJoin (cartesianGroup : list LogicalPlan) : option LogicalPlan :=
  bushyRounds (length cartesianGroup) cartesianGroup.

(** Lines 60-67: one connected join tree per iteration. *)
Fixpoint componentLoop (fuel : nat) (s : joinReorderGreedySolver)
    (cartesianGroup : list LogicalPlan)
    : outcome ((list LogicalPlan + error) * joinReorderGreedySolver) :=
  match curJoinGroup s with
  | [] => Returns (inl cartesianGroup, s)
  | _ :: _ =>
      match fuel with
      | O => OutOfFuel
      | S fuel' =>
          match constructConnectedJoinTree (length (curJoinGroup s)) s with
          | OutOfFuel => OutOfFuel
          | Panics => Panics
          | Returns ((_, Some err), s') => Returns (inr err, s')
          | Returns ((None, None), s') => Panics (* newNode.p on a nil node *)
          | Returns ((Some newNode, None), s') =>
              componentLoop fuel' s' (cartesianGroup ++ [p newNode])
          end
      end
  end.

(** Lines 43-59 followed by the loop: the component trees of the group,
    before they are assembled. *)
Definition solveComponents (fuel : nat) (joinNodePlans : list LogicalPlan)
    (s : joinReorderGreedySolver)
    : outcome ((list LogicalPlan + error) * joinReorderGreedySolver) :=
  match seedGroup joinNodePlans s with
  | (Some err, s') => Returns (inr err, s')
  | (None, s') =>
      componentLoop fuel
        (mkSolver (SliceStable (curJoinGroup s')) (otherConds s') (eqEdges s'))
        []
  end.

(** Lines 43-70; the result is Go's pair [(LogicalPlan, error)] and the
    solver as the call leaves it. *)
Definition solveWithFuel (fuel : nat) (joinNodePlans : list LogicalPlan)
    (s : joinReorderGreedySolver)
    : outcome ((option LogicalPlan * option error) * joinReorderGreedySolver) :=
  match solveComponents fuel joinNodePlans s with
  | OutOfFuel => OutOfFuel
  | Panics => Panics
  | Returns (inr err, s') => Returns ((None, Some err), s')
  | Returns (inl cartesianGroup, s') =>
      Returns ((makeBushyJoin cartesianGroup, None), s')
  end.

(** The remaining-node set has at most
    [length (curJoinGroup s) + length joinNodePlans] nodes when the loops
    start, and the component loop never needs more iterations than that. *)
Definition solve (joinNodePlans : list LogicalPlan) (s : joinReorderGreedySolver)
    : outcome ((option LogicalPlan * option error) * joinReorderGreedySolver) :=
  solveWithFuel (length (curJoinGroup s) + length joinNodePlans) joinNodePlans s.

End Solver.

(* ------------------------------------------------------------------ *)
(** ** [checkConnectionAndMakeJoin] over slices and backing arrays *)

(** In Go, [s.otherConds] and [remainOtherConds] are slices: windows on
    backing arrays that live in the heap and may be shared.  This module
    replays lines 117-143 with the arrays made explicit, so that what the
    call writes, and where, can be stated. *)
Module SliceHeap.

(** A slice header. *)
Record slice : Type := mkSlice {
  array : nat;   (* which backing array *)
  offset : nat;  (* first cell of the window *)
  len : nat;
  cap : nat
}.

(** A cell holds an interface value ([option Expression]); [None] is the
    nil interface that [make] fills a new array with. *)

(** The heap: the backing arrays, in allocation order. *)
Definition heap : Type := list (list (option Expression)).

Definition nilSlice : slice := mkSlice 0 0 0 0.

Definition cellsOf (h : heap) (a : nat) : list (option Expression) := nth a h [].

(** The elements a slice shows. *)
Definition view (h : heap) (sl : slice) : list (option Expression) :=
  firstn (len sl) (skipn (offset sl) (cellsOf h (array sl))).

(** Writing [vals] into a run of cells starting at [pos]. *)
Definition overwrite (cells : list (option Expression)) (pos : nat) (vals : list (option Expression)) : list (option Expression) :=
  firstn pos cells ++ vals ++ skipn (pos + length vals) cells.

Definition setArray (h : heap) (a : nat) (cells : list (option Expression)) : heap :=
  if a <? length h then firstn a h ++ cells :: skipn (S a) h else h.

Definition writeCells (h : heap) (a pos : nat) (vals : list (option Expression)) : heap :=
  setArray h a (overwrite (cellsOf h a) pos vals).

(** [make([]expression.Expression, n)]: a new array of [n] nil cells. *)
Definition make (h : heap) (n : nat) : heap * slice :=
  (h ++ [repeat None n], mkSlice (length h) 0 n n).

(** [copy(dst, src)]: the first [min(len(dst), len(src))] elements. *)
Definition copy (h : heap) (dst src : slice) : heap :=
  writeCells h (array dst) (offset dst)
             (firstn (Nat.min (len dst) (len src)) (view h src)).

(** Modelled from the spec: [expression.FilterOutInPlace] is not part of
    the source file; it filters the slice it is given in place.  Walking
    from the last index down, an element that satisfies the filter is
    appended to [filteredOut] and deleted by
    [input = append(input[:i], input[i+1:]...)], which moves the tail of
    the window one cell to the left inside the same backing array.
    [i] is the number of indices still to visit; a nil element panics. *)
Fixpoint filterLoop (i : nat) (h : heap) (input : slice)
    (filter : Expression -> bool) (filteredOut : list Expression)
    : outcome (heap * slice * list Expression) :=
  match i with
  | O => Returns (h, input, filteredOut)
  | S i' =>
      match nth_error (view h input) i' with
      | Some (Some x) =>
          if filter x then
            let tail := skipn (S i') (view h input) in
            let h' := writeCells h (array input) (offset input + i') tail in
            filterLoop i' h'
              (mkSlice (array input) (offset input) (len input - 1) (cap input))
              filter (filteredOut ++ [x])
          else filterLoop i' h input filter filteredOut
      | _ => Panics
      end
  end.

Definition FilterOutInPlace (h : heap) (input : slice) (filter : Expression -> bool)
    : outcome (heap * slice * list Expression) :=
  filterLoop (len input) h input filter [].

(** The solver with its pending predicates as a slice. *)
Record solver : Type := mkSolver {
  curJoinGroup : list jrNode;
  otherConds : slice;
  eqEdges : list ScalarFunction
}.

(** What the call can reach and write: the heap and the solver struct
    behind the receiver pointer. *)
Definition machine : Type := (heap * solver)%type.

(** Lines 117-143. *)
Definition checkConnectionAndMakeJoin (m : machine) (leftNode rightNode : LogicalPlan)
    : outcome (machine * (option LogicalPlan * slice)) :=
  let '(h, s) := m in
  let usedEdges := usedEdgesOf (eqEdges s) leftNode rightNode in
  let '(h1, remainOtherConds) := make h (len (otherConds s)) in
  let h2 := copy h1 remainOtherConds (otherConds s) in
  match usedEdges with
  | [] => Returns ((h2, s), (None, nilSlice))
  | _ :: _ =>
      let mergedSchema := MergeSchema (PlanSchema leftNode) (PlanSchema rightNode) in
      match FilterOutInPlace h2 remainOtherConds
              (fun expr => ExprFromSchema expr mergedSchema) with
      | Returns (h3, remained, filteredOut) =>
          Returns ((h3, s),
                   (Some (newJoinWithEdges leftNode rightNode usedEdges filteredOut),
                    remained))
      | Panics => Panics
      | OutOfFuel => OutOfFuel
      end
  end.

(** A slice is allocated when its window lies inside an array of the
    heap. *)
Definition allocated (h : heap) (sl : slice) : Prop :=
  array sl < length h /\
  offset sl + len sl <= length (cellsOf h (array sl)).

End SliceHeap.

(* ------------------------------------------------------------------ *)
(** ** Vocabulary of the statements *)

(** The two ways an edge can connect a left and a right subtree. *)
Definition connectsAsIs (leftNode rightNode : LogicalPlan) (edge : ScalarFunction) : Prop :=
  In (Arg0 edge) (PlanSchema leftNode) /\ In (Arg1 edge) (PlanSchema rightNode).

Definition connectsSwapped (leftNode rightNode : LogicalPlan) (edge : ScalarFunction) : Prop :=
  In (Arg0 edge) (PlanSchema rightNode) /\ In (Arg1 edge) (PlanSchema leftNode).

(** The residual predicates attached to a join node. *)
Definition attachedOthers (join : LogicalPlan) : list Expression :=
  match join with
  | LogicalJoin _ _ _ others => others
  | _ => []
  end.

(** The equality conditions attached to a join node. *)
Definition attachedEdges (join : LogicalPlan) : list ScalarFunction :=
  match join with
  | LogicalJoin _ _ eqs _ => eqs
  | _ => []
  end.

(** A predicate is covered by a schema when the schema has every column it
    references. *)
Definition coveredBy (schema : Schema) (expr : Expression) : Prop :=
  forall col, In col (exprColumns expr) -> In col schema.

(* ------------------------------------------------------------------ *)
(** ** Concrete groups *)

(** The three-member chain of the spec: [A(a1)], [B(b1)], [C(c1)] with the
    edges [a1 = b1] and [c1 = b1] and one residual predicate over
    [{a1, c1}]; a fourth member [D(d1)] shares no edge with them. *)
Module Examples.

Definition a1 : Column := 1.
Definition b1 : Column := 2.
Definition c1 : Column := 3.
Definition d1 : Column := 4.

Definition A : LogicalPlan := DataSource 1 [a1].
Definition B : LogicalPlan := DataSource 2 [b1].
Definition C : LogicalPlan := DataSource 3 [c1].
Definition D : LogicalPlan := DataSource 4 [d1].

Definition edgeAB : ScalarFunction := mkEQ 0 a1 b1.
Definition edgeCB : ScalarFunction := mkEQ 0 c1 b1.

Definition overAC : Expression := mkExpr 7 [a1; c1].
Definition overB : Expression := mkExpr 8 [b1].
Definition overAD : Expression := mkExpr 9 [a1; d1].

Definition chain : joinReorderGreedySolver :=
  mkSolver [] [overAC; overB; overAD] [edgeAB; edgeCB].

End Examples.

(** [candidateIn stats s t nodes j join remain cost]: the node at index [j]
    of [nodes] connects to the current tree [t]; joining it gives [join],
    leaves [remain] pending and costs [cost]. *)
Definition candidateIn (stats : StatsCollaborator) (s : joinReorderGreedySolver)
    (curJoinTree : jrNode) (nodes : list jrNode) (j : nat)
    (join : LogicalPlan) (remain : list Expression) (cost : float64) : Prop :=
  exists node,
    nth_error nodes j = Some node /\
    checkConnectionAndMakeJoin s (p curJoinTree) (p node) = (Some join, remain) /\
    calcJoinCumCost stats join curJoinTree node = cost.

(** The candidates of a growing step are those among the remaining nodes of
    the solver. *)
Definition candidateAt (stats : StatsCollaborator) (s : joinReorderGreedySolver)
    (curJoinTree : jrNode) (j : nat)
    (join : LogicalPlan) (remain : list Expression) (cost : float64) : Prop :=
  candidateIn stats s curJoinTree (curJoinGroup s) j join remain cost.

(** What the scan has established once the first [n] nodes are visited. *)
Record scanInvariant (stats : StatsCollaborator) (s : joinReorderGreedySolver)
    (curJoinTree : jrNode) (nodes : list jrNode) (n : nat) (st : scanState) : Prop :=
  mkScanInvariant {
    inv_none : bestJoin st = None -> st = scanInit;
    inv_some : forall join, bestJoin st = Some join ->
      exists b, bestIdx st = Z.of_nat b /\ b < n /\
        candidateIn stats s curJoinTree nodes b join (finalRemainOthers st) (bestCost st) /\
        ltb (bestCost st) MaxFloat64 = true /\
        (forall j join' remain' cost, j < b ->
           candidateIn stats s curJoinTree nodes j join' remain' cost ->
           eqb cost (bestCost st) = false);
    inv_best : forall j join' remain' cost, j < n ->
      candidateIn stats s curJoinTree nodes j join' remain' cost ->
      ltb cost (bestCost st) = false
  }.

(** Stats collaborators for the concrete groups. *)
Module ExampleStats.

(** Every derivation succeeds and every plan is estimated at one row. *)
Definition unit : StatsCollaborator :=
  mkStats (fun _ => None) (fun _ => ofZ 1).

(** As [unit], but the estimate of any join with [B] on its right is a
    NaN. *)
Definition nanOnB : StatsCollaborator :=
  mkStats (fun _ => None)
          (fun plan => match plan with
                       | LogicalJoin _ (DataSource 2 _) _ _ => NaN
                       | _ => ofZ 1
                       end).

(** As [unit], but the estimate of any join is +Inf. *)
Definition infiniteJoins : StatsCollaborator :=
  mkStats (fun _ => None)
          (fun plan => match plan with
                       | LogicalJoin _ _ _ _ => PosInf
                       | _ => ofZ 1
                       end).

(** As [unit], but deriving the stats of a join with [C] on its right
    fails with error 42. *)
Definition failOnC : StatsCollaborator :=
  mkStats (fun plan => match plan with
                       | LogicalJoin _ (DataSource 3 _) _ _ => Some 42
                       | _ => None
                       end)
          (fun _ => ofZ 1).

End ExampleStats.

Module Star.
Import Examples.

(** [A] at the centre, with an edge to [B] and an edge to [C]. *)
Definition edgeAC : ScalarFunction := mkEQ 0 a1 c1.

Definition nodeA : jrNode := mkJrNode A (ofZ 1).
Definition nodeB : jrNode := mkJrNode B (ofZ 1).
Definition nodeC : jrNode := mkJrNode C (ofZ 1).

(** The solver after [A] was taken as the seed. *)
Definition afterSeed : joinReorderGreedySolver :=
  mkSolver [nodeB; nodeC] [overAC; overB] [edgeAB; edgeAC].

(** The group and the solver [solve] is called on. *)
Definition members : list LogicalPlan := [A; B; C].
Definition solver0 : joinReorderGreedySolver :=
  mkSolver [] [overAC; overB] [edgeAB; edgeAC].

End Star.

Module StarRuns.
Import Examples Star.

(** Joining [B] first, at cost 1 + 1 + 1. *)
Definition mergedAB : jrNode :=
  mkJrNode (LogicalJoin A B [edgeAB] [overB]) (ofZ 3).
Definition afterAB : joinReorderGreedySolver :=
  mkSolver [nodeC] [overAC] [edgeAB; edgeAC].

(** Joining [C] first, at cost 1 + 1 + 1. *)
Definition mergedAC : jrNode :=
  mkJrNode (LogicalJoin A C [edgeAC] [overAC]) (ofZ 3).
Definition afterAC : joinReorderGreedySolver :=
  mkSolver [nodeB] [overB] [edgeAB; edgeAC].

End StarRuns.

(** [grows stats s t s' t']: starting from the solver [s] and the current
    tree [t], a run of committed merges of the growing loop leads to the
    solver [s'] and the current tree [t']. *)
Inductive grows (stats : StatsCollaborator)
    : joinReorderGreedySolver -> jrNode -> joinReorderGreedySolver -> jrNode -> Prop :=
| grows_here s t : grows stats s t s t
| grows_merge s t s1 t1 s' t' :
    growStep stats s t = (StepMerged t1, s1) ->
    grows stats s1 t1 s' t' ->
    grows stats s t s' t'.

(** [collects stats s trees s' trees']: starting from the solver [s] with
    the component trees [trees] already found, a run of completed
    iterations of the component loop leads to [s'] and [trees']. *)
Inductive collects (stats : StatsCollaborator)
    : joinReorderGreedySolver -> list LogicalPlan ->
      joinReorderGreedySolver -> list LogicalPlan -> Prop :=
| collects_here s trees : collects stats s trees s trees
| collects_component s trees seed rest s1 t1 s' trees' :
    curJoinGroup s = seed :: rest ->
    grows stats (mkSolver rest (otherConds s) (eqEdges s)) seed s1 t1 ->
    growStep stats s1 t1 = (StepExhausted, s1) ->
    collects stats s1 (trees ++ [p t1]) s' trees' ->
    collects stats s trees s' trees'.

(** The solver as the component loop finds it: the members seeded and
    sorted by base cost. *)
Definition seeded (stats : StatsCollaborator) (joinNodePlans : list LogicalPlan)
    (s : joinReorderGreedySolver) : joinReorderGreedySolver :=
  let s' := snd (seedGroup stats joinNodePlans s) in
  mkSolver (SliceStable (curJoinGroup s')) (otherConds s') (eqEdges s').

(** The run of [solve] on the chain [A - B - C] when deriving the stats of
    the join with [C] fails. *)
Module ChainRun.
Import Examples.

Definition members : list LogicalPlan := [A; B; C].

Definition nodeA : jrNode := mkJrNode A (ofZ 1).
Definition nodeB : jrNode := mkJrNode B (ofZ 1).
Definition nodeC : jrNode := mkJrNode C (ofZ 1).

(** After seeding and sorting. *)
Definition start : joinReorderGreedySolver :=
  mkSolver [nodeA; nodeB; nodeC] [overAC; overB; overAD] [edgeAB; edgeCB].

(** After [A] was taken as the seed. *)
Definition afterSeed : joinReorderGreedySolver :=
  mkSolver [nodeB; nodeC] [overAC; overB; overAD] [edgeAB; edgeCB].

(** After [A join B] was committed; the step that follows evaluates the
    join with [C]. *)
Definition mergedAB : jrNode :=
  mkJrNode (LogicalJoin A B [edgeAB] [overB]) (ofZ 3).
Definition afterAB : joinReorderGreedySolver :=
  mkSolver [nodeC] [overAC; overAD] [edgeAB; edgeCB].

End ChainRun.

(** The value-level solver a slice-level solver stands for, given the
    predicates its pending slice shows. *)
Definition solverOf (s : SliceHeap.solver) (conds : list Expression)
    : joinReorderGreedySolver :=
  mkSolver (SliceHeap.curJoinGroup s) conds (SliceHeap.eqEdges s).

(** A heap with the three pending predicates of the chain in one array, and
    the solver whose pending slice is that whole array. *)
Module SliceExample.
Import Examples.

Definition heap0 : SliceHeap.heap := [[Some overAC; Some overB; Some overAD]].

Definition solver0 : SliceHeap.solver :=
  SliceHeap.mkSolver [] (SliceHeap.mkSlice 0 0 3 3) [edgeAB; edgeCB].

End SliceExample.

(** [crossAssembly trees final n]: [final] is a binary tree of [n]
    predicate-free cross joins whose leaves are, from left to right, the
    component trees [trees]. *)
Inductive crossAssembly : list LogicalPlan -> LogicalPlan -> nat -> Prop :=
| cross_single tree : crossAssembly [tree] tree 0
| cross_join trees1 trees2 left right n1 n2 :
    crossAssembly trees1 left n1 ->
    crossAssembly trees2 right n2 ->
    crossAssembly (trees1 ++ trees2) (newCartesianJoin left right) (S (n1 + n2)).

(** A round of the assembly works on subtrees that each assemble one
    segment of the component trees. *)
Inductive crossForest : list (list LogicalPlan) -> list LogicalPlan -> nat -> Prop :=
| forest_nil : crossForest [] [] 0
| forest_cons segment tree n segments group m :
    crossAssembly segment tree n ->
    crossForest segments group m ->
    crossForest (segment :: segments) (tree :: group) (n + m).

(** *** The join graph of a group *)

(** Two members are adjacent when an equality edge connects them, in either
    orientation. *)
Definition adjacent (edges : list ScalarFunction) (m1 m2 : LogicalPlan) : Prop :=
  exists edge, In edge edges /\
    (connectsAsIs m1 m2 edge \/ connectsSwapped m1 m2 edge).

(** [linked edges group a b]: a path of adjacent members of [group] leads
    from [a] to [b]. *)
Inductive linked (edges : list ScalarFunction) (group : list LogicalPlan)
    : LogicalPlan -> LogicalPlan -> Prop :=
| linked_here a : In a group -> linked edges group a a
| linked_step a b c :
    In a group -> In b group -> adjacent edges a b ->
    linked edges group b c -> linked edges group a c.

(** A connected clique of members: not empty, and any two of its members
    are linked inside it. *)
Definition connectedGroup (edges : list ScalarFunction) (group : list LogicalPlan) : Prop :=
  group <> [] /\ forall a b, In a group -> In b group -> linked edges group a b.

(** No edge runs between two different groups. *)
Definition separated (edges : list ScalarFunction) (groups : list (list LogicalPlan)) : Prop :=
  ForallOrdPairs
    (fun g1 g2 => forall m1 m2, In m1 g1 -> In m2 g2 -> ~ adjacent edges m1 m2)
    groups.

(** The equality-edge graph splits the members into the given connected
    cliques. *)
Definition splitsInto (edges : list ScalarFunction) (joinNodePlans : list LogicalPlan)
    (groups : list (list LogicalPlan)) : Prop :=
  Permutation (concat groups) joinNodePlans /\
  Forall (connectedGroup edges) groups /\
  separated edges groups.

(** *** The growing steps of a run *)

(** [reachedFrom stats s0 trees0 s t]: continuing from the solver [s0] with
    the component trees [trees0] found, the component loop gets to a
    growing step that starts with the solver [s] and the current tree [t]. *)
Definition reachedFrom (stats : StatsCollaborator) (s0 : joinReorderGreedySolver)
    (trees0 : list LogicalPlan) (s : joinReorderGreedySolver) (t : jrNode) : Prop :=
  exists sk treesk seed rest,
    collects stats s0 trees0 sk treesk /\
    curJoinGroup sk = seed :: rest /\
    grows stats (mkSolver rest (otherConds sk) (eqEdges sk)) seed s t.

(** The growing steps of [solve stats joinNodePlans s]. *)
Definition reached (stats : StatsCollaborator) (joinNodePlans : list LogicalPlan)
    (s0 : joinReorderGreedySolver) (s : joinReorderGreedySolver) (t : jrNode) : Prop :=
  reachedFrom stats (seeded stats joinNodePlans s0) [] s t.

(** Every candidate a growing step evaluates costs strictly less than
    [math.MaxFloat64]. *)
Definition belowSentinel (stats : StatsCollaborator) (s : joinReorderGreedySolver)
    (t : jrNode) : Prop :=
  forall j join remain cost,
    candidateAt stats s t j join remain cost -> ltb cost MaxFloat64 = true.

(** The same, as a test. *)
Definition belowSentinelb (stats : StatsCollaborator) (s : joinReorderGreedySolver)
    (t : jrNode) : bool :=
  forallb (fun node =>
             match checkConnectionAndMakeJoin s (p t) (p node) with
             | (Some join, _) => ltb (calcJoinCumCost stats join t node) MaxFloat64
             | (None, _) => true
             end)
          (curJoinGroup s).

(** The growing steps of a run, listed by replaying it. *)
Fixpoint growVisited (stats : StatsCollaborator) (fuel : nat)
    (s : joinReorderGreedySolver) (t : jrNode)
    : list (joinReorderGreedySolver * jrNode) :=
  match fuel with
  | O => []
  | S fuel' =>
      (s, t) :: match growStep stats s t with
                | (StepMerged t1, s1) => growVisited stats fuel' s1 t1
                | _ => []
                end
  end.

Fixpoint componentVisited (stats : StatsCollaborator) (fuel : nat)
    (s : joinReorderGreedySolver) : list (joinReorderGreedySolver * jrNode) :=
  match fuel with
  | O => []
  | S fuel' =>
      match curJoinGroup s with
      | [] => []
      | seed :: rest =>
          let s0 := mkSolver rest (otherConds s) (eqEdges s) in
          growVisited stats (S (length rest)) s0 seed ++
          match growLoop stats (S (length rest)) s0 seed with
          | Returns ((Some _, None), s1) => componentVisited stats fuel' s1
          | _ => []
          end
      end
  end.

Definition visitedSteps (stats : StatsCollaborator) (joinNodePlans : list LogicalPlan)
    (s : joinReorderGreedySolver) : list (joinReorderGreedySolver * jrNode) :=
  componentVisited stats (length (curJoinGroup (seeded stats joinNodePlans s)))
    (seeded stats joinNodePlans s).

(** The schema of [tree] gathers the columns of the members [absorbed]. *)
Definition gathers (tree : LogicalPlan) (absorbed : list LogicalPlan) : Prop :=
  forall col, In col (PlanSchema tree) <->
              exists m, In m absorbed /\ In col (PlanSchema m).

(** What holds of the current tree [t] and the solver [s] while a component
    grows from the member [seedPlan] of [group]: the tree has absorbed some
    members of the group, the others are still among the remaining nodes. *)
Record growthInvariant (edges : list ScalarFunction)
    (members group : list LogicalPlan) (seedPlan : LogicalPlan)
    (absorbed : list LogicalPlan) (s : joinReorderGreedySolver) (t : jrNode) : Prop :=
  mkGrowthInvariant {
    gi_seed : In seedPlan absorbed;
    gi_incl : incl absorbed group;
    gi_perm : Permutation (absorbed ++ map p (curJoinGroup s)) members;
    gi_schema : gathers (p t) absorbed;
    gi_edges : eqEdges s = edges
  }.

(** [A - B] joined by an edge and [D] on its own: two cliques. *)
Module TwoCliques.
Import Examples.

Definition members : list LogicalPlan := [A; B; D].
Definition groups : list (list LogicalPlan) := [[A; B]; [D]].
Definition solver0 : joinReorderGreedySolver :=
  mkSolver [] [overAD; overB] [edgeAB].

Definition treeAB : LogicalPlan := LogicalJoin A B [edgeAB] [overB].

End TwoCliques.

(** [A - B] joined by an edge: one clique. *)
Module OneClique.
Import Examples.

Definition members : list LogicalPlan := [A; B].
Definition groups : list (list LogicalPlan) := [[A; B]].
Definition solver0 : joinReorderGreedySolver := mkSolver [] [] [edgeAB].

End OneClique.

(** *** Predicates attached in a tree *)

(** A member of a group has no join node of its own. *)
Fixpoint joinFree (plan : LogicalPlan) : Prop :=
  match plan with
  | DataSource _ _ => True
  | LogicalSelection _ child => joinFree child
  | LogicalJoin _ _ _ _ => False
  end.

(** The residual predicates attached to the join nodes of a tree. *)
Fixpoint attachedResiduals (plan : LogicalPlan) : list Expression :=
  match plan with
  | DataSource _ _ => []
  | LogicalSelection _ child => attachedResiduals child
  | LogicalJoin l r _ others => others ++ attachedResiduals l ++ attachedResiduals r
  end.

(** An equality as the solver attaches it for [edge]: the edge itself, or
    the edge with its two columns swapped. *)
Definition swappedEdge (edge : ScalarFunction) : ScalarFunction :=
  NewFunctionInternalEQ (GetType edge) (Arg1 edge) (Arg0 edge).

(** Every predicate attached to a join node of the tree can be evaluated
    there: an equality is an edge of the solver (as it is or swapped) with
    its first column in the left child and its second in the right child,
    and a residual predicate is covered by the schema of the node. *)
Fixpoint wellAttached (edges : list ScalarFunction) (plan : LogicalPlan) : Prop :=
  match plan with
  | DataSource _ _ => True
  | LogicalSelection _ child => wellAttached edges child
  | LogicalJoin l r eqs others =>
      (forall eq, In eq eqs ->
         In (Arg0 eq) (PlanSchema l) /\ In (Arg1 eq) (PlanSchema r) /\
         (In eq edges \/ exists edge, In edge edges /\ eq = swappedEdge edge)) /\
      (forall expr, In expr others -> coveredBy (PlanSchema plan) expr) /\
      wellAttached edges l /\ wellAttached edges r
  end.

Definition sameEdge (e1 e2 : ScalarFunction) : bool :=
  Nat.eqb (GetType e1) (GetType e2) && Nat.eqb (Arg0 e1) (Arg0 e2)
  && Nat.eqb (Arg1 e1) (Arg1 e2).

(** [edge] is attached to a join node with the equalities [eqs], as it is
    or swapped. *)
Definition attachedHere (edge : ScalarFunction) (eqs : list ScalarFunction) : bool :=
  existsb (sameEdge edge) eqs || existsb (sameEdge (swappedEdge edge)) eqs.

(** The number of join nodes of the tree that [edge] is attached to. *)
Fixpoint joinNodesWith (edge : ScalarFunction) (plan : LogicalPlan) : nat :=
  match plan with
  | DataSource _ _ => 0
  | LogicalSelection _ child => joinNodesWith edge child
  | LogicalJoin l r eqs _ =>
      (if attachedHere edge eqs then 1 else 0)
      + joinNodesWith edge l + joinNodesWith edge r
  end.

(** The bookkeeping of a run, for the trees [built] so far (the current
    tree included) and the solver [s]: the trees are well attached, the
    remaining nodes are members, and the residual predicates and the columns
    of the group are all accounted for. *)
Record accounted (edges : list ScalarFunction) (residuals : list Expression)
    (columns : list Column) (built : list LogicalPlan)
    (s : joinReorderGreedySolver) : Prop :=
  mkAccounted {
    acc_edges : eqEdges s = edges;
    acc_attached : Forall (wellAttached edges) built;
    acc_members : Forall joinFree (map p (curJoinGroup s));
    acc_residuals :
      Permutation (flat_map attachedResiduals built ++ otherConds s) residuals;
    acc_columns :
      Permutation (flat_map PlanSchema built
                     ++ flat_map PlanSchema (map p (curJoinGroup s)))
                  columns
  }.

(** The chain [A - B - C] together with the unconnected member [D]: the
    tree [solve] returns, and the solver it leaves. *)
Module FourMembers.
Import Examples.

Definition members : list LogicalPlan := [A; B; C; D].

Definition treeABC : LogicalPlan :=
  LogicalJoin (LogicalJoin A B [edgeAB] [overB]) C [swappedEdge edgeCB] [overAC].

Definition final : LogicalPlan := newCartesianJoin treeABC D.

Definition leftover : joinReorderGreedySolver :=
  mkSolver [] [overAD] [edgeAB; edgeCB].

End FourMembers.

(** *** The order of the group *)

(** [b] may follow [a] in the sorted group: it is not strictly cheaper. *)
Definition notCheaper (a b : jrNode) : Prop :=
  ltb (cumCost b) (cumCost a) = false.

(** [a] costs at most as much as [b]. *)
Definition costLe (a b : jrNode) : Prop :=
  leb (cumCost a) (cumCost b) = true.

(** The nodes whose cost is exactly [c]. *)
Definition sameCost (c : float64) (node : jrNode) : bool :=
  eqb (cumCost node) c.

(** *** The shape of the component trees *)

(** The members at the leaves of a tree, from left to right. *)
Fixpoint leavesOf (plan : LogicalPlan) : list LogicalPlan :=
  match plan with
  | LogicalJoin l r _ _ => leavesOf l ++ leavesOf r
  | _ => [plan]
  end.

Definition isJoin (plan : LogicalPlan) : Prop :=
  match plan with
  | LogicalJoin _ _ _ _ => True
  | _ => False
  end.

(** A tree as the grower builds it: a member, or the join of such a tree
    with one member on its right, on at least one equality. *)
Fixpoint grownLeftDeep (plan : LogicalPlan) : Prop :=
  match plan with
  | LogicalJoin l r eqs _ => grownLeftDeep l /\ joinFree r /\ eqs <> []
  | _ => joinFree plan
  end.

(** No residual predicate of a join could have been attached one join
    earlier: it is not covered by the schema of the join below it. *)
Fixpoint attachedEarliest (plan : LogicalPlan) : Prop :=
  match plan with
  | LogicalJoin l r _ others =>
      attachedEarliest l /\
      (isJoin l -> forall expr, In expr others -> ~ coveredBy (PlanSchema l) expr)
  | _ => True
  end.

(** The trees [built] so far are grown left-deep over the members, each
    member being a leaf of one tree or still among the remaining nodes. *)
Record shaped (members : list LogicalPlan) (built : list LogicalPlan)
    (s : joinReorderGreedySolver) : Prop :=
  mkShaped {
    sh_trees : Forall grownLeftDeep built;
    sh_members : Forall joinFree (map p (curJoinGroup s));
    sh_leaves : Permutation (flat_map leavesOf built ++ map p (curJoinGroup s)) members
  }.

(** The trees [built] so far carry their residual predicates at the
    earliest join, and no pending predicate is covered by a join among
    them. *)
Record earliest (built : list LogicalPlan) (s : joinReorderGreedySolver) : Prop :=
  mkEarliest {
    ea_trees : Forall attachedEarliest built;
    ea_members : Forall joinFree (map p (curJoinGroup s));
    ea_pending :
      Forall (fun tree => isJoin tree ->
                forall expr, In expr (otherConds s) ->
                  ~ coveredBy (PlanSchema tree) expr) built
  }.

(** Deriving the stats of the member [B] fails with error 7. *)
Module MemberFailure.

Definition failOnB : StatsCollaborator :=
  mkStats (fun plan => match plan with
                       | DataSource 2 _ => Some 7
                       | _ => None
                       end)
          (fun _ => ofZ 1).

End MemberFailure.

(** Some node of the group connects to the current tree and deriving the
    stats of the candidate join fails. *)
Definition candidateFails (stats : StatsCollaborator) (s : joinReorderGreedySolver)
    (curJoinTree : jrNode) : Prop :=
  exists node join remain err,
    In node (curJoinGroup s) /\
    checkConnectionAndMakeJoin s (p curJoinTree) (p node) = (Some join, remain) /\
    deriveStatsError stats join = Some err.

(** [A - B] joined by an edge, with [A] first in the group. *)
Module Pair.
Import Examples.

Definition start : joinReorderGreedySolver :=
  mkSolver [Star.nodeA; Star.nodeB] [] [edgeAB].
Definition afterSeed : joinReorderGreedySolver :=
  mkSolver [Star.nodeB] [] [edgeAB].

End Pair.

(** Every join of a left-deep tree carries each edge that links its two
    children: the edge itself when its first column is on the left, the
    edge or the swapped one when its first column is on the right. *)
Fixpoint carriesLinkingEdges (edges : list ScalarFunction) (plan : LogicalPlan) : Prop :=
  match plan with
  | LogicalJoin l r eqs _ =>
      carriesLinkingEdges edges l /\
      (forall edge, In edge edges ->
         (connectsAsIs l r edge -> In edge eqs) /\
         (connectsSwapped l r edge -> In edge eqs \/ In (swappedEdge edge) eqs))
  | _ => True
  end.

(** The trees [built] so far carry the edges [edges] of the solver that
    link the children of their joins. *)
Record carrying (edges : list ScalarFunction) (built : list LogicalPlan)
    (s : joinReorderGreedySolver) : Prop :=
  mkCarrying {
    ca_edges : eqEdges s = edges;
    ca_trees : Forall (carriesLinkingEdges edges) built;
    ca_members : Forall joinFree (map p (curJoinGroup s))
  }.

(** The edge has both its columns in the schema of the plan. *)
Definition spans (edge : ScalarFunction) (plan : LogicalPlan) : Prop :=
  In (Arg0 edge) (PlanSchema plan) /\ In (Arg1 edge) (PlanSchema plan).

(** The edge equates columns of two different members: both its columns
    are columns of members, and no member has both. *)
Definition joinsTwoMembers (members : list LogicalPlan) (edge : ScalarFunction) : Prop :=
  In (Arg0 edge) (flat_map PlanSchema members) /\
  In (Arg1 edge) (flat_map PlanSchema members) /\
  forall m, In m members -> ~ spans edge m.

(** The component trees found so far are closed under the edges: no edge
    links two of them, nor one of them with a remaining node. *)
Record detached (edges : list ScalarFunction) (found : list LogicalPlan)
    (s : joinReorderGreedySolver) : Prop :=
  mkDetached {
    de_edges : eqEdges s = edges;
    de_trees : ForallOrdPairs (fun t1 t2 => ~ adjacent edges t1 t2) found;
    de_nodes : forall tree node,
      In tree found -> In node (curJoinGroup s) -> ~ adjacent edges tree (p node)
  }.

(* ================================================================== *)
(** * Properties *)

Unset Implicit Arguments.

(** ** Order facts on binary64 *)

Module Float64Facts.

Ltac split_compare :=
  repeat match goal with
  | H : context [Pos.compare_cont Eq ?a ?b] |- _ =>
      change (Pos.compare_cont Eq a b) with (Pos.compare a b) in H
  | |- context [Pos.compare_cont Eq ?a ?b] =>
      change (Pos.compare_cont Eq a b) with (Pos.compare a b)
  end;
  repeat match goal with
  | H : context [Z.compare ?a ?b] |- _ =>
      destruct (Z.compare_spec a b); simpl in H; try discriminate H
  | H : context [Pos.compare ?a ?b] |- _ =>
      destruct (Pos.compare_spec a b); simpl in H; try discriminate H
  end;
  repeat match goal with
  | |- context [Z.compare ?a ?b] =>
      destruct (Z.compare_spec a b); simpl
  | |- context [Pos.compare ?a ?b] =>
      destruct (Pos.compare_spec a b); simpl
  end;
  subst; try reflexivity; try discriminate; try lia.

Lemma SFcompare_lt_trans (x y z : float64) :
  SFcompare x y = Some Lt -> SFcompare y z = Some Lt -> SFcompare x z = Some Lt.
Proof.
  destruct x as [sx|sx| |sx mx ex], y as [sy|sy| |sy my ey], z as [sz|sz| |sz mz ez];
    simpl; try discriminate;
    try destruct sx; try destruct sy; try destruct sz;
    simpl; try discriminate; try reflexivity;
    intros H1 H2; injection H1 as H1; injection H2 as H2; f_equal;
    split_compare.
Qed.

Lemma SFcompare_eq_lt (x y z : float64) :
  SFcompare x y = Some Eq -> SFcompare y z = Some Lt -> SFcompare x z = Some Lt.
Proof.
  destruct x as [sx|sx| |sx mx ex], y as [sy|sy| |sy my ey], z as [sz|sz| |sz mz ez];
    simpl; try discriminate;
    try destruct sx; try destruct sy; try destruct sz;
    simpl; try discriminate; try reflexivity;
    intros H1 H2; injection H1 as H1; injection H2 as H2; f_equal;
    split_compare.
Qed.

Lemma SFcompare_irrefl (x : float64) : SFcompare x x <> Some Lt.
Proof.
  destruct x as [sx|sx| |sx mx ex]; simpl; try discriminate;
    destruct sx; try discriminate;
    rewrite Z.compare_refl; change (Pos.compare_cont Eq mx mx) with (Pos.compare mx mx);
    rewrite Pos.compare_refl; discriminate.
Qed.

Lemma SFcompare_antisym (x y : float64) :
  SFcompare y x = option_map CompOpp (SFcompare x y).
Proof.
  destruct x as [sx|sx| |sx mx ex], y as [sy|sy| |sy my ey];
    simpl; try reflexivity;
    try destruct sx; try destruct sy; simpl; try reflexivity;
    rewrite (Z.compare_antisym ey ex);
    change (Pos.compare_cont Eq my mx) with (Pos.compare my mx);
    change (Pos.compare_cont Eq mx my) with (Pos.compare mx my);
    rewrite (Pos.compare_antisym mx my);
    destruct (ey ?= ex)%Z; simpl; try reflexivity;
    destruct (mx ?= my)%positive; reflexivity.
Qed.

Lemma ltb_irrefl x : ltb x x = false.
Proof.
  unfold ltb, SFltb. pose proof (SFcompare_irrefl x).
  destruct (SFcompare x x) as [[]|]; congruence.
Qed.

Lemma ltb_trans x y z : ltb x y = true -> ltb y z = true -> ltb x z = true.
Proof.
  unfold ltb, SFltb. intros H1 H2.
  destruct (SFcompare x y) as [[]|] eqn:E1; try discriminate.
  destruct (SFcompare y z) as [[]|] eqn:E2; try discriminate.
  now rewrite (SFcompare_lt_trans _ _ _ E1 E2).
Qed.

Lemma eqb_ltb x y z : eqb x y = true -> ltb y z = true -> ltb x z = true.
Proof.
  unfold eqb, ltb, SFeqb, SFltb. intros H1 H2.
  destruct (SFcompare x y) as [[]|] eqn:E1; try discriminate.
  destruct (SFcompare y z) as [[]|] eqn:E2; try discriminate.
  now rewrite (SFcompare_eq_lt _ _ _ E1 E2).
Qed.

Lemma leb_not_gtb x y : leb x y = true -> ltb y x = false.
Proof.
  unfold leb, ltb, SFleb, SFltb. rewrite (SFcompare_antisym x y).
  destruct (SFcompare x y) as [[]|]; simpl; congruence.
Qed.

Lemma SFcompare_defined x y :
  isNaN x = false -> isNaN y = false -> SFcompare x y <> None.
Proof. destruct x, y; simpl; discriminate. Qed.

Lemma not_ltb_leb x y :
  isNaN x = false -> isNaN y = false -> ltb y x = false -> leb x y = true.
Proof.
  intros Hx Hy. pose proof (SFcompare_defined x y Hx Hy) as Hd.
  unfold leb, ltb, SFleb, SFltb. rewrite (SFcompare_antisym x y).
  destruct (SFcompare x y) as [[]|]; simpl; congruence.
Qed.

Lemma ltb_NaN_r x : ltb x NaN = false.
Proof. destruct x; reflexivity. Qed.

Lemma leb_NaN_r x : leb x NaN = false.
Proof. destruct x; reflexivity. Qed.

End Float64Facts.

Import Float64Facts.

(* ------------------------------------------------------------------ *)
(** ** Schemas, the edge scan and the residual partition *)

Lemma Contains_In (s : Schema) (col : Column) :
  Contains s col = true <-> In col s.
Proof.
  unfold Contains. rewrite existsb_exists. split.
  - intros (x & Hx & Heq). apply Nat.eqb_eq in Heq. now subst.
  - intros H. exists col. split; [assumption | apply Nat.eqb_refl].
Qed.

Lemma Contains_false (s : Schema) (col : Column) :
  Contains s col = false <-> ~ In col s.
Proof.
  rewrite <- Contains_In. destruct (Contains s col); split; congruence.
Qed.

Lemma MergeSchema_In (l r : Schema) (col : Column) :
  In col (MergeSchema l r) <-> In col l \/ In col r.
Proof. unfold MergeSchema. apply in_app_iff. Qed.

Lemma ExprFromSchema_spec (expr : Expression) (schema : Schema) :
  ExprFromSchema expr schema = true <->
  (forall col, In col (exprColumns expr) -> In col schema).
Proof.
  unfold ExprFromSchema. rewrite forallb_forall.
  split; intros H col Hc; apply Contains_In; auto.
Qed.

Lemma filterOutBackward_eq (input : list Expression) (f : Expression -> bool)
    (acc : list Expression) :
  filterOutBackward input f acc =
  (filter (fun e => negb (f e)) input, acc ++ rev (filter f input)).
Proof.
  induction input as [|x rest IH]; simpl.
  - now rewrite app_nil_r.
  - rewrite IH. destruct (f x); simpl; [|reflexivity].
    now rewrite app_assoc.
Qed.

Lemma FilterOutInPlace_eq (input : list Expression) (f : Expression -> bool) :
  FilterOutInPlace input f = (filter (fun e => negb (f e)) input, rev (filter f input)).
Proof. unfold FilterOutInPlace. now rewrite filterOutBackward_eq. Qed.

Lemma filter_partition_Permutation (A : Type) (f : A -> bool) (l : list A) :
  Permutation (filter f l ++ filter (fun x => negb (f x)) l) l.
Proof.
  induction l as [|x l IH]; simpl; [constructor|].
  destruct (f x); simpl.
  - now constructor.
  - apply Permutation_sym, Permutation_cons_app, Permutation_sym, IH.
Qed.

Lemma asIs_test leftNode rightNode edge :
  Contains (PlanSchema leftNode) (Arg0 edge) && Contains (PlanSchema rightNode) (Arg1 edge) = true
  <-> connectsAsIs leftNode rightNode edge.
Proof. unfold connectsAsIs. now rewrite andb_true_iff, !Contains_In. Qed.

Lemma swapped_test leftNode rightNode edge :
  Contains (PlanSchema rightNode) (Arg0 edge) && Contains (PlanSchema leftNode) (Arg1 edge) = true
  <-> connectsSwapped leftNode rightNode edge.
Proof. unfold connectsSwapped. now rewrite andb_true_iff, !Contains_In. Qed.

Lemma usedEdgesOf_In edges leftNode rightNode used :
  In used (usedEdgesOf edges leftNode rightNode) <->
  exists edge, In edge edges /\
    ((connectsAsIs leftNode rightNode edge /\ used = edge) \/
     (~ connectsAsIs leftNode rightNode edge /\ connectsSwapped leftNode rightNode edge /\
      used = NewFunctionInternalEQ (GetType edge) (Arg1 edge) (Arg0 edge))).
Proof.
  induction edges as [|edge rest IH]; simpl.
  - split; [tauto | intros (e & [] & _)].
  - destruct (Contains (PlanSchema leftNode) (Arg0 edge) &&
              Contains (PlanSchema rightNode) (Arg1 edge)) eqn:Has.
    + apply asIs_test in Has. simpl. rewrite IH. split.
      * intros [<- | (e & He & Hc)]; [exists edge | exists e]; tauto.
      * intros (e & [<- | He] & Hc); [| right; exists e; tauto].
        destruct Hc as [[_ ->] | [Hn _]]; tauto.
    + assert (Hnot : ~ connectsAsIs leftNode rightNode edge)
        by (rewrite <- asIs_test; congruence).
      destruct (Contains (PlanSchema rightNode) (Arg0 edge) &&
                Contains (PlanSchema leftNode) (Arg1 edge)) eqn:Hsw.
      * apply swapped_test in Hsw. simpl. rewrite IH. split.
        -- intros [<- | (e & He & Hc)]; [exists edge | exists e]; tauto.
        -- intros (e & [<- | He] & Hc); [| right; exists e; tauto].
           destruct Hc as [[Hc _] | (_ & _ & ->)]; tauto.
      * assert (Hnsw : ~ connectsSwapped leftNode rightNode edge)
          by (rewrite <- swapped_test; congruence).
        rewrite IH. split.
        -- intros (e & He & Hc). exists e. tauto.
        -- intros (e & [<- | He] & Hc); [tauto | exists e; tauto].
Qed.

Lemma usedEdgesOf_nil edges leftNode rightNode :
  usedEdgesOf edges leftNode rightNode = [] <->
  (forall edge, In edge edges ->
     ~ (connectsAsIs leftNode rightNode edge \/ connectsSwapped leftNode rightNode edge)).
Proof.
  split.
  - intros Hnil edge He Hc.
    assert (exists used, In used (usedEdgesOf edges leftNode rightNode)) as (u & Hu).
    { pose proof (asIs_test leftNode rightNode edge) as Ht.
      destruct (Contains (PlanSchema leftNode) (Arg0 edge) &&
                Contains (PlanSchema rightNode) (Arg1 edge)) eqn:Has.
      - exists edge. apply usedEdgesOf_In. exists edge. tauto.
      - exists (NewFunctionInternalEQ (GetType edge) (Arg1 edge) (Arg0 edge)).
        apply usedEdgesOf_In. exists edge. split; [assumption|]. right.
        assert (~ connectsAsIs leftNode rightNode edge) by (intro; intuition congruence).
        tauto. }
    rewrite Hnil in Hu. destruct Hu.
  - intros Hnone. destruct (usedEdgesOf edges leftNode rightNode) as [|u us] eqn:E;
      [reflexivity|].
    assert (Hin : In u (usedEdgesOf edges leftNode rightNode)) by (rewrite E; now left).
    apply usedEdgesOf_In in Hin. destruct Hin as (e & He & Hc).
    exfalso. apply (Hnone e He). tauto.
Qed.

(** Claim C2.  [checkConnectionAndMakeJoin] returns a join candidate exactly
    when some equality edge connects the two subtrees in one of the two
    orientations.  The candidate joins the two subtrees on the matching
    edges: an edge whose first column is on the left and second on the right
    is used as it is, an edge that only connects them the other way round is
    replaced by a new equality with the two columns swapped.  When no edge
    matches, the call returns no candidate (and no pending list). *)
Theorem checkConnectionAndMakeJoin_candidate_iff_edge :
  forall (s : joinReorderGreedySolver) (leftNode rightNode : LogicalPlan),
    ((exists join, fst (checkConnectionAndMakeJoin s leftNode rightNode) = Some join) <->
     (exists edge, In edge (eqEdges s) /\
        (connectsAsIs leftNode rightNode edge \/ connectsSwapped leftNode rightNode edge)))
    /\
    (forall join,
        fst (checkConnectionAndMakeJoin s leftNode rightNode) = Some join ->
        exists others,
          join = LogicalJoin leftNode rightNode
                   (usedEdgesOf (eqEdges s) leftNode rightNode) others /\
          forall used, In used (attachedEdges join) <->
            exists edge, In edge (eqEdges s) /\
              ((connectsAsIs leftNode rightNode edge /\ used = edge) \/
               (~ connectsAsIs leftNode rightNode edge /\
                connectsSwapped leftNode rightNode edge /\
                used = NewFunctionInternalEQ (GetType edge) (Arg1 edge) (Arg0 edge))))
    /\
    ((forall edge, In edge (eqEdges s) ->
        ~ (connectsAsIs leftNode rightNode edge \/ connectsSwapped leftNode rightNode edge)) ->
     checkConnectionAndMakeJoin s leftNode rightNode = (None, [])).
Proof.
  intros s leftNode rightNode.
  pose proof (usedEdgesOf_nil (eqEdges s) leftNode rightNode) as Hnil.
  pose proof (usedEdgesOf_In (eqEdges s) leftNode rightNode) as Hin.
  unfold checkConnectionAndMakeJoin.
  destruct (usedEdgesOf (eqEdges s) leftNode rightNode) as [|u us] eqn:Hused.
  - simpl. split; [|split].
    + split.
      * intros (join & Hj). discriminate Hj.
      * intros (edge & He & Hc). exfalso.
        destruct Hnil as [Hnil _]. apply (Hnil eq_refl edge He Hc).
    + intros join Hj. discriminate Hj.
    + reflexivity.
  - destruct (FilterOutInPlace (otherConds s)
                (fun expr => ExprFromSchema expr
                   (MergeSchema (PlanSchema leftNode) (PlanSchema rightNode))))
      as [remain others] eqn:Hf.
    simpl. split; [|split].
    + split.
      * intros _. destruct (Hin u) as [Hu _].
        destruct (Hu (or_introl eq_refl)) as (edge & He & Hc).
        exists edge. tauto.
      * intros _. eexists. reflexivity.
    + intros join Hj. injection Hj as <-. exists others. split; [reflexivity|].
      simpl. intros used. apply Hin.
    + intros Hnone. destruct Hnil as [_ Hnil]. discriminate (Hnil Hnone).
Qed.

(** Claim C3.  When [checkConnectionAndMakeJoin] returns a candidate, the
    candidate's schema is the merged schema (a column is in it exactly when
    one of the two subtrees outputs it), a predicate of the current pending
    list is attached to the candidate exactly when the merged schema covers
    every column it references, every other one is in the returned pending
    list, and attached and pending predicates together are a rearrangement
    of the current list: none is lost, none appears twice. *)
Theorem checkConnectionAndMakeJoin_partitions_residuals :
  forall (s : joinReorderGreedySolver) (leftNode rightNode join : LogicalPlan)
         (remain : list Expression),
    checkConnectionAndMakeJoin s leftNode rightNode = (Some join, remain) ->
    PlanSchema join = MergeSchema (PlanSchema leftNode) (PlanSchema rightNode) /\
    (forall col, In col (PlanSchema join) <->
                 In col (PlanSchema leftNode) \/ In col (PlanSchema rightNode)) /\
    (forall expr, In expr (attachedOthers join) <->
                  In expr (otherConds s) /\ coveredBy (PlanSchema join) expr) /\
    (forall expr, In expr remain <->
                  In expr (otherConds s) /\ ~ coveredBy (PlanSchema join) expr) /\
    Permutation (attachedOthers join ++ remain) (otherConds s).
Proof.
  intros s leftNode rightNode join remain.
  unfold checkConnectionAndMakeJoin.
  destruct (usedEdgesOf (eqEdges s) leftNode rightNode) as [|u us]; [discriminate|].
  rewrite FilterOutInPlace_eq. intros H. injection H as <- <-.
  simpl PlanSchema. simpl attachedOthers.
  split; [reflexivity|]. split; [intros col; apply MergeSchema_In|].
  split; [|split].
  - intros expr. rewrite <- in_rev, filter_In.
    unfold coveredBy. now rewrite ExprFromSchema_spec.
  - intros expr. rewrite filter_In, negb_true_iff.
    unfold coveredBy. rewrite <- ExprFromSchema_spec.
    destruct (ExprFromSchema expr _); intuition congruence.
  - eapply Permutation_trans; [|apply (filter_partition_Permutation _
        (fun e => ExprFromSchema e (MergeSchema (PlanSchema leftNode) (PlanSchema rightNode))))].
    apply Permutation_app_tail, Permutation_sym, Permutation_rev.
Qed.

Lemma checkConnectionAndMakeJoin_partitions_residuals_witness :
  checkConnectionAndMakeJoin Examples.chain Examples.A Examples.B =
    (Some (LogicalJoin Examples.A Examples.B [Examples.edgeAB] [Examples.overB]),
     [Examples.overAC; Examples.overAD]) /\
  Permutation
    (attachedOthers (LogicalJoin Examples.A Examples.B [Examples.edgeAB] [Examples.overB])
       ++ [Examples.overAC; Examples.overAD])
    (otherConds Examples.chain).
Proof.
  split; [reflexivity|].
  apply (checkConnectionAndMakeJoin_partitions_residuals
           Examples.chain Examples.A Examples.B).
  reflexivity.
Defined.

(* ------------------------------------------------------------------ *)
(** ** The scan of one growing step *)

Section Scan.

Variable stats : StatsCollaborator.
Variable s : joinReorderGreedySolver.
Variable curJoinTree : jrNode.

Lemma candidateIn_fun nodes j join remain cost join' remain' cost' :
  candidateIn stats s curJoinTree nodes j join remain cost ->
  candidateIn stats s curJoinTree nodes j join' remain' cost' ->
  join = join' /\ remain = remain' /\ cost = cost'.
Proof.
  intros (n1 & Hn1 & Hc1 & <-) (n2 & Hn2 & Hc2 & <-).
  rewrite Hn1 in Hn2. injection Hn2 as <-.
  rewrite Hc1 in Hc2. injection Hc2 as <- <-. auto.
Qed.

Lemma scanInvariant_init nodes : scanInvariant stats s curJoinTree nodes 0 (scanInit).
Proof.
  constructor.
  - reflexivity.
  - intros join H. discriminate H.
  - intros j join' remain' cost Hj. lia.
Qed.

(** Visiting a node that does not connect. *)
Lemma scanInvariant_skip nodes n node st :
  nth_error nodes n = Some node ->
  fst (checkConnectionAndMakeJoin s (p curJoinTree) (p node)) = None ->
  scanInvariant stats s curJoinTree nodes n st ->
  scanInvariant stats s curJoinTree nodes (S n) st.
Proof.
  intros Hn Hnone [Hi1 Hi2 Hi3]. constructor.
  - assumption.
  - intros join Hj. destruct (Hi2 join Hj) as (b & Hb & Hlt & Hrest).
    exists b. repeat split; try tauto; lia.
  - intros j join' remain' cost Hj Hc.
    destruct (Nat.eq_dec j n) as [-> | Hne].
    + destruct Hc as (node' & Hn' & Hc & _). rewrite Hn in Hn'. injection Hn' as <-.
      rewrite Hc in Hnone. discriminate Hnone.
    + apply (Hi3 j join' remain' cost); [lia | assumption].
Qed.

(** Visiting a candidate that does not beat the best cost so far. *)
Lemma scanInvariant_keep nodes n node join remain st :
  nth_error nodes n = Some node ->
  checkConnectionAndMakeJoin s (p curJoinTree) (p node) = (Some join, remain) ->
  gtb (bestCost st) (calcJoinCumCost stats join curJoinTree node) = false ->
  scanInvariant stats s curJoinTree nodes n st ->
  scanInvariant stats s curJoinTree nodes (S n) st.
Proof.
  intros Hn Hc Hgt [Hi1 Hi2 Hi3]. constructor.
  - assumption.
  - intros join0 Hj. destruct (Hi2 join0 Hj) as (b & Hb & Hlt & Hrest).
    exists b. repeat split; try tauto; lia.
  - intros j join' remain' cost Hj Hcand.
    destruct (Nat.eq_dec j n) as [-> | Hne].
    + destruct Hcand as (node' & Hn' & Hc' & <-). rewrite Hn in Hn'. injection Hn' as <-.
      rewrite Hc in Hc'. injection Hc' as <- <-. exact Hgt.
    + apply (Hi3 j join' remain' cost); [lia | assumption].
Qed.

(** Visiting a candidate that beats the best cost so far. *)
Lemma scanInvariant_take nodes n node join remain st :
  nth_error nodes n = Some node ->
  checkConnectionAndMakeJoin s (p curJoinTree) (p node) = (Some join, remain) ->
  gtb (bestCost st) (calcJoinCumCost stats join curJoinTree node) = true ->
  scanInvariant stats s curJoinTree nodes n st ->
  scanInvariant stats s curJoinTree nodes (S n)
    (mkScan (calcJoinCumCost stats join curJoinTree node) (Z.of_nat n) remain (Some join)).
Proof.
  intros Hn Hc Hgt [Hi1 Hi2 Hi3]. unfold gtb in Hgt. fold (ltb (calcJoinCumCost stats join curJoinTree node) (bestCost st)) in Hgt.
  assert (Hmax : ltb (calcJoinCumCost stats join curJoinTree node) MaxFloat64 = true).
  { destruct (bestJoin st) as [j0|] eqn:Hb.
    - destruct (Hi2 j0 eq_refl) as (b & _ & _ & _ & Hlt & _).
      eapply ltb_trans; eassumption.
    - rewrite (Hi1 eq_refl) in Hgt. exact Hgt. }
  constructor; simpl.
  - discriminate.
  - intros join0 Hj. injection Hj as <-. exists n.
    split; [reflexivity|]. split; [lia|]. split; [exists node; auto|].
    split; [assumption|].
    intros j join' remain' cost Hj Hcand.
    destruct (eqb cost (calcJoinCumCost stats join curJoinTree node)) eqn:He;
      [|reflexivity].
    rewrite <- (Hi3 j join' remain' cost Hj Hcand).
    symmetry. eapply eqb_ltb; eassumption.
  - intros j join' remain' cost Hj Hcand.
    destruct (Nat.eq_dec j n) as [-> | Hne].
    + destruct Hcand as (node' & Hn' & Hc' & <-). rewrite Hn in Hn'. injection Hn' as <-.
      rewrite Hc in Hc'. injection Hc' as <- <-. apply ltb_irrefl.
    + destruct (ltb cost (calcJoinCumCost stats join curJoinTree node)) eqn:Hl;
        [|reflexivity].
      rewrite <- (Hi3 j join' remain' cost ltac:(lia) Hcand).
      symmetry. eapply ltb_trans; eassumption.
Qed.

Lemma scanCandidates_invariant rest :
  forall pre st st',
    scanInvariant stats s curJoinTree (pre ++ rest) (length pre) st ->
    scanCandidates stats s curJoinTree (Z.of_nat (length pre)) rest st = inl st' ->
    scanInvariant stats s curJoinTree (pre ++ rest) (length (pre ++ rest)) st'.
Proof.
  induction rest as [|node rest IH]; intros pre st st' Hinv Hscan.
  - simpl in Hscan. injection Hscan as <-. now rewrite app_nil_r in *.
  - assert (Hn : nth_error (pre ++ node :: rest) (length pre) = Some node).
    { rewrite nth_error_app2, Nat.sub_diag; [reflexivity | lia]. }
    assert (Hlen : (Z.of_nat (length pre) + 1)%Z = Z.of_nat (length (pre ++ [node]))).
    { rewrite length_app. simpl. lia. }
    assert (Happ : pre ++ node :: rest = (pre ++ [node]) ++ rest).
    { now rewrite <- app_assoc. }
    assert (Hlen' : S (length pre) = length (pre ++ [node])).
    { rewrite length_app. simpl. lia. }
    simpl in Hscan. rewrite Hlen in Hscan.
    destruct (checkConnectionAndMakeJoin s (p curJoinTree) (p node))
      as [[join|] remain] eqn:Hc.
    + destruct (deriveStatsError stats join); [discriminate|].
      destruct (gtb (bestCost st) (calcJoinCumCost stats join curJoinTree node)) eqn:Hgt.
      * rewrite Happ. eapply (IH (pre ++ [node])); [|exact Hscan].
        rewrite <- Happ, <- Hlen'.
        eapply scanInvariant_take; eassumption.
      * rewrite Happ. eapply (IH (pre ++ [node])); [|exact Hscan].
        rewrite <- Happ, <- Hlen'.
        eapply scanInvariant_keep; eassumption.
    + rewrite Happ. eapply (IH (pre ++ [node])); [|exact Hscan].
      rewrite <- Happ, <- Hlen'.
      eapply scanInvariant_skip; try eassumption. now rewrite Hc.
Qed.

(** The scan of a whole growing step. *)
Lemma scan_step_invariant st :
  scanCandidates stats s curJoinTree 0 (curJoinGroup s) scanInit = inl st ->
  scanInvariant stats s curJoinTree (curJoinGroup s) (length (curJoinGroup s)) st.
Proof.
  intros H.
  exact (scanCandidates_invariant (curJoinGroup s) [] _ _ (scanInvariant_init _) H).
Qed.

End Scan.

(* ------------------------------------------------------------------ *)
(** ** One growing step *)

Lemma ltb_true_not_NaN_l x y : ltb x y = true -> isNaN x = false.
Proof. destruct x; simpl; try reflexivity. discriminate. Qed.

Lemma removeAt_length (A : Type) (b : nat) (l : list A) :
  b < length l -> S (length (removeAt (Z.of_nat b) l)) = length l.
Proof.
  intros Hb. unfold removeAt.
  replace (Z.to_nat (Z.of_nat b + 1)) with (S b) by lia. rewrite Nat2Z.id.
  rewrite length_app, length_firstn, length_skipn. lia.
Qed.

(** What a committed merge is made of. *)
Lemma growStep_merged stats s t t' s' :
  growStep stats s t = (StepMerged t', s') ->
  exists st b,
    scanCandidates stats s t 0 (curJoinGroup s) scanInit = inl st /\
    bestJoin st = Some (p t') /\ bestCost st = cumCost t' /\
    bestIdx st = Z.of_nat b /\ b < length (curJoinGroup s) /\
    s' = mkSolver (removeAt (Z.of_nat b) (curJoinGroup s))
                  (finalRemainOthers st) (eqEdges s) /\
    candidateAt stats s t b (p t') (finalRemainOthers st) (cumCost t').
Proof.
  unfold growStep. intros H.
  destruct (scanCandidates stats s t 0 (curJoinGroup s) scanInit) as [st|err] eqn:Hscan;
    [|discriminate].
  pose proof (scan_step_invariant _ _ _ _ Hscan) as [_ Hsome _].
  destruct (bestJoin st) as [join|] eqn:Hb; [|discriminate].
  destruct (Hsome join eq_refl) as (b & Hidx & Hlt & Hcand & _).
  injection H as <- <-. rewrite Hidx. exists st, b. simpl.
  unfold candidateAt. auto 10.
Qed.

Lemma growStep_not_merged stats s t r s' :
  growStep stats s t = (r, s') ->
  (forall t', r <> StepMerged t') -> s' = s.
Proof.
  unfold growStep.
  destruct (scanCandidates stats s t 0 (curJoinGroup s) scanInit) as [st|err].
  - destruct (bestJoin st).
    + intros H Hn. injection H as <- _. now elim (Hn _ eq_refl).
    + intros H _. now injection H.
  - intros H _. now injection H.
Qed.

(** Claim C1 (amended).  In a growing step that commits a merge, the
    committed candidate is one of the connectable candidates of the step, no
    candidate of the step has a strictly smaller cumulative cost, so its cost
    is less than or equal to the cost of every candidate whose cost is not a
    NaN, and a candidate whose cost is exactly equal to the committed one
    does not come before it in the scan of the remaining nodes. *)
Theorem growStep_commits_cheapest_first :
  forall (stats : StatsCollaborator) (s : joinReorderGreedySolver)
         (curJoinTree merged : jrNode) (s' : joinReorderGreedySolver),
    growStep stats s curJoinTree = (StepMerged merged, s') ->
    exists b,
      candidateAt stats s curJoinTree b (p merged) (otherConds s') (cumCost merged) /\
      curJoinGroup s' = removeAt (Z.of_nat b) (curJoinGroup s) /\
      forall j join remain cost,
        candidateAt stats s curJoinTree j join remain cost ->
        ltb cost (cumCost merged) = false /\
        (isNaN cost = false -> leb (cumCost merged) cost = true) /\
        (eqb cost (cumCost merged) = true -> b <= j).
Proof.
  intros stats s t t' s' H.
  destruct (growStep_merged _ _ _ _ _ H)
    as (st & b & Hscan & Hjoin & Hcost & Hidx & Hlt & -> & Hcand).
  pose proof (scan_step_invariant _ _ _ _ Hscan) as [_ Hsome Hbest].
  destruct (Hsome _ Hjoin) as (b' & Hidx' & _ & _ & Hmax & Hties).
  assert (b' = b) by lia. subst b'. rewrite Hcost in *.
  exists b. simpl. split; [exact Hcand|]. split; [reflexivity|].
  intros j join remain cost Hj.
  assert (Hjlt : j < length (curJoinGroup s)).
  { destruct Hj as (node & Hn & _). apply nth_error_Some. congruence. }
  pose proof (Hbest j join remain cost Hjlt Hj) as Hnl.
  split; [exact Hnl|]. split.
  - intros Hnan. apply not_ltb_leb; auto.
    eapply ltb_true_not_NaN_l; eassumption.
  - intros Heq. destruct (Nat.le_gt_cases b j) as [Hle|Hgt]; [exact Hle|].
    rewrite (Hties j join remain cost Hgt Hj) in Heq. discriminate Heq.
Qed.

Lemma growStep_commits_cheapest_first_witness :
  growStep ExampleStats.unit Star.afterSeed Star.nodeA =
    (StepMerged StarRuns.mergedAB, StarRuns.afterAB) /\
  exists b,
    candidateAt ExampleStats.unit Star.afterSeed Star.nodeA b
      (p StarRuns.mergedAB) (otherConds StarRuns.afterAB) (cumCost StarRuns.mergedAB) /\
    curJoinGroup StarRuns.afterAB = removeAt (Z.of_nat b) (curJoinGroup Star.afterSeed) /\
    forall j join remain cost,
      candidateAt ExampleStats.unit Star.afterSeed Star.nodeA j join remain cost ->
      ltb cost (cumCost StarRuns.mergedAB) = false /\
      (isNaN cost = false -> leb (cumCost StarRuns.mergedAB) cost = true) /\
      (eqb cost (cumCost StarRuns.mergedAB) = true -> b <= j).
Proof.
  split; [vm_compute; reflexivity|].
  apply (growStep_commits_cheapest_first ExampleStats.unit Star.afterSeed Star.nodeA).
  vm_compute; reflexivity.
Defined.

(** Claim C1 as stated fails when a candidate's cost is a NaN.  With the
    estimate of [A join B] a NaN, the scan passes over [B] (the comparison
    [bestCost > NaN] is false) and commits [A join C] at cost 3, although
    [3 <= NaN] does not hold for the candidate [B] of the same step. *)
Lemma growStep_committed_cost_not_leb_NaN_candidate :
  growStep ExampleStats.nanOnB Star.afterSeed Star.nodeA =
    (StepMerged StarRuns.mergedAC, StarRuns.afterAC) /\
  candidateAt ExampleStats.nanOnB Star.afterSeed Star.nodeA 0
    (LogicalJoin Examples.A Examples.B [Examples.edgeAB] [Examples.overB])
    [Examples.overAC] NaN /\
  leb (cumCost StarRuns.mergedAC) NaN = false.
Proof.
  split; [vm_compute; reflexivity|]. split; [|vm_compute; reflexivity].
  exists Star.nodeB. repeat split; vm_compute; reflexivity.
Qed.

(* ------------------------------------------------------------------ *)
(** ** The growing loop *)

Lemma removeAt_split (A : Type) (b : nat) (l : list A) :
  b < length l ->
  exists pre x post,
    l = pre ++ x :: post /\ removeAt (Z.of_nat b) l = pre ++ post /\
    length pre = b /\ nth_error l b = Some x.
Proof.
  intros Hb. unfold removeAt.
  replace (Z.to_nat (Z.of_nat b + 1)) with (S b) by lia. rewrite Nat2Z.id.
  destruct (nth_error l b) as [x|] eqn:Hx;
    [|apply nth_error_None in Hx; lia].
  destruct (nth_error_split l b Hx) as (pre & post & -> & Hlen).
  subst b. exists pre, x, post. repeat split; auto.
  assert (H1 : firstn (length pre) (pre ++ x :: post) = pre).
  { rewrite firstn_app, Nat.sub_diag, firstn_all. simpl. apply app_nil_r. }
  assert (H2 : skipn (S (length pre)) (pre ++ x :: post) = post).
  { rewrite skipn_app, skipn_all2 by lia.
    replace (S (length pre) - length pre) with 1 by lia. reflexivity. }
  now rewrite H1, H2.
Qed.

(** An invariant of the growing steps holds when the loop returns, for the
    tree and the solver of its last step. *)
Lemma growLoop_invariant stats (I : joinReorderGreedySolver -> jrNode -> Prop) :
  (forall s t t' s', I s t -> growStep stats s t = (StepMerged t', s') -> I s' t') ->
  forall fuel s t res s',
    I s t ->
    growLoop stats fuel s t = Returns (res, s') ->
    exists last,
      I s' last /\
      ((res = (Some last, None) /\ growStep stats s' last = (StepExhausted, s')) \/
       (exists err, res = (None, Some err) /\ growStep stats s' last = (StepError err, s'))).
Proof.
  intros Hstep. induction fuel as [|fuel IH]; intros s t res s' HI Hrun; [discriminate|].
  simpl in Hrun. destruct (growStep stats s t) as [[err| |t1] s1] eqn:Hg.
  - injection Hrun as <- <-.
    assert (s1 = s) by (eapply growStep_not_merged; [eassumption | discriminate]).
    subst s1. exists t. split; [assumption|]. right. exists err. auto.
  - injection Hrun as <- <-.
    assert (s1 = s) by (eapply growStep_not_merged; [eassumption | discriminate]).
    subst s1. exists t. split; [assumption|]. left. auto.
  - apply (IH s1 t1); [|assumption]. eapply Hstep; eassumption.
Qed.

Lemma growLoop_returns stats fuel :
  forall s t, length (curJoinGroup s) < fuel ->
    exists res s', growLoop stats fuel s t = Returns (res, s').
Proof.
  induction fuel as [|fuel IH]; intros s t Hlen; [lia|].
  simpl. destruct (growStep stats s t) as [[err| |t1] s1] eqn:Hg.
  - eauto.
  - eauto.
  - apply IH.
    destruct (growStep_merged _ _ _ _ _ Hg) as (st & b & _ & _ & _ & _ & Hb & -> & _).
    simpl. pose proof (removeAt_length _ _ _ Hb). lia.
Qed.

(** More fuel than needed does not change the result. *)
Lemma growLoop_fuel stats fuel :
  forall s t r, growLoop stats fuel s t = Returns r ->
    forall fuel', fuel <= fuel' -> growLoop stats fuel' s t = Returns r.
Proof.
  induction fuel as [|fuel IH]; intros s t r Hrun fuel' Hle; [discriminate|].
  destruct fuel' as [|fuel']; [lia|]. simpl in *.
  destruct (growStep stats s t) as [[err| |t1] s1]; auto.
  apply IH; [assumption | lia].
Qed.

(** The remaining nodes only shrink along the loop. *)
Lemma growLoop_shrinks stats fuel s t res s' :
  growLoop stats fuel s t = Returns (res, s') ->
  length (curJoinGroup s') <= length (curJoinGroup s).
Proof.
  intros Hrun.
  assert (Hstep : forall s0 t0 t1 s1,
             length (curJoinGroup s0) <= length (curJoinGroup s) ->
             growStep stats s0 t0 = (StepMerged t1, s1) ->
             length (curJoinGroup s1) <= length (curJoinGroup s)).
  { intros s0 t0 t1 s1 HI Hg.
    destruct (growStep_merged _ _ _ _ _ Hg) as (st & b & _ & _ & _ & _ & Hb & -> & _).
    simpl. pose proof (removeAt_length _ _ _ Hb). lia. }
  destruct (growLoop_invariant stats
              (fun s1 _ => length (curJoinGroup s1) <= length (curJoinGroup s))
              Hstep fuel s t _ _ (le_n _) Hrun) as (last & Hl & _).
  exact Hl.
Qed.

Lemma constructConnectedJoinTree_returns stats s :
  curJoinGroup s <> [] ->
  exists res s',
    constructConnectedJoinTree stats (length (curJoinGroup s)) s = Returns (res, s') /\
    length (curJoinGroup s') < length (curJoinGroup s) /\
    ((exists node, res = (Some node, None)) \/ (exists err, res = (None, Some err))).
Proof.
  unfold constructConnectedJoinTree. destruct (curJoinGroup s) as [|seed rest]; [congruence|].
  intros _. simpl length.
  destruct (growLoop_returns stats (S (length rest))
              (mkSolver rest (otherConds s) (eqEdges s)) seed)
    as (res & s' & Hrun); [simpl; lia|].
  exists res, s'. split; [exact Hrun|]. split.
  - pose proof (growLoop_shrinks _ _ _ _ _ _ Hrun) as Hle. simpl in Hle. lia.
  - destruct (growLoop_invariant stats (fun _ _ => True) ltac:(auto) _ _ _ _ _ I Hrun)
      as (last & _ & [[-> _] | (err & -> & _)]); eauto.
Qed.

Lemma componentLoop_returns stats fuel :
  forall s cartesianGroup, length (curJoinGroup s) <= fuel ->
    exists res s', componentLoop stats fuel s cartesianGroup = Returns (res, s').
Proof.
  induction fuel as [|fuel IH]; intros s group Hlen.
  - destruct (curJoinGroup s) eqn:Hg; [|simpl in Hlen; lia].
    simpl. rewrite Hg. eauto.
  - simpl. destruct (curJoinGroup s) as [|n rest] eqn:Hg; [eauto|].
    rewrite <- Hg.
    destruct (@constructConnectedJoinTree_returns stats s)
      as (res & s' & -> & Hlt & [(node & ->) | (err & ->)]); [congruence| |eauto].
    apply IH. rewrite Hg in Hlt. simpl in Hlt, Hlen. lia.
Qed.

(* ------------------------------------------------------------------ *)
(** ** Seeding and sorting *)

Lemma seedGroup_ok stats plans :
  forall s,
    (forall node, In node plans -> deriveStatsError stats node = None) ->
    seedGroup stats plans s =
      (None, mkSolver (curJoinGroup s ++
                         map (fun node => mkJrNode node (baseNodeCumCost stats node)) plans)
                      (otherConds s) (eqEdges s)).
Proof.
  induction plans as [|node rest IH]; intros s Hok; simpl.
  - rewrite app_nil_r. now destruct s.
  - rewrite (Hok node (or_introl eq_refl)).
    rewrite IH by (intros n Hn; apply Hok; now right).
    simpl. now rewrite <- app_assoc.
Qed.

Lemma seedGroup_error stats pre :
  forall s node post err,
    (forall m, In m pre -> deriveStatsError stats m = None) ->
    deriveStatsError stats node = Some err ->
    seedGroup stats (pre ++ node :: post) s =
      (Some err, mkSolver (curJoinGroup s ++
                             map (fun m => mkJrNode m (baseNodeCumCost stats m)) pre)
                          (otherConds s) (eqEdges s)).
Proof.
  induction pre as [|m pre IH]; intros s node post err Hok Herr; simpl.
  - rewrite Herr, app_nil_r. now destruct s.
  - rewrite (Hok m (or_introl eq_refl)).
    rewrite (IH _ node post err) by (auto; intros n Hn; apply Hok; now right).
    simpl. now rewrite <- app_assoc.
Qed.

(** Either every member derives its stats, or there is a first one that
    does not. *)
Lemma seedGroup_cases stats plans :
  (forall node, In node plans -> deriveStatsError stats node = None) \/
  (exists pre node post err,
      plans = pre ++ node :: post /\
      (forall m, In m pre -> deriveStatsError stats m = None) /\
      deriveStatsError stats node = Some err).
Proof.
  induction plans as [|node rest IH].
  - left. intros node [].
  - destruct (deriveStatsError stats node) as [err|] eqn:Hn.
    + right. exists [], node, rest, err. repeat split; auto. intros m [].
    + destruct IH as [Hok | (pre & n & post & err & -> & Hpre & Herr)].
      * left. intros m [<- | Hm]; auto.
      * right. exists (node :: pre), n, post, err. repeat split; auto.
        intros m [<- | Hm]; auto.
Qed.

Lemma sinkLeft_Permutation x revPrefix :
  Permutation (sinkLeft x revPrefix) (x :: revPrefix).
Proof.
  induction revPrefix as [|y rest IH]; simpl; [reflexivity|].
  destruct (ltb (cumCost x) (cumCost y)); [|reflexivity].
  eapply Permutation_trans; [apply perm_skip, IH | apply perm_swap].
Qed.

Lemma SliceStable_Permutation group : Permutation (SliceStable group) group.
Proof.
  unfold SliceStable.
  assert (H : forall acc,
             Permutation (fold_left (fun revPrefix x => sinkLeft x revPrefix) group acc)
                         (group ++ acc)).
  { induction group as [|x rest IH]; intros acc; simpl; [reflexivity|].
    eapply Permutation_trans; [apply IH|].
    eapply Permutation_trans;
      [apply Permutation_app_head, sinkLeft_Permutation
      | apply Permutation_sym, Permutation_middle]. }
  eapply Permutation_trans; [apply Permutation_sym, Permutation_rev|].
  rewrite <- (app_nil_r group) at 2. apply H.
Qed.

Lemma SliceStable_length group : length (SliceStable group) = length group.
Proof. apply Permutation_length, SliceStable_Permutation. Qed.

Lemma solveWithFuel_returns stats plans s :
  exists res s',
    solveWithFuel stats (length (curJoinGroup s) + length plans) plans s = Returns (res, s').
Proof.
  unfold solveWithFuel, solveComponents.
  destruct (seedGroup_cases stats plans)
    as [Hok | (pre & node & post & err & -> & Hpre & Herr)].
  - rewrite seedGroup_ok by assumption. simpl.
    match goal with |- context [componentLoop stats ?f ?s0 ?g] =>
      destruct (@componentLoop_returns stats f s0 g) as (r & s1 & ->) end.
    + simpl. rewrite SliceStable_length, length_app, length_map. lia.
    + destruct r; eauto.
  - rewrite (seedGroup_error stats pre s node post err Hpre Herr). eauto.
Qed.

(** Claim C7.  A growing step that commits a merge takes exactly one node
    out of the remaining nodes and leaves the others in place; the growing
    loop returns as soon as its fuel exceeds the number of remaining nodes,
    the component loop as soon as its fuel reaches it, and [solve] returns
    for every group and every solver. *)
Theorem merges_shrink_and_loops_terminate :
  forall stats : StatsCollaborator,
    (forall s curJoinTree merged s',
        growStep stats s curJoinTree = (StepMerged merged, s') ->
        exists pre node post,
          curJoinGroup s = pre ++ node :: post /\
          curJoinGroup s' = pre ++ post /\
          S (length (curJoinGroup s')) = length (curJoinGroup s)) /\
    (forall fuel s curJoinTree,
        length (curJoinGroup s) < fuel ->
        exists res s', growLoop stats fuel s curJoinTree = Returns (res, s')) /\
    (forall fuel s cartesianGroup,
        length (curJoinGroup s) <= fuel ->
        exists res s', componentLoop stats fuel s cartesianGroup = Returns (res, s')) /\
    (forall joinNodePlans s,
        exists res s', solve stats joinNodePlans s = Returns (res, s')).
Proof.
  intros stats. split; [|split; [|split]].
  - intros s t t' s' Hg.
    destruct (growStep_merged _ _ _ _ _ Hg) as (st & b & _ & _ & _ & _ & Hb & -> & _).
    destruct (removeAt_split _ _ _ Hb) as (pre & x & post & Hl & Hr & _).
    exists pre, x, post. simpl. split; [exact Hl|]. split; [exact Hr|].
    rewrite Hr, Hl, !length_app. simpl. lia.
  - intros fuel s t Hlt. now apply growLoop_returns.
  - intros fuel s group Hle. now apply componentLoop_returns.
  - intros plans s. apply solveWithFuel_returns.
Qed.

(* ------------------------------------------------------------------ *)
(** ** Runs of the loops *)

Lemma growLoop_deterministic stats fuel1 fuel2 s t r1 r2 :
  growLoop stats fuel1 s t = Returns r1 ->
  growLoop stats fuel2 s t = Returns r2 ->
  r1 = r2.
Proof.
  intros H1 H2.
  pose proof (growLoop_fuel _ _ _ _ _ H1 _ (Nat.le_max_l fuel1 fuel2)) as H1'.
  pose proof (growLoop_fuel _ _ _ _ _ H2 _ (Nat.le_max_r fuel1 fuel2)) as H2'.
  congruence.
Qed.

Lemma grows_trans stats s t s1 t1 s2 t2 :
  grows stats s t s1 t1 -> grows stats s1 t1 s2 t2 -> grows stats s t s2 t2.
Proof.
  induction 1 as [|? ? ? ? ? ? Hg Hgr IH]; intros Hrest; [assumption|].
  eapply grows_merge; eauto.
Qed.

Lemma grows_shrinks stats s t s' t' :
  grows stats s t s' t' -> length (curJoinGroup s') <= length (curJoinGroup s).
Proof.
  induction 1 as [|s t s1 t1 s' t' Hg _ IH]; [lia|].
  destruct (growStep_merged _ _ _ _ _ Hg) as (st & b & _ & _ & _ & _ & Hb & -> & _).
  simpl in IH. pose proof (removeAt_length _ _ _ Hb). lia.
Qed.

(** What the growing loop returns is read off its last step. *)
Lemma growLoop_grows stats fuel :
  forall s t res s',
    growLoop stats fuel s t = Returns (res, s') ->
    exists last,
      grows stats s t s' last /\
      ((res = (Some last, None) /\ growStep stats s' last = (StepExhausted, s')) \/
       (exists err, res = (None, Some err) /\ growStep stats s' last = (StepError err, s'))).
Proof.
  induction fuel as [|fuel IH]; intros s t res s' Hrun; [discriminate|].
  simpl in Hrun. destruct (growStep stats s t) as [[err| |t1] s1] eqn:Hg.
  - injection Hrun as <- <-.
    assert (s1 = s) by (eapply growStep_not_merged; [eassumption | discriminate]).
    subst s1. exists t. split; [constructor|]. right. exists err. auto.
  - injection Hrun as <- <-.
    assert (s1 = s) by (eapply growStep_not_merged; [eassumption | discriminate]).
    subst s1. exists t. split; [constructor|]. left. auto.
  - destruct (IH _ _ _ _ Hrun) as (last & Hgr & Hres).
    exists last. split; [|exact Hres]. eapply grows_merge; eassumption.
Qed.

Lemma grows_exhausted_growLoop stats s t s' last :
  grows stats s t s' last ->
  growStep stats s' last = (StepExhausted, s') ->
  forall fuel, length (curJoinGroup s) < fuel ->
    growLoop stats fuel s t = Returns ((Some last, None), s').
Proof.
  induction 1 as [s t|s t s1 t1 s' t' Hg Hgr IH]; intros Hlast fuel Hfuel;
    (destruct fuel as [|fuel]; [lia|]); simpl.
  - now rewrite Hlast.
  - rewrite Hg. apply IH; [assumption|].
    destruct (growStep_merged _ _ _ _ _ Hg) as (st & b & _ & _ & _ & _ & Hb & -> & _).
    simpl. pose proof (removeAt_length _ _ _ Hb). lia.
Qed.

Lemma grows_error_growLoop stats s t s' last err :
  grows stats s t s' last ->
  growStep stats s' last = (StepError err, s') ->
  forall fuel, length (curJoinGroup s) < fuel ->
    growLoop stats fuel s t = Returns ((None, Some err), s').
Proof.
  induction 1 as [s t|s t s1 t1 s' t' Hg Hgr IH]; intros Hlast fuel Hfuel;
    (destruct fuel as [|fuel]; [lia|]); simpl.
  - now rewrite Hlast.
  - rewrite Hg. apply IH; [assumption|].
    destruct (growStep_merged _ _ _ _ _ Hg) as (st & b & _ & _ & _ & _ & Hb & -> & _).
    simpl. pose proof (removeAt_length _ _ _ Hb). lia.
Qed.

Lemma collects_trans stats s g s1 g1 s2 g2 :
  collects stats s g s1 g1 -> collects stats s1 g1 s2 g2 -> collects stats s g s2 g2.
Proof.
  induction 1 as [|? ? ? ? ? ? ? ? Hg Hgr Hlast Hc IH]; intros Hrest; [assumption|].
  eapply collects_component; eauto.
Qed.

(** What the component loop returns is read off its iterations. *)
Lemma componentLoop_collects stats fuel :
  forall s trees res s',
    componentLoop stats fuel s trees = Returns (res, s') ->
    (exists trees', res = inl trees' /\ collects stats s trees s' trees' /\
                    curJoinGroup s' = []) \/
    (exists err sk treesk seed rest last,
        res = inr err /\ collects stats s trees sk treesk /\
        curJoinGroup sk = seed :: rest /\
        grows stats (mkSolver rest (otherConds sk) (eqEdges sk)) seed s' last /\
        growStep stats s' last = (StepError err, s')).
Proof.
  induction fuel as [|fuel IH]; intros s trees res s' Hrun; simpl in Hrun.
  - destruct (curJoinGroup s) eqn:Hg; [|discriminate].
    injection Hrun as <- <-. left. exists trees. repeat split; auto. constructor.
  - destruct (curJoinGroup s) as [|seed rest] eqn:Hg.
    + injection Hrun as <- <-. left. exists trees. repeat split; auto. constructor.
    + unfold constructConnectedJoinTree in Hrun. rewrite Hg in Hrun.
      destruct (growLoop stats (length (seed :: rest))
                  (mkSolver rest (otherConds s) (eqEdges s)) seed)
        as [[r s1]| |] eqn:Hloop; try discriminate.
      destruct (growLoop_grows _ _ _ _ _ _ Hloop)
        as (last & Hgr & [[-> Hlast] | (err & -> & Hlast)]).
      * destruct (IH _ _ _ _ Hrun)
          as [(trees' & -> & Hc & Hnil)
             | (err & sk & gk & seed' & rest' & last' & -> & Hc & Hsk & Hgr' & Herr)].
        -- left. exists trees'. repeat split; auto.
           eapply collects_component; eassumption.
        -- right. exists err, sk, gk, seed', rest', last'. repeat split; auto.
           eapply collects_component; eassumption.
      * injection Hrun as <- <-. right.
        exists err, s, trees, seed, rest, last. repeat split; auto. constructor.
Qed.

Lemma componentLoop_fuel stats fuel :
  forall s trees r, componentLoop stats fuel s trees = Returns r ->
    forall fuel', fuel <= fuel' -> componentLoop stats fuel' s trees = Returns r.
Proof.
  induction fuel as [|fuel IH]; intros s trees r Hrun fuel' Hle.
  - simpl in Hrun. destruct (curJoinGroup s) eqn:Hg; [|discriminate].
    destruct fuel'; simpl; now rewrite Hg.
  - destruct fuel' as [|fuel']; [lia|]. simpl in *.
    destruct (curJoinGroup s) as [|seed rest]; [assumption|].
    destruct (constructConnectedJoinTree stats (length (seed :: rest)) s)
      as [[[[node|] [err|]] s1]| |]; try assumption.
    apply IH; [assumption | lia].
Qed.

Lemma componentLoop_deterministic stats fuel1 fuel2 s trees r1 r2 :
  componentLoop stats fuel1 s trees = Returns r1 ->
  componentLoop stats fuel2 s trees = Returns r2 ->
  r1 = r2.
Proof.
  intros H1 H2.
  pose proof (componentLoop_fuel _ _ _ _ _ H1 _ (Nat.le_max_l fuel1 fuel2)) as H1'.
  pose proof (componentLoop_fuel _ _ _ _ _ H2 _ (Nat.le_max_r fuel1 fuel2)) as H2'.
  congruence.
Qed.

(** A run of completed iterations can be replayed by the loop. *)
Lemma collects_componentLoop stats s0 trees0 sk treesk :
  collects stats s0 trees0 sk treesk ->
  forall fuelk r,
    componentLoop stats fuelk sk treesk = Returns r ->
    forall fuel, length (curJoinGroup s0) <= fuel ->
      componentLoop stats fuel s0 trees0 = Returns r.
Proof.
  intros Hc fuelk r Hrun.
  assert (Hex : exists fuel0, componentLoop stats fuel0 s0 trees0 = Returns r).
  { induction Hc as [s trees|s trees seed rest s1 t1 sk treesk Hg Hgr Hlast Hc IH].
    - now exists fuelk.
    - destruct (IH Hrun) as (fuel1 & H1). exists (S fuel1).
      simpl. rewrite Hg. unfold constructConnectedJoinTree. rewrite Hg.
      rewrite (grows_exhausted_growLoop _ _ _ _ _ Hgr Hlast) by (simpl; lia).
      exact H1. }
  destruct Hex as (fuel0 & H0). intros fuel Hfuel.
  destruct (componentLoop_returns stats fuel s0 trees0 Hfuel) as (res & s' & Hret).
  rewrite Hret. f_equal.
  eapply componentLoop_deterministic; eassumption.
Qed.


(* ------------------------------------------------------------------ *)
(** ** Failures of the stats derivation *)

Lemma scanCandidates_error stats s t nodes :
  forall i st err,
    scanCandidates stats s t i nodes st = inr err ->
    exists node join remain,
      In node nodes /\
      checkConnectionAndMakeJoin s (p t) (p node) = (Some join, remain) /\
      deriveStatsError stats join = Some err.
Proof.
  induction nodes as [|node rest IH]; intros i st err Hscan; simpl in Hscan;
    [discriminate|].
  destruct (checkConnectionAndMakeJoin s (p t) (p node)) as [[join|] remain] eqn:Hc.
  - destruct (deriveStatsError stats join) as [e|] eqn:Hd.
    + injection Hscan as <-. exists node, join, remain. simpl. auto.
    + destruct (gtb (bestCost st) (calcJoinCumCost stats join t node));
        destruct (IH _ _ _ Hscan) as (n & j & r & Hin & H1 & H2);
        exists n, j, r; simpl; auto.
  - destruct (IH _ _ _ Hscan) as (n & j & r & Hin & H1 & H2).
    exists n, j, r; simpl; auto.
Qed.

(** A growing step fails only with the error of a candidate join it has
    just built, and leaves the solver as it found it. *)
Lemma growStep_error stats s t err s' :
  growStep stats s t = (StepError err, s') ->
  s' = s /\
  exists node join remain,
    In node (curJoinGroup s) /\
    checkConnectionAndMakeJoin s (p t) (p node) = (Some join, remain) /\
    deriveStatsError stats join = Some err.
Proof.
  intros Hg. split.
  - eapply growStep_not_merged; [eassumption | discriminate].
  - unfold growStep in Hg.
    destruct (scanCandidates stats s t 0 (curJoinGroup s) scanInit) as [st|e] eqn:Hscan.
    + destruct (bestJoin st); discriminate.
    + injection Hg as <- _. eapply scanCandidates_error; eassumption.
Qed.

Lemma seeded_ok stats plans s :
  (forall node, In node plans -> deriveStatsError stats node = None) ->
  seeded stats plans s =
    mkSolver (SliceStable (curJoinGroup s ++
                map (fun node => mkJrNode node (baseNodeCumCost stats node)) plans))
             (otherConds s) (eqEdges s).
Proof. intros Hok. unfold seeded. now rewrite seedGroup_ok. Qed.

Lemma solveComponents_ok stats plans s fuel :
  (forall node, In node plans -> deriveStatsError stats node = None) ->
  solveComponents stats fuel plans s = componentLoop stats fuel (seeded stats plans s) [].
Proof.
  intros Hok. unfold solveComponents, seeded. now rewrite seedGroup_ok.
Qed.

Lemma seeded_length stats plans s :
  (forall node, In node plans -> deriveStatsError stats node = None) ->
  length (curJoinGroup (seeded stats plans s)) = length (curJoinGroup s) + length plans.
Proof.
  intros Hok. rewrite seeded_ok by assumption. simpl.
  now rewrite SliceStable_length, length_app, length_map.
Qed.

(** A failure while seeding the group. *)
Lemma solve_seeding_failure stats plans s pre node post err :
  plans = pre ++ node :: post ->
  (forall m, In m pre -> deriveStatsError stats m = None) ->
  deriveStatsError stats node = Some err ->
  solve stats plans s =
    Returns ((None, Some err),
             mkSolver (curJoinGroup s ++
                         map (fun m => mkJrNode m (baseNodeCumCost stats m)) pre)
                      (otherConds s) (eqEdges s)).
Proof.
  intros -> Hpre Herr. unfold solve, solveWithFuel, solveComponents.
  now rewrite (seedGroup_error stats pre s node post err Hpre Herr).
Qed.

(** A failure in a growing step, however far into the run. *)
Lemma solve_growth_failure stats plans s sk treesk seed rest sf last err sx :
  (forall node, In node plans -> deriveStatsError stats node = None) ->
  collects stats (seeded stats plans s) [] sk treesk ->
  curJoinGroup sk = seed :: rest ->
  grows stats (mkSolver rest (otherConds sk) (eqEdges sk)) seed sf last ->
  growStep stats sf last = (StepError err, sx) ->
  sx = sf /\ solve stats plans s = Returns ((None, Some err), sf).
Proof.
  intros Hok Hc Hsk Hgr Hfail.
  destruct (growStep_error _ _ _ _ _ Hfail) as [-> _]. split; [reflexivity|].
  unfold solve, solveWithFuel. rewrite solveComponents_ok by assumption.
  rewrite (collects_componentLoop _ _ _ _ _ Hc 1 (inr err, sf)).
  - reflexivity.
  - simpl. rewrite Hsk. unfold constructConnectedJoinTree. rewrite Hsk.
    now rewrite (grows_error_growLoop _ _ _ _ _ _ Hgr Hfail) by (simpl; lia).
  - rewrite seeded_length by assumption. lia.
Qed.

(** Every error [solve] returns comes from one of the two sites. *)
Lemma solve_error_inv stats plans s plan err s' :
  solve stats plans s = Returns ((plan, Some err), s') ->
  plan = None /\
  ((exists pre node post,
       plans = pre ++ node :: post /\
       (forall m, In m pre -> deriveStatsError stats m = None) /\
       deriveStatsError stats node = Some err) \/
   ((forall node, In node plans -> deriveStatsError stats node = None) /\
    exists sk treesk seed rest last,
      collects stats (seeded stats plans s) [] sk treesk /\
      curJoinGroup sk = seed :: rest /\
      grows stats (mkSolver rest (otherConds sk) (eqEdges sk)) seed s' last /\
      growStep stats s' last = (StepError err, s'))).
Proof.
  intros Hrun.
  destruct (seedGroup_cases stats plans)
    as [Hok | (pre & node & post & e & -> & Hpre & Herr)].
  - unfold solve, solveWithFuel in Hrun. rewrite solveComponents_ok in Hrun by assumption.
    destruct (componentLoop stats _ (seeded stats plans s) []) as [[r s1]| |] eqn:Hloop;
      try discriminate.
    destruct (componentLoop_collects _ _ _ _ _ _ Hloop)
      as [(trees' & -> & _) | (e & sk & gk & seed & rest & last & -> & Hc & Hsk & Hgr & Hfail)].
    + discriminate.
    + injection Hrun as <- <- <-. split; [reflexivity|]. right. split; [assumption|].
      exists sk, gk, seed, rest, last. auto.
  - rewrite (solve_seeding_failure stats _ s pre node post e eq_refl Hpre Herr) in Hrun.
    injection Hrun as <- <- <-. split; [reflexivity|]. left.
    exists pre, node, post. auto.
Qed.

Lemma scanCandidates_first_error stats s t node post join remain err pre :
  forall i st,
    (forall n j r, In n pre ->
       checkConnectionAndMakeJoin s (p t) (p n) = (Some j, r) ->
       deriveStatsError stats j = None) ->
    checkConnectionAndMakeJoin s (p t) (p node) = (Some join, remain) ->
    deriveStatsError stats join = Some err ->
    scanCandidates stats s t i (pre ++ node :: post) st = inr err.
Proof.
  induction pre as [|n pre IH]; intros i st Hpre Hc Herr; simpl.
  - now rewrite Hc, Herr.
  - destruct (checkConnectionAndMakeJoin s (p t) (p n)) as [[j|] r] eqn:Hn.
    + rewrite (Hpre n j r (or_introl eq_refl) Hn).
      destruct (gtb (bestCost st) (calcJoinCumCost stats j t n));
        apply IH; auto; intros n' j' r' Hin; apply Hpre; now right.
    + apply IH; auto. intros n' j' r' Hin. apply Hpre. now right.
Qed.

(** A growing step stops at the first node whose candidate join fails to
    derive its stats. *)
Lemma growStep_first_error stats s t pre node post join remain err :
  curJoinGroup s = pre ++ node :: post ->
  (forall n j r, In n pre ->
     checkConnectionAndMakeJoin s (p t) (p n) = (Some j, r) ->
     deriveStatsError stats j = None) ->
  checkConnectionAndMakeJoin s (p t) (p node) = (Some join, remain) ->
  deriveStatsError stats join = Some err ->
  growStep stats s t = (StepError err, s).
Proof.
  intros Hg Hpre Hc Herr. unfold growStep. rewrite Hg.
  now rewrite (scanCandidates_first_error stats s t node post join remain err pre
                 0 scanInit Hpre Hc Herr).
Qed.

(** Claim C5.  Whenever [solve] returns an error, the plan it returns with
    it is nil, and the error is the one a stats derivation returned, either
    for a member while seeding or for a join candidate built in a growing
    step.  Conversely a failing derivation makes [solve] return exactly its
    error with a nil plan, at both sites alike: the first member whose
    derivation fails (line 46), and, in any growing step the run reaches,
    the first node of the group whose candidate join fails to derive its
    stats (line 89). *)
Theorem solve_derivation_failure_returns_error_and_nil_plan :
  forall (stats : StatsCollaborator) (joinNodePlans : list LogicalPlan)
         (s : joinReorderGreedySolver),
    (forall plan err s',
        solve stats joinNodePlans s = Returns ((plan, Some err), s') ->
        plan = None /\
        ((exists node, In node joinNodePlans /\ deriveStatsError stats node = Some err) \/
         (exists curJoinTree node join remain,
             In node (curJoinGroup s') /\
             checkConnectionAndMakeJoin s' (p curJoinTree) (p node) = (Some join, remain) /\
             deriveStatsError stats join = Some err)))
    /\
    (forall pre node post err,
        joinNodePlans = pre ++ node :: post ->
        (forall m, In m pre -> deriveStatsError stats m = None) ->
        deriveStatsError stats node = Some err ->
        exists s', solve stats joinNodePlans s = Returns ((None, Some err), s'))
    /\
    (forall sk treesk seed rest sf last pre node post join remain err,
        (forall m, In m joinNodePlans -> deriveStatsError stats m = None) ->
        collects stats (seeded stats joinNodePlans s) [] sk treesk ->
        curJoinGroup sk = seed :: rest ->
        grows stats (mkSolver rest (otherConds sk) (eqEdges sk)) seed sf last ->
        curJoinGroup sf = pre ++ node :: post ->
        (forall n j r, In n pre ->
           checkConnectionAndMakeJoin sf (p last) (p n) = (Some j, r) ->
           deriveStatsError stats j = None) ->
        checkConnectionAndMakeJoin sf (p last) (p node) = (Some join, remain) ->
        deriveStatsError stats join = Some err ->
        solve stats joinNodePlans s = Returns ((None, Some err), sf)).
Proof.
  intros stats plans s. split; [|split].
  - intros plan err s' Hrun.
    destruct (solve_error_inv _ _ _ _ _ _ Hrun)
      as [-> [(pre & node & post & -> & _ & Herr)
             | (_ & sk & gk & seed & rest & last & _ & _ & _ & Hfail)]].
    + split; [reflexivity|]. left. exists node. split; [|assumption].
      apply in_or_app. right. now left.
    + split; [reflexivity|]. right.
      destruct (growStep_error _ _ _ _ _ Hfail) as (_ & node & join & remain & H).
      exists last, node, join, remain. exact H.
  - intros pre node post err Heq Hpre Herr. eexists.
    eapply solve_seeding_failure; eassumption.
  - intros sk treesk seed rest sf last pre node post join remain err
           Hok Hc Hsk Hgr Hg Hpre Hcand Herr.
    pose proof (growStep_first_error stats sf last pre node post join remain err
                  Hg Hpre Hcand Herr) as Hfail.
    exact (proj2 (solve_growth_failure _ _ _ _ _ _ _ _ _ _ _ Hok Hc Hsk Hgr Hfail)).
Qed.

Lemma solve_derivation_failure_returns_error_and_nil_plan_witness :
  solve ExampleStats.failOnC Star.members Star.solver0 =
    Returns ((None, Some 42), Star.afterSeed).
Proof.
  apply (proj2 (proj2 (solve_derivation_failure_returns_error_and_nil_plan
                         ExampleStats.failOnC Star.members Star.solver0))
           (seeded ExampleStats.failOnC Star.members Star.solver0) []
           Star.nodeA [Star.nodeB; Star.nodeC] Star.afterSeed Star.nodeA
           [Star.nodeB] Star.nodeC []
           (LogicalJoin Examples.A Examples.C [Star.edgeAC] [Examples.overAC])
           [Examples.overB] 42).
  - intros m [<- | [<- | [<- | []]]]; reflexivity.
  - apply collects_here.
  - vm_compute; reflexivity.
  - vm_compute. apply grows_here.
  - reflexivity.
  - intros n j r [<- | []] Hc. vm_compute in Hc. injection Hc as <- _. reflexivity.
  - vm_compute; reflexivity.
  - reflexivity.
Defined.

(** Claim C6 (amended).  When a stats derivation fails on a candidate in
    the middle of a growing step, [solve] returns that error with a nil
    plan, and the solver is left exactly as it was when the failing step
    began: the failing step itself changes nothing.  What was done before
    is not undone: the equality edges are the original ones, but the group
    still holds the remaining nodes (at least the one whose candidate
    failed), and the pending list is the one of the last committed merge. *)
Theorem growth_failure_leaves_solver_as_failing_step_found_it :
  forall (stats : StatsCollaborator) (joinNodePlans : list LogicalPlan)
         (s sk : joinReorderGreedySolver) (treesk : list LogicalPlan)
         (seed : jrNode) (rest : list jrNode)
         (sf : joinReorderGreedySolver) (last : jrNode) (err : error)
         (sx : joinReorderGreedySolver),
    (forall node, In node joinNodePlans -> deriveStatsError stats node = None) ->
    collects stats (seeded stats joinNodePlans s) [] sk treesk ->
    curJoinGroup sk = seed :: rest ->
    grows stats (mkSolver rest (otherConds sk) (eqEdges sk)) seed sf last ->
    growStep stats sf last = (StepError err, sx) ->
    sx = sf /\
    solve stats joinNodePlans s = Returns ((None, Some err), sf) /\
    curJoinGroup sf <> [].
Proof.
  intros stats plans s sk treesk seed rest sf last err sx Hok Hc Hsk Hgr Hfail.
  destruct (solve_growth_failure _ _ _ _ _ _ _ _ _ _ _ Hok Hc Hsk Hgr Hfail) as [-> Hrun].
  split; [reflexivity|]. split; [exact Hrun|].
  destruct (growStep_error _ _ _ _ _ Hfail) as (_ & node & _ & _ & Hin & _).
  intros Hnil. rewrite Hnil in Hin. destruct Hin.
Qed.

Lemma growth_failure_leaves_solver_as_failing_step_found_it_witness :
  solve ExampleStats.failOnC ChainRun.members Examples.chain =
    Returns ((None, Some 42), ChainRun.afterAB) /\
  curJoinGroup ChainRun.afterAB <> [].
Proof.
  apply (growth_failure_leaves_solver_as_failing_step_found_it
           ExampleStats.failOnC ChainRun.members Examples.chain
           ChainRun.start [] ChainRun.nodeA [ChainRun.nodeB; ChainRun.nodeC]
           ChainRun.afterAB ChainRun.mergedAB 42 ChainRun.afterAB).
  - intros node [<- | [<- | [<- | []]]]; reflexivity.
  - vm_compute. apply collects_here.
  - reflexivity.
  - apply (@grows_merge ExampleStats.failOnC _ _ ChainRun.afterAB ChainRun.mergedAB).
    + vm_compute. reflexivity.
    + apply grows_here.
  - vm_compute. reflexivity.
Defined.

(** Claim C6 as stated fails.  On the chain [A - B - C], with the
    derivation failing for the join with [C], [solve] returns error 42 in
    the second growing step; the solver it was called on had an empty group
    and three pending predicates, the solver it leaves behind holds the node
    [C] and two pending predicates. *)
Lemma failed_solve_leaves_group_and_pending_list_changed :
  solve ExampleStats.failOnC ChainRun.members Examples.chain =
    Returns ((None, Some 42), ChainRun.afterAB) /\
  curJoinGroup Examples.chain = [] /\
  curJoinGroup ChainRun.afterAB = [ChainRun.nodeC] /\
  otherConds Examples.chain = [Examples.overAC; Examples.overB; Examples.overAD] /\
  otherConds ChainRun.afterAB = [Examples.overAC; Examples.overAD] /\
  ChainRun.afterAB <> Examples.chain.
Proof.
  split; [vm_compute; reflexivity|].
  repeat split; try reflexivity. discriminate.
Qed.

(* ------------------------------------------------------------------ *)
(** ** Slices: what [checkConnectionAndMakeJoin] writes *)

Module SliceHeapFacts.

Lemma cellsOf_app_old (h : SliceHeap.heap) (cs : list (option Expression)) (a : nat) :
  a < length h -> SliceHeap.cellsOf (h ++ [cs]) a = SliceHeap.cellsOf h a.
Proof. intros Ha. unfold SliceHeap.cellsOf. now rewrite app_nth1. Qed.

Lemma cellsOf_app_new (h : SliceHeap.heap) (cs : list (option Expression)) :
  SliceHeap.cellsOf (h ++ [cs]) (length h) = cs.
Proof.
  unfold SliceHeap.cellsOf. rewrite app_nth2, Nat.sub_diag by lia. reflexivity.
Qed.

Lemma setArray_new (h : SliceHeap.heap) (cs cs' : list (option Expression)) :
  SliceHeap.setArray (h ++ [cs]) (length h) cs' = h ++ [cs'].
Proof.
  unfold SliceHeap.setArray.
  assert (Hlt : (length h <? length (h ++ [cs])) = true).
  { apply Nat.ltb_lt. rewrite length_app. simpl. lia. }
  assert (H1 : firstn (length h) (h ++ [cs]) = h).
  { rewrite firstn_app, Nat.sub_diag, firstn_all. simpl. apply app_nil_r. }
  assert (H2 : skipn (S (length h)) (h ++ [cs]) = []).
  { apply skipn_all2. rewrite length_app. simpl. lia. }
  now rewrite Hlt, H1, H2.
Qed.

Lemma writeCells_new (h : SliceHeap.heap) (cs : list (option Expression)) pos vals :
  SliceHeap.writeCells (h ++ [cs]) (length h) pos vals =
  h ++ [SliceHeap.overwrite cs pos vals].
Proof. unfold SliceHeap.writeCells. now rewrite cellsOf_app_new, setArray_new. Qed.

Lemma view_new (h : SliceHeap.heap) (cs : list (option Expression)) k n :
  SliceHeap.view (h ++ [cs]) (SliceHeap.mkSlice (length h) 0 k n) = firstn k cs.
Proof. unfold SliceHeap.view. simpl. now rewrite cellsOf_app_new. Qed.

Lemma view_old (h : SliceHeap.heap) (cs : list (option Expression)) sl :
  SliceHeap.array sl < length h ->
  SliceHeap.view (h ++ [cs]) sl = SliceHeap.view h sl.
Proof. intros Ha. unfold SliceHeap.view. now rewrite cellsOf_app_old. Qed.

Lemma view_length (h : SliceHeap.heap) sl :
  SliceHeap.allocated h sl -> length (SliceHeap.view h sl) = SliceHeap.len sl.
Proof.
  intros [_ Hb]. unfold SliceHeap.view. rewrite length_firstn, length_skipn. lia.
Qed.

Section InPlaceFilter.

Variable f : Expression -> bool.
Variable h : SliceHeap.heap.
Variable n : nat.

(** The backward loop, with [pre] still to visit and the survivors of
    [post] already moved next to it. *)
Lemma filterLoop_spec (pre : list Expression) :
  forall post cs filteredOut,
    firstn (length pre + length (filter (fun e => negb (f e)) post)) cs =
      map Some (pre ++ filter (fun e => negb (f e)) post) ->
    exists cs',
      SliceHeap.filterLoop (length pre) (h ++ [cs])
        (SliceHeap.mkSlice (length h) 0
           (length pre + length (filter (fun e => negb (f e)) post)) n)
        f filteredOut =
      Returns (h ++ [cs'],
               SliceHeap.mkSlice (length h) 0
                 (length (filter (fun e => negb (f e)) (pre ++ post))) n,
               filteredOut ++ rev (filter f pre)) /\
      firstn (length (filter (fun e => negb (f e)) (pre ++ post))) cs' =
        map Some (filter (fun e => negb (f e)) (pre ++ post)).
Proof.
  set (keep := fun e : Expression => negb (f e)).
  induction pre as [|x pre IH] using rev_ind; intros post cs fo Hview.
  - simpl in *. exists cs. now rewrite app_nil_r.
  - rewrite length_app, Nat.add_comm. simpl length. simpl Nat.add.
    cbn [SliceHeap.filterLoop]. rewrite view_new.
    rewrite length_app in Hview. simpl in Hview.
    replace (length pre + 1 + length (filter keep post))
      with (S (length pre + length (filter keep post))) in Hview by lia.
    rewrite Hview.
    assert (Hnth : nth_error (map Some ((pre ++ [x]) ++ filter keep post)) (length pre)
                   = Some (Some x)).
    { rewrite <- app_assoc, map_app, nth_error_app2 by (rewrite length_map; lia).
      now rewrite length_map, Nat.sub_diag. }
    rewrite Hnth. cbn [SliceHeap.array SliceHeap.offset SliceHeap.len SliceHeap.cap].
    assert (Hskip : skipn (S (length pre)) (map Some ((pre ++ [x]) ++ filter keep post))
                    = map Some (filter keep post)).
    { rewrite map_app. rewrite skipn_app.
      rewrite skipn_all2 by (rewrite length_map, length_app; simpl; lia).
      rewrite length_map, length_app. cbn [length].
      replace (S (length pre) - (length pre + 1)) with 0 by lia. reflexivity. }
    destruct (f x) eqn:Hfx.
    + rewrite Hskip, writeCells_new. simpl Nat.add. simpl Nat.sub. rewrite Nat.sub_0_r.
      destruct (IH post
                  (SliceHeap.overwrite cs (length pre) (map Some (filter keep post)))
                  (fo ++ [x])) as (cs' & Hrun & Hcs').
      { unfold SliceHeap.overwrite.
        assert (Hpre : firstn (length pre) cs = map Some pre).
        { apply (f_equal (firstn (length pre))) in Hview.
          rewrite firstn_firstn in Hview.
          replace (Nat.min (length pre) (S (length pre + length (filter keep post))))
            with (length pre) in Hview by lia.
          rewrite Hview, <- app_assoc, map_app, firstn_app, length_map, Nat.sub_diag.
          rewrite firstn_all2 by (rewrite length_map; lia). simpl. apply app_nil_r. }
        rewrite Hpre, app_assoc, firstn_app, firstn_all2
          by (rewrite length_app, !length_map; lia).
        rewrite length_app, !length_map.
        replace (length pre + length (filter keep post)
                 - (length pre + length (filter keep post))) with 0 by lia.
        simpl. now rewrite app_nil_r, map_app. }
      exists cs'. rewrite Hrun.
      assert (Hkx : keep x = false) by (unfold keep; now rewrite Hfx).
      assert (Hk : filter keep ((pre ++ [x]) ++ post) = filter keep (pre ++ post)).
      { rewrite <- app_assoc. rewrite !filter_app. simpl. now rewrite Hkx. }
      rewrite Hk. split; [|exact Hcs'].
      rewrite (filter_app f pre [x]). simpl. rewrite Hfx, rev_app_distr. simpl.
      now rewrite <- app_assoc.
    + assert (Hkx : keep x = true) by (unfold keep; now rewrite Hfx).
      assert (Hk : filter keep (x :: post) = x :: filter keep post).
      { simpl. now rewrite Hkx. }
      destruct (IH (x :: post) cs fo) as (cs' & Hrun & Hcs').
      { rewrite Hk. simpl length.
        replace (length pre + S (length (filter keep post)))
          with (S (length pre + length (filter keep post))) by lia.
        rewrite Hview. now rewrite <- app_assoc. }
      rewrite Hk in Hrun. simpl length in Hrun.
      replace (length pre + S (length (filter keep post)))
        with (S (length pre + length (filter keep post))) in Hrun by lia.
      exists cs'. rewrite Hrun. rewrite <- !app_assoc. simpl.
      split; [|exact Hcs'].
      rewrite (filter_app f pre [x]). simpl. rewrite Hfx. simpl. now rewrite app_nil_r.
Qed.

End InPlaceFilter.

End SliceHeapFacts.

Lemma make_copy_clones (h : SliceHeap.heap) (src : SliceHeap.slice)
    (conds : list Expression) :
  SliceHeap.allocated h src ->
  SliceHeap.view h src = map Some conds ->
  SliceHeap.len src = length conds /\
  SliceHeap.copy (fst (SliceHeap.make h (SliceHeap.len src)))
                 (snd (SliceHeap.make h (SliceHeap.len src))) src
  = h ++ [map Some conds].
Proof.
  intros Halloc Hview.
  assert (Hlen : SliceHeap.len src = length conds).
  { rewrite <- (SliceHeapFacts.view_length h src Halloc), Hview. apply length_map. }
  split; [exact Hlen|].
  unfold SliceHeap.make, SliceHeap.copy. simpl.
  rewrite SliceHeapFacts.view_old by apply Halloc.
  rewrite Hview, Nat.min_id, Hlen.
  rewrite firstn_all2 by (rewrite length_map; lia).
  rewrite SliceHeapFacts.writeCells_new. unfold SliceHeap.overwrite. simpl.
  rewrite length_map, skipn_all2 by (rewrite repeat_length; lia).
  now rewrite app_nil_r.
Qed.

(** Claim C9.  Over slices and backing arrays, a call of
    [checkConnectionAndMakeJoin] returns (it does not panic) with the solver
    struct as it was, writes to no backing array that existed before the
    call, so the pending slice of the solver still shows the same
    predicates; the candidate it returns is the one of the value-level
    function, and the pending list it returns shows the value-level pending
    list from an array allocated by the call.  In a growing step, the
    solver changes only when a merge is committed. *)
Theorem checkConnectionAndMakeJoin_pure_on_solver_state :
  forall (h : SliceHeap.heap) (s : SliceHeap.solver) (conds : list Expression)
         (leftNode rightNode : LogicalPlan),
    SliceHeap.allocated h (SliceHeap.otherConds s) ->
    SliceHeap.view h (SliceHeap.otherConds s) = map Some conds ->
    (exists h' remained,
        SliceHeap.checkConnectionAndMakeJoin (h, s) leftNode rightNode =
          Returns ((h', s),
                   (fst (checkConnectionAndMakeJoin (solverOf s conds) leftNode rightNode),
                    remained)) /\
        (forall a, a < length h -> SliceHeap.cellsOf h' a = SliceHeap.cellsOf h a) /\
        SliceHeap.view h' (SliceHeap.otherConds s) = map Some conds /\
        (fst (checkConnectionAndMakeJoin (solverOf s conds) leftNode rightNode) <> None ->
         length h <= SliceHeap.array remained /\
         SliceHeap.view h' remained =
           map Some (snd (checkConnectionAndMakeJoin (solverOf s conds)
                            leftNode rightNode)))) /\
    (forall stats s0 curJoinTree res s1,
        growStep stats s0 curJoinTree = (res, s1) ->
        s1 <> s0 -> exists merged, res = StepMerged merged).
Proof.
  intros h s conds l r Halloc Hview. split.
  - destruct (make_copy_clones h _ conds Halloc Hview) as [Hlen Hcopy].
    set (f := fun expr => ExprFromSchema expr (MergeSchema (PlanSchema l) (PlanSchema r))).
    assert (Hval : checkConnectionAndMakeJoin (solverOf s conds) l r =
                   match usedEdgesOf (SliceHeap.eqEdges s) l r with
                   | [] => (None, [])
                   | _ :: _ =>
                       (Some (newJoinWithEdges l r (usedEdgesOf (SliceHeap.eqEdges s) l r)
                                (rev (filter f conds))),
                        filter (fun e => negb (f e)) conds)
                   end).
    { unfold checkConnectionAndMakeJoin, solverOf. cbn [eqEdges otherConds].
      now rewrite FilterOutInPlace_eq. }
    rewrite Hval. clear Hval.
    unfold SliceHeap.checkConnectionAndMakeJoin.
    destruct (SliceHeap.make h (SliceHeap.len (SliceHeap.otherConds s)))
      as [h1 remain] eqn:Hmake.
    simpl fst in Hcopy. simpl snd in Hcopy. rewrite Hcopy.
    assert (Hremain : remain = SliceHeap.mkSlice (length h) 0 (length conds) (length conds)).
    { unfold SliceHeap.make in Hmake. injection Hmake as _ <-. now rewrite Hlen. }
    destruct (usedEdgesOf (SliceHeap.eqEdges s) l r) as [|u us] eqn:Hused.
    + exists (h ++ [map Some conds]), SliceHeap.nilSlice. simpl.
      split; [reflexivity|]. split; [|split].
      * intros a Ha. now apply SliceHeapFacts.cellsOf_app_old.
      * rewrite SliceHeapFacts.view_old by apply Halloc. exact Hview.
      * congruence.
    + unfold SliceHeap.FilterOutInPlace. subst remain. cbn [SliceHeap.len].
      fold f.
      destruct (SliceHeapFacts.filterLoop_spec f h (length conds) conds [] (map Some conds) [])
        as (cs' & Hrun & Hcs').
      { simpl. rewrite Nat.add_0_r, app_nil_r. apply firstn_all2.
        rewrite length_map. lia. }
      simpl in Hrun. rewrite Nat.add_0_r, app_nil_r in Hrun. rewrite app_nil_r in Hcs'.
      rewrite Hrun.
      exists (h ++ [cs']),
             (SliceHeap.mkSlice (length h) 0
                (length (filter (fun e => negb (f e)) conds)) (length conds)).
      simpl. split; [reflexivity|]. split; [|split].
      * intros a Ha. now apply SliceHeapFacts.cellsOf_app_old.
      * rewrite SliceHeapFacts.view_old by apply Halloc. exact Hview.
      * intros _. split; [lia|]. rewrite SliceHeapFacts.view_new. exact Hcs'.
  - intros stats s0 t res s1 Hg Hne. destruct res as [err| |merged].
    + elim Hne. eapply growStep_not_merged; [eassumption | discriminate].
    + elim Hne. eapply growStep_not_merged; [eassumption | discriminate].
    + now exists merged.
Qed.

Lemma checkConnectionAndMakeJoin_pure_on_solver_state_witness :
  exists h' remained,
    SliceHeap.checkConnectionAndMakeJoin (SliceExample.heap0, SliceExample.solver0)
        Examples.A Examples.B =
      Returns ((h', SliceExample.solver0),
               (fst (checkConnectionAndMakeJoin
                       (solverOf SliceExample.solver0
                          [Examples.overAC; Examples.overB; Examples.overAD])
                       Examples.A Examples.B),
                remained)) /\
    (forall a, a < length SliceExample.heap0 ->
       SliceHeap.cellsOf h' a = SliceHeap.cellsOf SliceExample.heap0 a) /\
    SliceHeap.view h' (SliceHeap.otherConds SliceExample.solver0) =
      map Some [Examples.overAC; Examples.overB; Examples.overAD] /\
    (fst (checkConnectionAndMakeJoin
            (solverOf SliceExample.solver0
               [Examples.overAC; Examples.overB; Examples.overAD])
            Examples.A Examples.B) <> None ->
     length SliceExample.heap0 <= SliceHeap.array remained /\
     SliceHeap.view h' remained =
       map Some (snd (checkConnectionAndMakeJoin
                        (solverOf SliceExample.solver0
                           [Examples.overAC; Examples.overB; Examples.overAD])
                        Examples.A Examples.B))).
Proof.
  apply (checkConnectionAndMakeJoin_pure_on_solver_state
           SliceExample.heap0 SliceExample.solver0
           [Examples.overAC; Examples.overB; Examples.overAD]
           Examples.A Examples.B).
  - split; simpl; lia.
  - reflexivity.
Defined.

(** Why the copy matters: filtering the solver's own pending slice in place
    moves [overAD] over [overB] inside the solver's backing array, and the
    solver's slice header then shows [overAC; overAD; overAD]. *)
Example in_place_filter_on_the_solver_slice_is_visible :
  exists h' remained filteredOut,
    SliceHeap.FilterOutInPlace SliceExample.heap0
      (SliceHeap.otherConds SliceExample.solver0)
      (fun expr => ExprFromSchema expr [Examples.a1; Examples.b1]) =
      Returns (h', remained, filteredOut) /\
    filteredOut = [Examples.overB] /\
    SliceHeap.view h' remained = [Some Examples.overAC; Some Examples.overAD] /\
    SliceHeap.view h' (SliceHeap.otherConds SliceExample.solver0) =
      [Some Examples.overAC; Some Examples.overAD; Some Examples.overAD].
Proof. do 3 eexists. repeat split. Qed.

(* ------------------------------------------------------------------ *)
(** ** The bushy assembly *)

Lemma crossForest_singletons trees :
  crossForest (map (fun tree => [tree]) trees) trees 0.
Proof.
  induction trees as [|tree rest IH]; simpl; [constructor|].
  change 0 with (0 + 0). constructor; [constructor | exact IH].
Qed.

Lemma concat_singletons (A : Type) (l : list A) :
  concat (map (fun x => [x]) l) = l.
Proof. induction l as [|x l IH]; simpl; congruence. Qed.

(** One round pairs the subtrees up: each pair costs one cross join, the
    segments are concatenated pairwise. *)
Lemma pairUp_forest (bound : nat) :
  forall segments group m,
    length group <= bound ->
    crossForest segments group m ->
    exists segments' m',
      crossForest segments' (pairUp group) m' /\
      concat segments' = concat segments /\
      m' + length (pairUp group) = m + length group /\
      (2 <= length group -> length (pairUp group) < length group) /\
      (group <> [] -> pairUp group <> []).
Proof.
  induction bound as [|bound IH]; intros segments group m Hlen Hf.
  - destruct group; [|simpl in Hlen; lia]. inversion Hf; subst.
    exists [], 0. simpl. repeat split; auto; try lia; try constructor.
  - inversion Hf as [|seg1 t1 n1 segs1 g1 m1 Ha1 Hf1]; subst.
    + exists [], 0. simpl. repeat split; auto; try lia; try constructor.
    + inversion Hf1 as [|seg2 t2 n2 segs2 g2 m2 Ha2 Hf2]; subst.
      * exists [seg1], (n1 + 0). simpl.
        split; [|split; [|split; [|split]]]; auto; try lia; try discriminate;
          try (constructor; [assumption | constructor]).
      * destruct (IH segs2 g2 m2) as (segs' & m' & Hf' & Hc & Hm & Hlt & Hne);
          [simpl in Hlen; lia | assumption |].
        exists ((seg1 ++ seg2) :: segs'), (S (n1 + n2) + m').
        split; [constructor; [now constructor | assumption]|].
        simpl. split; [|split; [|split]].
        -- rewrite Hc. now rewrite app_assoc.
        -- lia.
        -- intros _.
           destruct g2 as [|a [|b g3]]; simpl in *; try lia;
             assert (H2 : 2 <= S (S (length g3))) by lia; specialize (Hlt H2); lia.
        -- discriminate.
Qed.

Lemma bushyRounds_assembles (fuel : nat) :
  forall segments group m,
    length group <= fuel ->
    group <> [] ->
    crossForest segments group m ->
    exists final,
      bushyRounds fuel group = Some final /\
      crossAssembly (concat segments) final (m + length group - 1).
Proof.
  induction fuel as [|fuel IH]; intros segments group m Hlen Hne Hf.
  - destruct group; [congruence | simpl in Hlen; lia].
  - destruct group as [|t1 [|t2 rest]]; [congruence| |].
    + inversion Hf as [|seg1 t1' n1 segs1 g1 m1 Ha1 Hf1]; subst.
      inversion Hf1; subst. exists t1. simpl. split; [reflexivity|].
      rewrite app_nil_r. replace (n1 + 0 + 1 - 1) with n1 by lia. assumption.
    + destruct (pairUp_forest (length (t1 :: t2 :: rest)) segments (t1 :: t2 :: rest) m
                  (le_n _) Hf)
        as (segs' & m' & Hf' & Hc & Hm & Hlt & Hne').
      destruct (IH segs' (pairUp (t1 :: t2 :: rest)) m') as (final & Hrun & Hasm).
      * assert (2 <= length (t1 :: t2 :: rest)) by (simpl; lia).
        specialize (Hlt H). lia.
      * apply Hne'. discriminate.
      * assumption.
      * exists final. split; [exact Hrun|].
        rewrite <- Hc. replace (m + length (t1 :: t2 :: rest) - 1)
          with (m' + length (pairUp (t1 :: t2 :: rest)) - 1) by lia.
        exact Hasm.
Qed.

(** The bushy assembly of a non-empty list of component trees: one tree
    of [length trees - 1] cross joins over them. *)
Lemma makeBushyJoin_assembles trees :
  trees <> [] ->
  exists final,
    makeBushyJoin trees = Some final /\
    crossAssembly trees final (length trees - 1).
Proof.
  intros Hne. unfold makeBushyJoin.
  destruct (bushyRounds_assembles (length trees) _ trees 0 (le_n _) Hne
              (crossForest_singletons trees)) as (final & Hrun & Hasm).
  exists final. split; [exact Hrun|].
  now rewrite concat_singletons in Hasm.
Qed.

Lemma makeBushyJoin_single tree : makeBushyJoin [tree] = Some tree.
Proof. reflexivity. Qed.

Lemma makeBushyJoin_nil : makeBushyJoin [] = None.
Proof. reflexivity. Qed.

(* ------------------------------------------------------------------ *)
(** ** The shape of a committed merge *)

Lemma checkConnectionAndMakeJoin_some s leftNode rightNode join remain :
  checkConnectionAndMakeJoin s leftNode rightNode = (Some join, remain) ->
  usedEdgesOf (eqEdges s) leftNode rightNode <> [] /\
  join = LogicalJoin leftNode rightNode
           (usedEdgesOf (eqEdges s) leftNode rightNode)
           (rev (filter (fun e => ExprFromSchema e
                                    (MergeSchema (PlanSchema leftNode) (PlanSchema rightNode)))
                        (otherConds s))) /\
  remain = filter (fun e => negb (ExprFromSchema e
                                    (MergeSchema (PlanSchema leftNode) (PlanSchema rightNode))))
                  (otherConds s).
Proof.
  unfold checkConnectionAndMakeJoin.
  destruct (usedEdgesOf (eqEdges s) leftNode rightNode) as [|u us]; [discriminate|].
  rewrite FilterOutInPlace_eq. intros H. injection H as <- <-.
  split; [discriminate | split; reflexivity].
Qed.

Lemma checkConnectionAndMakeJoin_none s leftNode rightNode :
  fst (checkConnectionAndMakeJoin s leftNode rightNode) = None ->
  usedEdgesOf (eqEdges s) leftNode rightNode = [].
Proof.
  unfold checkConnectionAndMakeJoin.
  destruct (usedEdgesOf (eqEdges s) leftNode rightNode) as [|u us]; [reflexivity|].
  destruct (FilterOutInPlace _ _). discriminate.
Qed.

(** A committed merge takes one node out of the group and joins it, on
    the right, to the current tree. *)
Lemma growStep_merged_shape stats s t t' s' :
  growStep stats s t = (StepMerged t', s') ->
  exists pre node post,
    curJoinGroup s = pre ++ node :: post /\
    curJoinGroup s' = pre ++ post /\
    eqEdges s' = eqEdges s /\
    usedEdgesOf (eqEdges s) (p t) (p node) <> [] /\
    p t' = LogicalJoin (p t) (p node)
             (usedEdgesOf (eqEdges s) (p t) (p node))
             (rev (filter (fun e => ExprFromSchema e
                                      (MergeSchema (PlanSchema (p t)) (PlanSchema (p node))))
                          (otherConds s))) /\
    otherConds s' =
      filter (fun e => negb (ExprFromSchema e
                              (MergeSchema (PlanSchema (p t)) (PlanSchema (p node)))))
             (otherConds s).
Proof.
  intros Hg.
  destruct (growStep_merged _ _ _ _ _ Hg)
    as (st & b & _ & _ & _ & _ & Hb & -> & (node & Hn & Hc & _)).
  destruct (removeAt_split _ _ _ Hb) as (pre & x & post & Hl & Hr & _ & Hx).
  rewrite Hx in Hn. injection Hn as ->.
  destruct (checkConnectionAndMakeJoin_some _ _ _ _ _ Hc) as (Hne & Hj & Hrem).
  exists pre, node, post. simpl. rewrite Hr. auto 10.
Qed.

(** When a step breaks out of the loop, no candidate was below the
    sentinel. *)
Lemma growStep_exhausted stats s t s' :
  growStep stats s t = (StepExhausted, s') ->
  forall j join remain cost,
    candidateAt stats s t j join remain cost -> ltb cost MaxFloat64 = false.
Proof.
  unfold growStep. intros Hg j join remain cost Hc.
  destruct (scanCandidates stats s t 0 (curJoinGroup s) scanInit) as [st|err] eqn:Hscan;
    [|discriminate].
  pose proof (scan_step_invariant _ _ _ _ Hscan) as [Hnone _ Hbest].
  destruct (bestJoin st) eqn:Hb; [discriminate|].
  rewrite (Hnone eq_refl) in Hbest. simpl in Hbest.
  apply (Hbest j join remain cost); [|exact Hc].
  destruct Hc as (node & Hn & _). apply nth_error_Some. congruence.
Qed.

(** With every candidate below the sentinel, a step that breaks out of the
    loop has no candidate at all. *)
Lemma exhausted_below_sentinel_disconnected stats s t s' :
  growStep stats s t = (StepExhausted, s') ->
  belowSentinel stats s t ->
  forall node, In node (curJoinGroup s) ->
    usedEdgesOf (eqEdges s) (p t) (p node) = [].
Proof.
  intros Hg Hbelow node Hin.
  apply checkConnectionAndMakeJoin_none.
  destruct (checkConnectionAndMakeJoin s (p t) (p node)) as [[join|] remain] eqn:Hc;
    [|reflexivity].
  destruct (In_nth_error _ _ Hin) as (j & Hj).
  assert (Hcand : candidateAt stats s t j join remain (calcJoinCumCost stats join t node)).
  { exists node. auto. }
  pose proof (growStep_exhausted _ _ _ _ Hg _ _ _ _ Hcand) as H1.
  pose proof (Hbelow _ _ _ _ Hcand) as H2. congruence.
Qed.

Lemma belowSentinelb_spec stats s t :
  belowSentinelb stats s t = true -> belowSentinel stats s t.
Proof.
  unfold belowSentinelb. rewrite forallb_forall.
  intros H j join remain cost (node & Hn & Hc & <-).
  specialize (H node (nth_error_In _ _ Hn)). now rewrite Hc in H.
Qed.

(* ------------------------------------------------------------------ *)
(** ** Listing the growing steps of a run *)

Lemma grows_visited stats s t sx tx :
  grows stats s t sx tx ->
  forall fuel, length (curJoinGroup s) < fuel ->
    In (sx, tx) (growVisited stats fuel s t).
Proof.
  induction 1 as [s t|s t s1 t1 sx tx Hg Hgr IH]; intros fuel Hfuel;
    (destruct fuel as [|fuel]; [lia|]); simpl.
  - now left.
  - right. rewrite Hg. apply IH.
    destruct (growStep_merged _ _ _ _ _ Hg) as (st & b & _ & _ & _ & _ & Hb & -> & _).
    simpl. pose proof (removeAt_length _ _ _ Hb). lia.
Qed.

Lemma collects_shrinks stats s trees sk treesk :
  collects stats s trees sk treesk ->
  length (curJoinGroup sk) <= length (curJoinGroup s).
Proof.
  induction 1 as [|sa ta seed rest sb tb sc tc Hg Hgr _ _ IH]; [lia|].
  pose proof (grows_shrinks _ _ _ _ _ Hgr) as Hsh. simpl in Hsh.
  rewrite Hg. simpl. lia.
Qed.

Lemma reachedFrom_visited stats s0 trees0 sk treesk :
  collects stats s0 trees0 sk treesk ->
  forall seed rest sx tx fuel,
    curJoinGroup sk = seed :: rest ->
    grows stats (mkSolver rest (otherConds sk) (eqEdges sk)) seed sx tx ->
    length (curJoinGroup s0) <= fuel ->
    In (sx, tx) (componentVisited stats fuel s0).
Proof.
  induction 1 as [s trees|s trees seed0 rest0 s1 t1 sk treesk Hg Hgr Hlast Hc IH];
    intros seed rest sx tx fuel Hsk Hgrows Hfuel.
  - destruct fuel as [|fuel]; [rewrite Hsk in Hfuel; simpl in Hfuel; lia|].
    cbn [componentVisited]. rewrite Hsk. apply in_or_app. left.
    apply grows_visited; [assumption | simpl; lia].
  - destruct fuel as [|fuel]; [rewrite Hg in Hfuel; simpl in Hfuel; lia|].
    cbn [componentVisited]. rewrite Hg. apply in_or_app. right.
    rewrite (grows_exhausted_growLoop _ _ _ _ _ Hgr Hlast) by (simpl; lia).
    apply (IH seed rest); try assumption.
    pose proof (grows_shrinks _ _ _ _ _ Hgr) as Hsh. simpl in Hsh.
    rewrite Hg in Hfuel. simpl in Hfuel. lia.
Qed.

(** Testing the listed steps is enough to know that every candidate of the
    run is below the sentinel. *)
Lemma visitedSteps_below_sentinel stats plans s :
  forallb (fun st => belowSentinelb stats (fst st) (snd st))
          (visitedSteps stats plans s) = true ->
  forall sx tx, reached stats plans s sx tx -> belowSentinel stats sx tx.
Proof.
  intros Hall sx tx (sk & treesk & seed & rest & Hc & Hsk & Hgr).
  apply belowSentinelb_spec.
  rewrite forallb_forall in Hall.
  apply (Hall (sx, tx)).
  unfold visitedSteps. eapply reachedFrom_visited; eauto.
Qed.

Lemma reachedFrom_later stats s trees seed rest s1 t1 sx tx :
  curJoinGroup s = seed :: rest ->
  grows stats (mkSolver rest (otherConds s) (eqEdges s)) seed s1 t1 ->
  growStep stats s1 t1 = (StepExhausted, s1) ->
  reachedFrom stats s1 (trees ++ [p t1]) sx tx ->
  reachedFrom stats s trees sx tx.
Proof.
  intros Hg Hgr Hlast (sk & treesk & seed' & rest' & Hc & Hsk & Hgrows).
  exists sk, treesk, seed', rest'. repeat split; auto.
  eapply collects_component; eassumption.
Qed.

Lemma reachedFrom_first stats s trees seed rest s1 t1 :
  curJoinGroup s = seed :: rest ->
  grows stats (mkSolver rest (otherConds s) (eqEdges s)) seed s1 t1 ->
  reachedFrom stats s trees s1 t1.
Proof.
  intros Hg Hgr. exists s, trees, seed, rest. repeat split; auto. constructor.
Qed.

(* ------------------------------------------------------------------ *)
(** ** The join graph *)

Lemma adjacent_sym edges m1 m2 : adjacent edges m1 m2 -> adjacent edges m2 m1.
Proof.
  intros (edge & He & Hc). exists edge. split; [assumption|].
  unfold connectsAsIs, connectsSwapped in *. tauto.
Qed.

Lemma usedEdgesOf_adjacent edges leftNode rightNode :
  usedEdgesOf edges leftNode rightNode <> [] <-> adjacent edges leftNode rightNode.
Proof.
  pose proof (usedEdgesOf_nil edges leftNode rightNode) as Hnil. split.
  - intros Hne. destruct (usedEdgesOf edges leftNode rightNode) as [|u us] eqn:E;
      [congruence|].
    assert (Hin : In u (usedEdgesOf edges leftNode rightNode)) by (rewrite E; now left).
    apply usedEdgesOf_In in Hin. destruct Hin as (e & He & Hc).
    exists e. split; [assumption | tauto].
  - intros (e & He & Hc) Hn. destruct Hnil as [Hnil _]. exact (Hnil Hn e He Hc).
Qed.

(** A plan whose schema gathers the columns of [absorbed] members is
    adjacent to a node exactly when one of these members is. *)
Lemma adjacent_absorbed edges tree absorbed node :
  (forall col, In col (PlanSchema tree) <->
               exists m, In m absorbed /\ In col (PlanSchema m)) ->
  adjacent edges tree node <-> exists m, In m absorbed /\ adjacent edges m node.
Proof.
  intros Hs. unfold adjacent, connectsAsIs, connectsSwapped. split.
  - intros (e & He & [[H0 H1] | [H0 H1]]).
    + apply Hs in H0. destruct H0 as (m & Hm & Hc). exists m. split; [assumption|].
      exists e. tauto.
    + apply Hs in H1. destruct H1 as (m & Hm & Hc). exists m. split; [assumption|].
      exists e. tauto.
  - intros (m & Hm & e & He & [[H0 H1] | [H0 H1]]); exists e; (split; [assumption|]).
    + left. split; [|assumption]. apply Hs. eauto.
    + right. split; [assumption|]. apply Hs. eauto.
Qed.

Lemma separated_remove edges before group after :
  separated edges (before ++ group :: after) ->
  separated edges (before ++ after) /\
  (forall other m1 m2, In other (before ++ after) -> In m1 group -> In m2 other ->
                       ~ adjacent edges m1 m2).
Proof.
  unfold separated. induction before as [|g before IH]; simpl; intros H.
  - inversion H as [|a l Hall Hrest]; subst. split; [assumption|].
    intros other m1 m2 Ho. rewrite Forall_forall in Hall. eauto.
  - inversion H as [|a l Hall Hrest]; subst.
    destruct (IH Hrest) as [Hsep Hgroup]. split.
    + constructor; [|assumption].
      rewrite Forall_forall in *. intros x Hx. apply Hall.
      apply in_app_or in Hx. apply in_or_app. simpl. tauto.
    + intros other m1 m2 [<- | Ho] H1 H2; [|eauto].
      intros Hadj. apply adjacent_sym in Hadj. revert Hadj.
      rewrite Forall_forall in Hall.
      apply (Hall group); [apply in_or_app; simpl; tauto | assumption | assumption].
Qed.

Lemma concat_remove (A : Type) (before : list (list A)) group after :
  Permutation (concat (before ++ group :: after)) (group ++ concat (before ++ after)).
Proof.
  rewrite !concat_app. simpl.
  rewrite app_assoc, (app_assoc group).
  apply Permutation_app_tail, Permutation_app_comm.
Qed.

Lemma In_concat_split (A : Type) (x : A) (groups : list (list A)) :
  In x (concat groups) ->
  exists before group after, groups = before ++ group :: after /\ In x group.
Proof.
  intros H. apply in_concat in H. destruct H as (g & Hg & Hx).
  destruct (in_split _ _ Hg) as (before & after & ->). eauto.
Qed.

(* ------------------------------------------------------------------ *)
(** ** A component absorbs exactly one clique *)

Section Component.

Variable stats : StatsCollaborator.
Variable edges : list ScalarFunction.
Variable members : list LogicalPlan.
Variables before after : list (list LogicalPlan).
Variable group : list LogicalPlan.
Variable seedPlan : LogicalPlan.

Hypothesis members_distinct : NoDup members.
Hypothesis members_split : Permutation members (concat (before ++ group :: after)).
Hypothesis group_connected : connectedGroup edges group.
Hypothesis groups_separated : separated edges (before ++ group :: after).

Lemma members_group_or_other m :
  In m members ->
  In m group \/ exists other, In other (before ++ after) /\ In m other.
Proof.
  intros Hm.
  apply (Permutation_in _ members_split) in Hm.
  apply (Permutation_in _ (concat_remove _ before group after)) in Hm.
  apply in_app_or in Hm. destruct Hm as [Hm | Hm]; [now left|].
  right. apply in_concat in Hm. destruct Hm as (g & Hg & Hx). eauto.
Qed.

Lemma growthInvariant_merge absorbed s t t' s' :
  growthInvariant edges members group seedPlan absorbed s t ->
  growStep stats s t = (StepMerged t', s') ->
  exists absorbed', growthInvariant edges members group seedPlan absorbed' s' t'.
Proof.
  intros [Hseed Hincl Hperm Hschema Hedges] Hg.
  destruct (growStep_merged_shape _ _ _ _ _ Hg)
    as (pre & node & post & Hcjg & Hcjg' & He' & Hused & Hp' & _).
  rewrite Hedges in Hused. apply usedEdgesOf_adjacent in Hused.
  apply (adjacent_absorbed edges (p t) absorbed (p node) Hschema) in Hused.
  destruct Hused as (m & Hm & Hadj).
  assert (Hnode : In (p node) group).
  { assert (Hmem : In (p node) members).
    { apply (Permutation_in _ Hperm). apply in_or_app. right.
      rewrite Hcjg, map_app. apply in_or_app. right. now left. }
    destruct (members_group_or_other _ Hmem) as [Hin | (other & Ho & Hin)];
      [assumption|].
    destruct (separated_remove _ _ _ _ groups_separated) as [_ Hsep].
    elim (Hsep other m (p node) Ho (Hincl _ Hm) Hin Hadj). }
  exists (absorbed ++ [p node]). constructor.
  - apply in_or_app. now left.
  - intros x Hx. apply in_app_or in Hx. destruct Hx as [Hx | [<- | []]]; auto.
  - rewrite Hcjg', <- app_assoc. rewrite Hcjg in Hperm.
    eapply Permutation_trans; [|exact Hperm].
    apply Permutation_app_head. rewrite !map_app. simpl.
    apply Permutation_middle.
  - intros col. rewrite Hp'. simpl. rewrite MergeSchema_In. split.
    + intros [Hc | Hc].
      * apply Hschema in Hc. destruct Hc as (x & Hx & Hc). exists x.
        split; [apply in_or_app; now left | assumption].
      * exists (p node). split; [apply in_or_app; right; now left | assumption].
    + intros (x & Hx & Hc). apply in_app_or in Hx. destruct Hx as [Hx | [<- | []]].
      * left. apply Hschema. eauto.
      * now right.
  - congruence.
Qed.

Lemma growthInvariant_grows s t s' t' :
  grows stats s t s' t' ->
  forall absorbed,
    growthInvariant edges members group seedPlan absorbed s t ->
    exists absorbed', growthInvariant edges members group seedPlan absorbed' s' t'.
Proof.
  induction 1 as [s t|s t s1 t1 s' t' Hg Hgr IH]; intros absorbed Hinv.
  - now exists absorbed.
  - destruct (growthInvariant_merge _ _ _ _ _ Hinv Hg) as (absorbed1 & Hinv1).
    now apply (IH absorbed1).
Qed.

(** When the component stops growing with every candidate below the
    sentinel, it has absorbed the whole clique. *)
Lemma growthInvariant_exhausted absorbed s t s' :
  growthInvariant edges members group seedPlan absorbed s t ->
  growStep stats s t = (StepExhausted, s') ->
  belowSentinel stats s t ->
  Permutation absorbed group /\
  Permutation (map p (curJoinGroup s)) (concat (before ++ after)).
Proof.
  intros [Hseed Hincl Hperm Hschema Hedges] Hg Hbelow.
  assert (Hfar : forall a node, In a absorbed -> In node (curJoinGroup s) ->
                                ~ adjacent edges a (p node)).
  { intros a node Ha Hn Hadj.
    pose proof (exhausted_below_sentinel_disconnected _ _ _ _ Hg Hbelow node Hn) as Hnil.
    rewrite Hedges in Hnil.
    assert (Hne : usedEdgesOf edges (p t) (p node) <> []).
    { apply usedEdgesOf_adjacent.
      apply (adjacent_absorbed edges (p t) absorbed (p node) Hschema). eauto. }
    congruence. }
  assert (Hclosed : forall a c, linked edges group a c -> In a absorbed -> In c absorbed).
  { induction 1 as [a Ha|a b c Ha Hb Hadj Hl IH]; intros Hin; [assumption|].
    apply IH.
    assert (Hmem : In b members).
    { apply (Permutation_in _ (Permutation_sym members_split)).
      apply (Permutation_in _ (Permutation_sym (concat_remove _ before group after))).
      apply in_or_app. now left. }
    apply (Permutation_in _ (Permutation_sym Hperm)) in Hmem.
    apply in_app_or in Hmem. destruct Hmem as [Hmem | Hmem]; [assumption|].
    apply in_map_iff in Hmem. destruct Hmem as (node & <- & Hn).
    elim (Hfar a node Hin Hn Hadj). }
  assert (Hnd : NoDup (absorbed ++ map p (curJoinGroup s))).
  { eapply Permutation_NoDup; [apply Permutation_sym, Hperm | exact members_distinct]. }
  assert (Hndg : NoDup (group ++ concat (before ++ after))).
  { eapply Permutation_NoDup; [|exact members_distinct].
    eapply Permutation_trans; [exact members_split | apply concat_remove]. }
  assert (Hsame : Permutation absorbed group).
  { apply NoDup_Permutation.
    - eapply NoDup_app_remove_r. exact Hnd.
    - eapply NoDup_app_remove_r. exact Hndg.
    - intros x. split; [apply Hincl|].
      intros Hx. apply (Hclosed seedPlan x); [|assumption].
      destruct group_connected as [_ Hl]. apply Hl; [apply Hincl; assumption | assumption]. }
  split; [exact Hsame|].
  apply (Permutation_app_inv_l group).
  eapply Permutation_trans;
    [apply Permutation_app_tail, Permutation_sym, Hsame|].
  eapply Permutation_trans; [exact Hperm|].
  eapply Permutation_trans; [exact members_split | apply concat_remove].
Qed.

End Component.

(* ------------------------------------------------------------------ *)
(** ** One component tree per clique *)

Lemma gathers_self plan : gathers plan [plan].
Proof.
  intros col. split.
  - intros H. exists plan. split; [now left | assumption].
  - intros (m & [<- | []] & H). assumption.
Qed.

Lemma collects_counts_groups stats edges s trees s' trees' :
  collects stats s trees s' trees' ->
  forall groups,
    eqEdges s = edges ->
    NoDup (map p (curJoinGroup s)) ->
    Permutation (map p (curJoinGroup s)) (concat groups) ->
    Forall (connectedGroup edges) groups ->
    separated edges groups ->
    (forall sx tx, reachedFrom stats s trees sx tx -> belowSentinel stats sx tx) ->
    curJoinGroup s' = [] ->
    length trees' = length trees + length groups.
Proof.
  induction 1 as [s trees|s trees seed rest s1 t1 s' trees' Hg Hgr Hlast Hc IH];
    intros groups Hedges Hnd Hperm Hconn Hsep Hclean Hend.
  - rewrite Hend in Hperm. simpl in Hperm. apply Permutation_nil in Hperm.
    destruct groups as [|g groups]; [simpl; lia|].
    inversion Hconn as [|? ? [Hne _] _]; subst.
    simpl in Hperm. apply app_eq_nil in Hperm. destruct Hperm as [-> _]. congruence.
  - rewrite Hg in Hnd, Hperm.
    assert (Hseed : In (p seed) (concat groups)).
    { apply (Permutation_in _ Hperm). now left. }
    destruct (In_concat_split _ _ _ Hseed) as (before & group & after & -> & Hin).
    assert (Hgconn : connectedGroup edges group).
    { rewrite Forall_forall in Hconn. apply Hconn. apply in_or_app. right. now left. }
    assert (Hinit : growthInvariant edges (map p (seed :: rest)) group (p seed) [p seed]
                      (mkSolver rest (otherConds s) (eqEdges s)) seed).
    { constructor; simpl; auto.
      - intros x [<- | []]. assumption.
      - apply gathers_self. }
    destruct (growthInvariant_grows stats edges (map p (seed :: rest)) before after group
                (p seed) Hperm Hsep _ _ _ _ Hgr _ Hinit) as (absorbed & Hinv).
    destruct (growthInvariant_exhausted stats edges (map p (seed :: rest)) before after
                group (p seed) Hnd Hperm Hgconn _ _ _ _ Hinv Hlast
                (Hclean _ _ (reachedFrom_first _ _ _ _ _ _ _ Hg Hgr)))
      as [_ Hrest].
    destruct (separated_remove _ _ _ _ Hsep) as [Hsep' _].
    rewrite (IH (before ++ after)).
    + rewrite !length_app. simpl. lia.
    + apply (gi_edges Hinv).
    + eapply Permutation_NoDup; [apply Permutation_sym, Hrest|].
      assert (Hall : NoDup (group ++ concat (before ++ after))).
      { eapply Permutation_NoDup; [|exact Hnd].
        eapply Permutation_trans; [exact Hperm | apply concat_remove]. }
      eapply NoDup_app_remove_l. exact Hall.
    + exact Hrest.
    + apply Forall_app in Hconn. destruct Hconn as [H1 H2].
      inversion H2; subst. apply Forall_app. split; assumption.
    + exact Hsep'.
    + intros sx tx Hr. apply Hclean. eapply reachedFrom_later; eassumption.
    + exact Hend.
Qed.

(** A run in which no stats derivation fails goes through the whole
    group. *)
Lemma solveComponents_succeeds stats plans s :
  (forall plan, deriveStatsError stats plan = None) ->
  exists trees s',
    solveComponents stats (length (curJoinGroup s) + length plans) plans s
      = Returns (inl trees, s') /\
    collects stats (seeded stats plans s) [] s' trees /\
    curJoinGroup s' = [] /\
    solve stats plans s = Returns ((makeBushyJoin trees, None), s').
Proof.
  intros Hok. unfold solve, solveWithFuel.
  rewrite solveComponents_ok by auto.
  destruct (componentLoop_returns stats (length (curJoinGroup s) + length plans)
              (seeded stats plans s) [])
    as (res & s' & Hrun); [rewrite seeded_length by auto; lia|].
  rewrite Hrun.
  destruct (componentLoop_collects _ _ _ _ _ _ Hrun)
    as [(trees & -> & Hc & Hnil)
       | (err & sk & gk & seed & rest & last & -> & _ & _ & _ & Hfail)].
  - exists trees, s'. auto.
  - destruct (growStep_error _ _ _ _ _ Hfail) as (_ & node & join & remain & _ & _ & Herr).
    rewrite Hok in Herr. discriminate.
Qed.

(** Property X14.  Take a fresh solver and a group of distinct members
    that the equality edges split into [k] connected cliques, and suppose
    that no stats derivation fails and that every candidate evaluated
    during the run has a cumulative cost strictly below [math.MaxFloat64].
    Then [solve] finds exactly [k] component trees, and returns their
    assembly: for [k >= 1] a tree of exactly [k - 1] predicate-free cross
    joins over the component trees; a single component tree is returned as
    it is. *)
Theorem solve_one_component_tree_per_clique :
  forall (stats : StatsCollaborator) (joinNodePlans : list LogicalPlan)
         (s : joinReorderGreedySolver) (groups : list (list LogicalPlan)),
    curJoinGroup s = [] ->
    NoDup joinNodePlans ->
    splitsInto (eqEdges s) joinNodePlans groups ->
    (forall plan, deriveStatsError stats plan = None) ->
    (forall sx tx, reached stats joinNodePlans s sx tx -> belowSentinel stats sx tx) ->
    exists trees s',
      solveComponents stats (length (curJoinGroup s) + length joinNodePlans)
        joinNodePlans s = Returns (inl trees, s') /\
      length trees = length groups /\
      solve stats joinNodePlans s = Returns ((makeBushyJoin trees, None), s') /\
      (groups <> [] ->
       exists final, makeBushyJoin trees = Some final /\
                     crossAssembly trees final (length groups - 1)) /\
      (forall tree, trees = [tree] -> makeBushyJoin trees = Some tree).
Proof.
  intros stats plans s groups Hfresh Hnd (Hperm & Hconn & Hsep) Hok Hclean.
  destruct (solveComponents_succeeds stats plans s Hok)
    as (trees & s' & Hcomp & Hc & Hnil & Hsolve).
  assert (Hseeded : Permutation (map p (curJoinGroup (seeded stats plans s))) plans).
  { rewrite seeded_ok by auto. simpl. rewrite Hfresh. simpl.
    eapply Permutation_trans; [apply Permutation_map, SliceStable_Permutation|].
    rewrite map_map. simpl. now rewrite map_id. }
  assert (Hlen : length trees = length groups).
  { apply (collects_counts_groups stats (eqEdges s) _ _ _ _ Hc groups).
    - rewrite seeded_ok by auto. reflexivity.
    - eapply Permutation_NoDup; [apply Permutation_sym, Hseeded | exact Hnd].
    - eapply Permutation_trans; [exact Hseeded | apply Permutation_sym, Hperm].
    - exact Hconn.
    - exact Hsep.
    - exact Hclean.
    - exact Hnil. }
  exists trees, s'. split; [exact Hcomp|]. split; [exact Hlen|].
  split; [exact Hsolve|]. split.
  - intros Hne. rewrite <- Hlen. apply makeBushyJoin_assembles.
    destruct trees; [|discriminate]. destruct groups; [congruence | discriminate].
  - intros tree ->. reflexivity.
Qed.

Lemma solve_one_component_tree_per_clique_witness :
  exists trees s',
    solveComponents ExampleStats.unit
      (length (curJoinGroup TwoCliques.solver0) + length TwoCliques.members)
      TwoCliques.members TwoCliques.solver0 = Returns (inl trees, s') /\
    length trees = length TwoCliques.groups /\
    solve ExampleStats.unit TwoCliques.members TwoCliques.solver0 =
      Returns ((makeBushyJoin trees, None), s') /\
    (TwoCliques.groups <> [] ->
     exists final, makeBushyJoin trees = Some final /\
                   crossAssembly trees final (length TwoCliques.groups - 1)) /\
    (forall tree, trees = [tree] -> makeBushyJoin trees = Some tree).
Proof.
  apply (solve_one_component_tree_per_clique
           ExampleStats.unit TwoCliques.members TwoCliques.solver0 TwoCliques.groups).
  - reflexivity.
  - repeat constructor; simpl; intuition discriminate.
  - split; [reflexivity|]. split.
    + constructor; [|constructor; [|constructor]].
      * split; [discriminate|].
        assert (Hab : adjacent [Examples.edgeAB] Examples.A Examples.B).
        { exists Examples.edgeAB. split; [now left|]. left. split; now left. }
        intros a b [<- | [<- | []]] [<- | [<- | []]].
        -- apply linked_here. now left.
        -- eapply linked_step; [now left | right; now left | exact Hab |].
           apply linked_here. right. now left.
        -- eapply linked_step;
             [right; now left | now left | apply adjacent_sym, Hab |].
           apply linked_here. now left.
        -- apply linked_here. right. now left.
      * split; [discriminate|].
        intros a b [<- | []] [<- | []]. apply linked_here. now left.
    + constructor; [|constructor; [constructor | constructor]].
      constructor; [|constructor].
      intros m1 m2 [<- | [<- | []]] [<- | []] (e & [<- | []] & [[H0 H1] | [H0 H1]]);
        simpl in *; intuition discriminate.
  - reflexivity.
  - apply visitedSteps_below_sentinel. vm_compute. reflexivity.
Defined.

(** Claim C8, at the input where the code breaks it.  [A] and [B] are
    joined by an edge and form one clique: one component tree and no cross
    join are due.  With the estimate of their join at +Inf the candidate
    [B] never beats the initial [bestCost] of line 77 under the strict
    comparison of line 94, so the loop breaks at line 102 as if nothing
    connected: [solve] finds the two component trees [A] and [B] and
    returns their cross join, without the equality [a1 = b1]. *)
Lemma one_clique_split_in_two_components_at_sentinel :
  splitsInto (eqEdges OneClique.solver0) OneClique.members OneClique.groups /\
  length OneClique.groups = 1 /\
  (exists s',
      solveComponents ExampleStats.infiniteJoins
        (length (curJoinGroup OneClique.solver0) + length OneClique.members)
        OneClique.members OneClique.solver0 =
        Returns (inl [Examples.A; Examples.B], s') /\
      solve ExampleStats.infiniteJoins OneClique.members OneClique.solver0 =
        Returns ((Some (LogicalJoin Examples.A Examples.B [] []), None), s')).
Proof.
  split; [|split; [reflexivity|]].
  - split; [reflexivity|]. split.
    + constructor; [|constructor]. split; [discriminate|].
      assert (Hab : adjacent [Examples.edgeAB] Examples.A Examples.B).
      { exists Examples.edgeAB. split; [now left|]. left. split; now left. }
      intros a b [<- | [<- | []]] [<- | [<- | []]].
      * apply linked_here. now left.
      * eapply linked_step; [now left | right; now left | exact Hab |].
        apply linked_here. right. now left.
      * eapply linked_step;
          [right; now left | now left | apply adjacent_sym, Hab |].
        apply linked_here. now left.
      * apply linked_here. right. now left.
    + constructor; constructor.
  - eexists. split; vm_compute; reflexivity.
Qed.

(* ------------------------------------------------------------------ *)
(** ** Predicates attached along a run *)

Lemma joinFree_wellAttached edges plan : joinFree plan -> wellAttached edges plan.
Proof. induction plan; simpl; auto. intros []. Qed.

Lemma joinFree_attachedResiduals plan : joinFree plan -> attachedResiduals plan = [].
Proof. induction plan; simpl; auto. intros []. Qed.

Lemma joinFree_joinNodesWith edge plan : joinFree plan -> joinNodesWith edge plan = 0.
Proof. induction plan; simpl; auto. intros []. Qed.

Lemma accounted_Permutation edges residuals columns built built' s :
  Permutation built built' ->
  accounted edges residuals columns built s ->
  accounted edges residuals columns built' s.
Proof.
  intros Hp [He Ha Hm Hr Hc]. constructor; auto.
  - rewrite Forall_forall in *. intros x Hx. apply Ha.
    eapply Permutation_in; [apply Permutation_sym, Hp | exact Hx].
  - eapply Permutation_trans; [|exact Hr].
    apply Permutation_app_tail, Permutation_flat_map, Permutation_sym, Hp.
  - eapply Permutation_trans; [|exact Hc].
    apply Permutation_app_tail, Permutation_flat_map, Permutation_sym, Hp.
Qed.

(** Taking the seed of a component. *)
Lemma accounted_seed edges residuals columns trees s seed rest :
  accounted edges residuals columns trees s ->
  curJoinGroup s = seed :: rest ->
  accounted edges residuals columns (p seed :: trees)
    (mkSolver rest (otherConds s) (eqEdges s)).
Proof.
  intros [He Ha Hm Hr Hc] Hg. rewrite Hg in Hm, Hc. simpl in Hm, Hc.
  pose proof (Forall_inv Hm) as Hseed. pose proof (Forall_inv_tail Hm) as Hrest.
  constructor; simpl; auto.
  - constructor; [now apply joinFree_wellAttached | assumption].
  - now rewrite joinFree_attachedResiduals.
  - eapply Permutation_trans; [|exact Hc].
    rewrite <- app_assoc. apply Permutation_sym, Permutation_app_swap_app.
Qed.

(** Committing a merge. *)
Lemma accounted_merge stats edges residuals columns trees s t t' s' :
  accounted edges residuals columns (p t :: trees) s ->
  growStep stats s t = (StepMerged t', s') ->
  accounted edges residuals columns (p t' :: trees) s'.
Proof.
  intros [He Ha Hm Hr Hc] Hg.
  destruct (growStep_merged_shape _ _ _ _ _ Hg)
    as (pre & node & post & Hcjg & Hcjg' & He' & Hused & Hp' & Hoc').
  rewrite Hcjg in Hm, Hc. rewrite map_app in Hm. apply Forall_app in Hm.
  destruct Hm as [Hpre Hpost]. simpl in Hpost.
  pose proof (Forall_inv Hpost) as Hnode. pose proof (Forall_inv_tail Hpost) as Hpost'.
  pose proof (Forall_inv Ha) as Ht. pose proof (Forall_inv_tail Ha) as Htrees.
  set (f := fun e => ExprFromSchema e
                       (MergeSchema (PlanSchema (p t)) (PlanSchema (p node)))) in *.
  constructor.
  - congruence.
  - constructor; [|assumption]. rewrite Hp'. simpl. repeat split; auto.
    + destruct (proj1 (usedEdgesOf_In _ _ _ _) H) as (edge & Hedge & Hcase).
      destruct Hcase as [[[H0 H1] ->] | (_ & [H0 H1] & ->)]; assumption.
    + destruct (proj1 (usedEdgesOf_In _ _ _ _) H) as (edge & Hedge & Hcase).
      destruct Hcase as [[[H0 H1] ->] | (_ & [H0 H1] & ->)]; assumption.
    + destruct (proj1 (usedEdgesOf_In _ _ _ _) H) as (edge & Hedge & Hcase).
      rewrite He in Hedge.
      destruct Hcase as [[_ ->] | (_ & _ & ->)]; [now left | right; eauto].
    + intros expr Hx. apply in_rev, filter_In in Hx. destruct Hx as [_ Hx].
      exact (proj1 (ExprFromSchema_spec _ _) Hx).
    + now apply joinFree_wellAttached.
  - rewrite Hcjg', map_app. apply Forall_app. split; assumption.
  - rewrite Hoc'. simpl. rewrite Hp'. simpl.
    rewrite (joinFree_attachedResiduals _ Hnode), app_nil_r.
    eapply Permutation_trans; [|exact Hr]. simpl.
    fold f. rewrite <- !app_assoc.
    eapply Permutation_trans;
      [apply Permutation_app_tail, Permutation_sym, Permutation_rev|].
    eapply Permutation_trans; [apply Permutation_app_swap_app|].
    apply Permutation_app_head.
    eapply Permutation_trans; [apply Permutation_app_swap_app|].
    apply Permutation_app_head.
    apply (filter_partition_Permutation _ f).
  - rewrite Hcjg'. simpl. rewrite Hp'. simpl. unfold MergeSchema.
    eapply Permutation_trans; [|exact Hc]. simpl.
    rewrite !map_app, !flat_map_app. simpl. rewrite <- !app_assoc.
    apply Permutation_app_head.
    eapply Permutation_trans; [apply Permutation_app_swap_app|].
    apply Permutation_app_head.
    apply Permutation_app_swap_app.
Qed.

Lemma accounted_grows stats edges residuals columns trees s t s' t' :
  grows stats s t s' t' ->
  accounted edges residuals columns (p t :: trees) s ->
  accounted edges residuals columns (p t' :: trees) s'.
Proof.
  induction 1 as [s t|s t s1 t1 s' t' Hg Hgr IH]; intros Hacc; [assumption|].
  apply IH. eapply accounted_merge; eassumption.
Qed.

Lemma accounted_collects stats edges residuals columns s trees s' trees' :
  collects stats s trees s' trees' ->
  accounted edges residuals columns trees s ->
  accounted edges residuals columns trees' s'.
Proof.
  induction 1 as [s trees|s trees seed rest s1 t1 s' trees' Hg Hgr Hlast Hc IH];
    intros Hacc; [assumption|].
  apply IH.
  apply (accounted_Permutation _ _ _ (p t1 :: trees)).
  - change (p t1 :: trees) with ([p t1] ++ trees). apply Permutation_app_comm.
  - eapply accounted_grows; [exact Hgr|].
    eapply accounted_seed; eassumption.
Qed.

(** The bookkeeping when the component loop starts on a fresh solver. *)
Lemma accounted_seeded stats plans s :
  curJoinGroup s = [] ->
  Forall joinFree plans ->
  (forall node, In node plans -> deriveStatsError stats node = None) ->
  accounted (eqEdges s) (otherConds s) (flat_map PlanSchema plans) []
    (seeded stats plans s).
Proof.
  intros Hfresh Hfree Hok. rewrite seeded_ok by assumption. rewrite Hfresh. simpl.
  assert (Hperm : Permutation
                    (map p (SliceStable
                              (map (fun node => mkJrNode node (baseNodeCumCost stats node))
                                   plans)))
                    plans).
  { eapply Permutation_trans; [apply Permutation_map, SliceStable_Permutation|].
    rewrite map_map. simpl. now rewrite map_id. }
  constructor; simpl; auto.
  - rewrite Forall_forall in *. intros x Hx. apply Hfree.
    eapply Permutation_in; [exact Hperm | exact Hx].
  - now apply Permutation_flat_map.
Qed.

(** Assembling component trees with cross joins attaches nothing. *)
Lemma crossAssembly_facts edges trees final n :
  crossAssembly trees final n ->
  PlanSchema final = flat_map PlanSchema trees /\
  attachedResiduals final = flat_map attachedResiduals trees /\
  (Forall (wellAttached edges) trees -> wellAttached edges final).
Proof.
  induction 1 as [tree|trees1 trees2 left right n1 n2 H1 IH1 H2 IH2].
  - simpl. rewrite !app_nil_r. repeat split; auto.
    intros H. exact (Forall_inv H).
  - destruct IH1 as (Hs1 & Hr1 & Hw1). destruct IH2 as (Hs2 & Hr2 & Hw2).
    simpl. unfold MergeSchema. rewrite !flat_map_app, Hs1, Hs2, Hr1, Hr2.
    split; [reflexivity|]. split; [reflexivity|].
    intros H. apply Forall_app in H. destruct H as [Hf1 Hf2].
    split; [intros e0 []|]. split; [intros expr []|]. auto.
Qed.

Lemma sameEdge_eq e1 e2 : sameEdge e1 e2 = true <-> e1 = e2.
Proof.
  unfold sameEdge. rewrite !andb_true_iff, !Nat.eqb_eq.
  destruct e1, e2; simpl. split.
  - intros [[-> ->] ->]. reflexivity.
  - intros H. injection H as -> -> ->. auto.
Qed.

Lemma attachedHere_In edge eqs :
  attachedHere edge eqs = true <-> In edge eqs \/ In (swappedEdge edge) eqs.
Proof.
  unfold attachedHere. rewrite orb_true_iff, !existsb_exists. split.
  - intros [(x & Hx & He) | (x & Hx & He)]; apply sameEdge_eq in He; subst; auto.
  - intros [H | H]; [left | right]; eexists; (split; [exact H | now apply sameEdge_eq]).
Qed.

(** In a well attached tree without a repeated column, an edge is attached
    to at most one join node, and its two columns are in the schema of any
    tree it is attached in. *)
Lemma joinNodesWith_at_most_one edges edge plan :
  wellAttached edges plan ->
  NoDup (PlanSchema plan) ->
  joinNodesWith edge plan <= 1 /\
  (1 <= joinNodesWith edge plan ->
   In (Arg0 edge) (PlanSchema plan) /\ In (Arg1 edge) (PlanSchema plan)).
Proof.
  induction plan as [id schema|conds child IH|l IHl r IHr eqs others];
    simpl; intros Hw Hnd.
  - split; [lia | intros H; lia].
  - auto.
  - destruct Hw as (Heqs & _ & Hwl & Hwr). unfold MergeSchema in *.
    pose proof (NoDup_app_remove_r _ _ Hnd) as Hndl.
    pose proof (NoDup_app_remove_l _ _ Hnd) as Hndr.
    assert (Hdisj : forall col, In col (PlanSchema l) -> In col (PlanSchema r) -> False).
    { intros col Hl Hr. revert Hnd Hl Hr. generalize (PlanSchema l) (PlanSchema r).
      clear. intros sl sr Hnd Hl Hr.
      induction sl as [|x sl IH]; [destruct Hl|].
      simpl in Hnd. inversion Hnd as [|y l Hnot Hnd']; subst.
      destruct Hl as [-> | Hl]; [|auto].
      apply Hnot. apply in_or_app. now right. }
    destruct (IHl Hwl Hndl) as [Hl1 Hl2]. destruct (IHr Hwr Hndr) as [Hr1 Hr2].
    destruct (attachedHere edge eqs) eqn:Hhere.
    + apply attachedHere_In in Hhere.
      assert (Hsides : (In (Arg0 edge) (PlanSchema l) /\ In (Arg1 edge) (PlanSchema r)) \/
                       (In (Arg1 edge) (PlanSchema l) /\ In (Arg0 edge) (PlanSchema r))).
      { destruct Hhere as [H | H]; destruct (Heqs _ H) as (H0 & H1 & _); simpl in *; auto. }
      assert (Hzl : joinNodesWith edge l = 0).
      { destruct (joinNodesWith edge l); [reflexivity|].
        destruct Hl2 as [Ha Hb]; [lia|].
        destruct Hsides as [[_ H] | [_ H]];
          [elim (Hdisj _ Hb H) | elim (Hdisj _ Ha H)]. }
      assert (Hzr : joinNodesWith edge r = 0).
      { destruct (joinNodesWith edge r); [reflexivity|].
        destruct Hr2 as [Ha Hb]; [lia|].
        destruct Hsides as [[H _] | [H _]];
          [elim (Hdisj _ H Ha) | elim (Hdisj _ H Hb)]. }
      rewrite Hzl, Hzr. split; [lia|]. intros _.
      rewrite !in_app_iff. tauto.
    + simpl. destruct (joinNodesWith edge l) as [|nl].
      * simpl. split; [exact Hr1|]. intros H. rewrite !in_app_iff.
        destruct (Hr2 H). tauto.
      * destruct Hl2 as [Ha Hb]; [lia|].
        assert (Hzr : joinNodesWith edge r = 0).
        { destruct (joinNodesWith edge r); [reflexivity|].
          destruct Hr2 as [Ha' Hb']; [lia|]. elim (Hdisj _ Ha Ha'). }
        rewrite Hzr. split; [lia|]. intros _. rewrite !in_app_iff. tauto.
Qed.

(** A successful [solve] has gone through the component loop and assembled
    its trees. *)
Lemma solve_success_inv stats plans s plan s' :
  solve stats plans s = Returns ((plan, None), s') ->
  (forall node, In node plans -> deriveStatsError stats node = None) /\
  exists trees,
    collects stats (seeded stats plans s) [] s' trees /\
    curJoinGroup s' = [] /\
    plan = makeBushyJoin trees.
Proof.
  intros Hrun.
  destruct (seedGroup_cases stats plans)
    as [Hok | (pre & node & post & e & -> & Hpre & Herr)].
  - split; [assumption|].
    unfold solve, solveWithFuel in Hrun. rewrite solveComponents_ok in Hrun by assumption.
    destruct (componentLoop stats _ (seeded stats plans s) []) as [[r s1]| |] eqn:Hloop;
      try discriminate.
    destruct (componentLoop_collects _ _ _ _ _ _ Hloop)
      as [(trees' & -> & Hc & Hnil) | (e & sk & gk & seed & rest & last & -> & _)].
    + injection Hrun as <- <-. exists trees'. auto.
    + discriminate.
  - rewrite (solve_seeding_failure stats _ s pre node post e eq_refl Hpre Herr) in Hrun.
    discriminate.
Qed.

(* ------------------------------------------------------------------ *)
(** ** The sentinel *)

(** Claim C10.  A connectable candidate whose cumulative cost is greater
    than or equal to [math.MaxFloat64] is never the one the scan selects.
    When every connectable candidate of a step has such a cost, the step
    commits no merge; if moreover the stats of every candidate are derived
    without error, the loop breaks as it does when nothing connects: it
    returns the current tree as it is, and the solver is unchanged, so the
    still connectable nodes stay among the remaining nodes for the
    components to come. *)
Theorem sentinel_cost_candidate_never_selected :
  forall (stats : StatsCollaborator) (s : joinReorderGreedySolver) (curJoinTree : jrNode),
    (forall st j join remain cost,
        scanCandidates stats s curJoinTree 0 (curJoinGroup s) scanInit = inl st ->
        candidateAt stats s curJoinTree j join remain cost ->
        leb MaxFloat64 cost = true ->
        bestIdx st <> Z.of_nat j)
    /\
    ((forall j join remain cost,
         candidateAt stats s curJoinTree j join remain cost ->
         leb MaxFloat64 cost = true) ->
     (forall merged s', growStep stats s curJoinTree <> (StepMerged merged, s')) /\
     ((forall j join remain cost,
          candidateAt stats s curJoinTree j join remain cost ->
          deriveStatsError stats join = None) ->
      growStep stats s curJoinTree = (StepExhausted, s) /\
      forall fuel,
        growLoop stats (S fuel) s curJoinTree = Returns ((Some curJoinTree, None), s))).
Proof.
  intros stats s t. split.
  - intros st j join remain cost Hscan Hcand Hge Hidx.
    pose proof (scan_step_invariant _ _ _ _ Hscan) as [Hnone Hsome _].
    destruct (bestJoin st) as [bj|] eqn:Hb.
    + destruct (Hsome bj eq_refl) as (b & Hb' & _ & Hcb & Hmax & _).
      assert (b = j) by lia. subst b.
      destruct (candidateIn_fun _ _ _ _ _ _ _ _ _ _ _ Hcand Hcb) as (_ & _ & ->).
      apply leb_not_gtb in Hge. congruence.
    + rewrite (Hnone eq_refl) in Hidx. simpl in Hidx. lia.
  - intros Hall.
    assert (Hno : forall merged s', growStep stats s t <> (StepMerged merged, s')).
    { intros merged s' Hg.
      destruct (growStep_merged _ _ _ _ _ Hg)
        as (st & b & _ & _ & _ & _ & _ & _ & Hcand).
      destruct (growStep_merged _ _ _ _ _ Hg)
        as (st' & b' & Hscan & Hjoin & Hcost & _).
      pose proof (scan_step_invariant _ _ _ _ Hscan) as [_ Hsome _].
      destruct (Hsome _ Hjoin) as (b0 & _ & _ & _ & Hmax & _).
      apply Hall, leb_not_gtb in Hcand. congruence. }
    split; [exact Hno|]. intros Hok.
    assert (Hstep : growStep stats s t = (StepExhausted, s)).
    { destruct (growStep stats s t) as [[err| |merged] s'] eqn:Hg.
      - destruct (growStep_error _ _ _ _ _ Hg) as (_ & node & join & remain & Hin & Hc & Herr).
        destruct (In_nth_error _ _ Hin) as (j & Hj).
        assert (Hcand : candidateAt stats s t j join remain
                          (calcJoinCumCost stats join t node)) by (exists node; auto).
        rewrite (Hok _ _ _ _ Hcand) in Herr. discriminate.
      - f_equal. eapply growStep_not_merged; [eassumption | discriminate].
      - elim (Hno merged s' eq_refl). }
    split; [exact Hstep|]. intros fuel. simpl. now rewrite Hstep.
Qed.

Lemma sentinel_cost_candidate_never_selected_witness :
  (forall j join remain cost,
      candidateAt ExampleStats.infiniteJoins Star.afterSeed Star.nodeA j join remain cost ->
      leb MaxFloat64 cost = true) /\
  growLoop ExampleStats.infiniteJoins 1 Star.afterSeed Star.nodeA =
    Returns ((Some Star.nodeA, None), Star.afterSeed).
Proof.
  assert (Hall : forall j join remain cost,
      candidateAt ExampleStats.infiniteJoins Star.afterSeed Star.nodeA j join remain cost ->
      leb MaxFloat64 cost = true).
  { intros j join remain cost (node & Hn & Hc & <-).
    destruct j as [|[|j]]; simpl in Hn.
    - injection Hn as <-. vm_compute in Hc. injection Hc as <- _. vm_compute; reflexivity.
    - injection Hn as <-. vm_compute in Hc. injection Hc as <- _. vm_compute; reflexivity.
    - destruct j; discriminate Hn. }
  split; [exact Hall|].
  destruct (sentinel_cost_candidate_never_selected
              ExampleStats.infiniteJoins Star.afterSeed Star.nodeA) as [_ H].
  destruct (H Hall) as [_ Hloop].
  destruct Hloop as [_ Hloop]; [reflexivity|].
  exact (Hloop 0).
Defined.

(* ================================================================== *)
(** * Further properties of the solver *)

(* ------------------------------------------------------------------ *)
(** ** More order facts on binary64 *)

Lemma SFcompare_eq_trans (x y z : float64) :
  SFcompare x y = Some Eq -> SFcompare y z = Some Eq -> SFcompare x z = Some Eq.
Proof.
  destruct x as [sx|sx| |sx mx ex], y as [sy|sy| |sy my ey], z as [sz|sz| |sz mz ez];
    simpl; try discriminate;
    try destruct sx; try destruct sy; try destruct sz;
    simpl; try discriminate; try reflexivity;
    intros H1 H2; injection H1 as H1; injection H2 as H2; f_equal;
    Float64Facts.split_compare.
Qed.

Lemma SFcompare_lt_eq (x y z : float64) :
  SFcompare x y = Some Lt -> SFcompare y z = Some Eq -> SFcompare x z = Some Lt.
Proof.
  destruct x as [sx|sx| |sx mx ex], y as [sy|sy| |sy my ey], z as [sz|sz| |sz mz ez];
    simpl; try discriminate;
    try destruct sx; try destruct sy; try destruct sz;
    simpl; try discriminate; try reflexivity;
    intros H1 H2; injection H1 as H1; injection H2 as H2; f_equal;
    Float64Facts.split_compare.
Qed.

Lemma SFcompare_eq_sym (x y : float64) :
  SFcompare x y = Some Eq -> SFcompare y x = Some Eq.
Proof. intros H. now rewrite SFcompare_antisym, H. Qed.

Lemma leb_trans x y z : leb x y = true -> leb y z = true -> leb x z = true.
Proof.
  unfold leb, SFleb. intros H1 H2.
  destruct (SFcompare x y) as [[]|] eqn:E1; try discriminate;
    destruct (SFcompare y z) as [[]|] eqn:E2; try discriminate.
  - now rewrite (SFcompare_eq_trans _ _ _ E1 E2).
  - now rewrite (SFcompare_eq_lt _ _ _ E1 E2).
  - now rewrite (SFcompare_lt_eq _ _ _ E1 E2).
  - now rewrite (SFcompare_lt_trans _ _ _ E1 E2).
Qed.

Lemma ltb_asym x y : ltb x y = true -> ltb y x = false.
Proof.
  unfold ltb, SFltb. rewrite (SFcompare_antisym x y).
  destruct (SFcompare x y) as [[]|]; simpl; congruence.
Qed.

(** Two costs equal to a third are not strictly ordered. *)
Lemma eqb_class_not_ltb x y c :
  eqb x c = true -> eqb y c = true -> ltb x y = false.
Proof.
  unfold eqb, ltb, SFeqb, SFltb. intros H1 H2.
  destruct (SFcompare x c) as [[]|] eqn:E1; try discriminate.
  destruct (SFcompare y c) as [[]|] eqn:E2; try discriminate.
  now rewrite (SFcompare_eq_trans _ _ _ E1 (SFcompare_eq_sym _ _ E2)).
Qed.

(* ------------------------------------------------------------------ *)
(** ** The stable sort of the group *)

Lemma sinkLeft_descending x revPrefix :
  Sorted (fun a b => notCheaper b a) revPrefix ->
  Sorted (fun a b => notCheaper b a) (sinkLeft x revPrefix).
Proof.
  induction revPrefix as [|y rest IH]; intros Hs; simpl.
  - repeat constructor.
  - destruct (ltb (cumCost x) (cumCost y)) eqn:Hxy.
    + apply Sorted_inv in Hs. destruct Hs as [Hrest Hhd].
      constructor; [now apply IH|].
      destruct rest as [|z rest']; simpl.
      * constructor. unfold notCheaper. now apply ltb_asym.
      * destruct (ltb (cumCost x) (cumCost z)).
        -- constructor. now inversion Hhd.
        -- constructor. unfold notCheaper. now apply ltb_asym.
    + constructor; [assumption|]. constructor. exact Hxy.
Qed.

Lemma fold_sinkLeft_descending group :
  forall revPrefix,
    Sorted (fun a b => notCheaper b a) revPrefix ->
    Sorted (fun a b => notCheaper b a)
           (fold_left (fun acc x => sinkLeft x acc) group revPrefix).
Proof.
  induction group as [|x rest IH]; intros acc Hs; simpl; [assumption|].
  apply IH. now apply sinkLeft_descending.
Qed.

Lemma Sorted_snoc (A : Type) (R : A -> A -> Prop) (l : list A) (a : A) :
  Sorted R l ->
  HdRel (fun x y => R y x) a (rev l) ->
  Sorted R (l ++ [a]).
Proof.
  induction l as [|b l IH]; intros Hs Hhd; simpl.
  - repeat constructor.
  - apply Sorted_inv in Hs. destruct Hs as [Hl Hb].
    constructor.
    + apply IH; [assumption|].
      simpl in Hhd. destruct (rev l) as [|c m]; [constructor|].
      simpl in Hhd. constructor. now inversion Hhd.
    + destruct l as [|c l']; simpl.
      * constructor. simpl in Hhd. now inversion Hhd.
      * constructor. now inversion Hb.
Qed.

Lemma Sorted_rev (A : Type) (R : A -> A -> Prop) (l : list A) :
  Sorted (fun a b => R b a) l -> Sorted R (rev l).
Proof.
  induction l as [|a l IH]; intros Hs; simpl; [constructor|].
  apply Sorted_inv in Hs. destruct Hs as [Hl Ha].
  apply Sorted_snoc; [now apply IH|].
  rewrite rev_involutive. exact Ha.
Qed.

Lemma Sorted_impl_In (A : Type) (R1 R2 : A -> A -> Prop) (l : list A) :
  (forall a b, In a l -> In b l -> R1 a b -> R2 a b) ->
  Sorted R1 l -> Sorted R2 l.
Proof.
  induction l as [|a l IH]; intros Himp Hs; [constructor|].
  apply Sorted_inv in Hs. destruct Hs as [Hl Ha].
  constructor.
  - apply IH; [|assumption]. intros x y Hx Hy. apply Himp; now right.
  - destruct l as [|b l']; constructor.
    apply Himp; [now left | right; now left | now inversion Ha].
Qed.

Lemma sinkLeft_filter c x revPrefix :
  filter (sameCost c) (sinkLeft x revPrefix) =
  (if sameCost c x then [x] else []) ++ filter (sameCost c) revPrefix.
Proof.
  induction revPrefix as [|y rest IH]; simpl.
  - now destruct (sameCost c x).
  - destruct (ltb (cumCost x) (cumCost y)) eqn:Hxy;
      [|simpl; now destruct (sameCost c x)].
    simpl. rewrite IH.
    destruct (sameCost c x) eqn:Hx; [|reflexivity].
    destruct (sameCost c y) eqn:Hy; [|reflexivity].
    unfold sameCost in Hx, Hy.
    rewrite (eqb_class_not_ltb _ _ _ Hx Hy) in Hxy. discriminate.
Qed.

Lemma fold_sinkLeft_filter c group :
  forall revPrefix,
    filter (sameCost c) (fold_left (fun acc x => sinkLeft x acc) group revPrefix) =
    rev (filter (sameCost c) group) ++ filter (sameCost c) revPrefix.
Proof.
  induction group as [|x rest IH]; intros acc; simpl; [reflexivity|].
  rewrite IH, sinkLeft_filter.
  destruct (sameCost c x); simpl; [|reflexivity].
  now rewrite <- app_assoc.
Qed.

Lemma SliceStable_ascending group :
  (forall node, In node group -> isNaN (cumCost node) = false) ->
  StronglySorted costLe (SliceStable group).
Proof.
  intros Hnan. apply Sorted_StronglySorted.
  - intros a b c. unfold costLe. apply leb_trans.
  - apply (Sorted_impl_In _ notCheaper costLe).
    + intros a b Ha Hb Hab. unfold notCheaper in Hab. unfold costLe.
      apply not_ltb_leb; [| |exact Hab]; apply Hnan;
        eapply Permutation_in; try apply SliceStable_Permutation; assumption.
    + unfold SliceStable. apply Sorted_rev.
      apply fold_sinkLeft_descending. constructor.
Qed.

(** Property X1.  The sort of line 56 rearranges the group without losing
    or adding a node; and unless some cost is a NaN, the sorted group is in
    ascending order of cost throughout, and the nodes of any given cost
    keep the order they had in the input (the sort is stable). *)
Theorem SliceStable_sorts_by_cost_and_keeps_ties_in_order :
  forall group : list jrNode,
    (forall node, In node group -> isNaN (cumCost node) = false) ->
    Permutation (SliceStable group) group /\
    StronglySorted costLe (SliceStable group) /\
    (forall c, filter (sameCost c) (SliceStable group) = filter (sameCost c) group).
Proof.
  intros group Hnan.
  split; [apply SliceStable_Permutation|].
  split; [now apply SliceStable_ascending|].
  intros c. unfold SliceStable.
  rewrite filter_rev, fold_sinkLeft_filter. simpl.
  now rewrite app_nil_r, rev_involutive.
Qed.

Lemma SliceStable_sorts_by_cost_and_keeps_ties_in_order_witness :
  SliceStable [mkJrNode Examples.C (ofZ 3); mkJrNode Examples.A (ofZ 1);
               mkJrNode Examples.D (ofZ 3); mkJrNode Examples.B (ofZ 1)] =
    [mkJrNode Examples.A (ofZ 1); mkJrNode Examples.B (ofZ 1);
     mkJrNode Examples.C (ofZ 3); mkJrNode Examples.D (ofZ 3)] /\
  StronglySorted costLe
    (SliceStable [mkJrNode Examples.C (ofZ 3); mkJrNode Examples.A (ofZ 1);
                  mkJrNode Examples.D (ofZ 3); mkJrNode Examples.B (ofZ 1)]).
Proof.
  split; [vm_compute; reflexivity|].
  apply (SliceStable_sorts_by_cost_and_keeps_ties_in_order
           [mkJrNode Examples.C (ofZ 3); mkJrNode Examples.A (ofZ 1);
            mkJrNode Examples.D (ofZ 3); mkJrNode Examples.B (ofZ 1)]).
  intros node [<- | [<- | [<- | [<- | []]]]]; vm_compute; reflexivity.
Defined.

(* ------------------------------------------------------------------ *)
(** ** Invariants of a run *)

(** A property of the trees built so far and of the solver that survives
    taking a seed and committing a merge, and does not depend on the order
    of the trees, holds all along the component loop. *)
Lemma grows_invariant stats (Inv : list LogicalPlan -> joinReorderGreedySolver -> Prop) :
  (forall trees s t t' s',
      Inv (p t :: trees) s -> growStep stats s t = (StepMerged t', s') ->
      Inv (p t' :: trees) s') ->
  forall trees s t s' t',
    grows stats s t s' t' -> Inv (p t :: trees) s -> Inv (p t' :: trees) s'.
Proof.
  intros Hmerge trees s t s' t' Hgr.
  induction Hgr as [s t|s t s1 t1 s' t' Hg Hgr IH]; intros HI; [assumption|].
  apply IH. eapply Hmerge; eassumption.
Qed.

Lemma collects_invariant stats (Inv : list LogicalPlan -> joinReorderGreedySolver -> Prop) :
  (forall built built' s, Permutation built built' -> Inv built s -> Inv built' s) ->
  (forall trees s seed rest,
      Inv trees s -> curJoinGroup s = seed :: rest ->
      Inv (p seed :: trees) (mkSolver rest (otherConds s) (eqEdges s))) ->
  (forall trees s t t' s',
      Inv (p t :: trees) s -> growStep stats s t = (StepMerged t', s') ->
      Inv (p t' :: trees) s') ->
  forall s trees s' trees',
    collects stats s trees s' trees' -> Inv trees s -> Inv trees' s'.
Proof.
  intros Hperm Hseed Hmerge s trees s' trees' Hc.
  induction Hc as [s trees|s trees seed rest s1 t1 s' trees' Hg Hgr Hlast Hc IH];
    intros HI; [assumption|].
  apply IH. apply (Hperm (p t1 :: trees)).
  - change (p t1 :: trees) with ([p t1] ++ trees). apply Permutation_app_comm.
  - apply (grows_invariant stats Inv Hmerge _ _ _ _ _ Hgr).
    now apply Hseed.
Qed.

(** What a run of [solveComponents] that returns component trees went
    through. *)
Lemma solveComponents_success_inv stats fuel plans s trees s' :
  solveComponents stats fuel plans s = Returns (inl trees, s') ->
  (forall node, In node plans -> deriveStatsError stats node = None) /\
  collects stats (seeded stats plans s) [] s' trees /\
  curJoinGroup s' = [].
Proof.
  intros Hrun.
  destruct (seedGroup_cases stats plans)
    as [Hok | (pre & node & post & e & -> & Hpre & Herr)].
  - split; [assumption|]. rewrite solveComponents_ok in Hrun by assumption.
    destruct (componentLoop_collects _ _ _ _ _ _ Hrun)
      as [(trees' & Heq & Hc & Hnil) | (e & sk & gk & seed & rest & last & Heq & _)].
    + injection Heq as <-. auto.
    + discriminate.
  - unfold solveComponents in Hrun.
    rewrite (seedGroup_error stats pre s node post e Hpre Herr) in Hrun.
    discriminate.
Qed.

Lemma seeded_members stats plans s :
  curJoinGroup s = [] ->
  (forall node, In node plans -> deriveStatsError stats node = None) ->
  Permutation (map p (curJoinGroup (seeded stats plans s))) plans.
Proof.
  intros Hfresh Hok. rewrite seeded_ok by assumption. rewrite Hfresh. simpl.
  eapply Permutation_trans; [apply Permutation_map, SliceStable_Permutation|].
  rewrite map_map. simpl. now rewrite map_id.
Qed.

Lemma joinFree_not_join plan : joinFree plan -> ~ isJoin plan.
Proof. destruct plan; simpl; auto. Qed.

Lemma joinFree_leavesOf plan : joinFree plan -> leavesOf plan = [plan].
Proof. destruct plan; simpl; auto. intros []. Qed.

Lemma joinFree_grownLeftDeep plan : joinFree plan -> grownLeftDeep plan.
Proof. destruct plan; simpl; auto. intros []. Qed.

(* ------------------------------------------------------------------ *)
(** ** The shape of the component trees *)

Lemma shaped_Permutation members built built' s :
  Permutation built built' -> shaped members built s -> shaped members built' s.
Proof.
  intros Hp [Ht Hm Hl]. constructor; auto.
  - rewrite Forall_forall in *. intros x Hx. apply Ht.
    eapply Permutation_in; [apply Permutation_sym, Hp | exact Hx].
  - eapply Permutation_trans; [|exact Hl].
    apply Permutation_app_tail, Permutation_flat_map, Permutation_sym, Hp.
Qed.

Lemma shaped_seed members trees s seed rest :
  shaped members trees s ->
  curJoinGroup s = seed :: rest ->
  shaped members (p seed :: trees) (mkSolver rest (otherConds s) (eqEdges s)).
Proof.
  intros [Ht Hm Hl] Hg. rewrite Hg in Hm, Hl. simpl in Hm, Hl.
  pose proof (Forall_inv Hm) as Hseed. pose proof (Forall_inv_tail Hm) as Hrest.
  constructor; simpl; auto.
  - constructor; [now apply joinFree_grownLeftDeep | assumption].
  - rewrite (joinFree_leavesOf _ Hseed). simpl.
    eapply Permutation_trans; [|exact Hl].
    apply Permutation_middle.
Qed.

Lemma shaped_merge stats members trees s t t' s' :
  shaped members (p t :: trees) s ->
  growStep stats s t = (StepMerged t', s') ->
  shaped members (p t' :: trees) s'.
Proof.
  intros [Ht Hm Hl] Hg.
  destruct (growStep_merged_shape _ _ _ _ _ Hg)
    as (pre & node & post & Hcjg & Hcjg' & _ & Hused & Hp' & _).
  rewrite Hcjg in Hm, Hl. rewrite map_app in Hm. apply Forall_app in Hm.
  destruct Hm as [Hpre Hpost]. simpl in Hpost.
  pose proof (Forall_inv Hpost) as Hnode. pose proof (Forall_inv_tail Hpost) as Hpost'.
  constructor.
  - constructor; [|exact (Forall_inv_tail Ht)].
    rewrite Hp'. simpl. split; [exact (Forall_inv Ht)|]. split; assumption.
  - rewrite Hcjg', map_app. apply Forall_app. split; assumption.
  - rewrite Hcjg'. simpl. rewrite Hp'. simpl.
    rewrite (joinFree_leavesOf _ Hnode).
    eapply Permutation_trans; [|exact Hl]. simpl.
    rewrite !map_app. simpl. rewrite <- !app_assoc.
    apply Permutation_app_head. simpl.
    eapply Permutation_trans; [apply (Permutation_middle _ _ (p node))|].
    apply Permutation_app_head.
    change (p node :: map p pre ++ map p post)
      with ([p node] ++ map p pre ++ map p post).
    eapply Permutation_trans; [apply Permutation_app_swap_app|].
    apply Permutation_app_head. reflexivity.
Qed.

Lemma shaped_run stats plans s trees s' fuel :
  curJoinGroup s = [] ->
  Forall joinFree plans ->
  solveComponents stats fuel plans s = Returns (inl trees, s') ->
  shaped plans trees s' /\ curJoinGroup s' = [].
Proof.
  intros Hfresh Hfree Hrun.
  destruct (solveComponents_success_inv _ _ _ _ _ _ Hrun) as (Hok & Hc & Hnil).
  split; [|exact Hnil].
  apply (collects_invariant stats (shaped plans)
           (shaped_Permutation plans) (shaped_seed plans) (shaped_merge stats plans)
           _ _ _ _ Hc).
  pose proof (seeded_members stats plans s Hfresh Hok) as Hperm.
  constructor; simpl; auto.
  rewrite Forall_forall in *. intros x Hx. apply Hfree.
  eapply Permutation_in; [exact Hperm | exact Hx].
Qed.

(** Property X2.  When [solve] gets through the component loop on a fresh
    solver, every member of the group is a leaf of exactly one component
    tree and the trees have no other leaves; so there is at least one tree
    for a group that is not empty, and never more trees than members. *)
Theorem component_trees_have_the_members_as_leaves :
  forall (stats : StatsCollaborator) (fuel : nat) (joinNodePlans : list LogicalPlan)
         (s : joinReorderGreedySolver) (trees : list LogicalPlan)
         (s' : joinReorderGreedySolver),
    curJoinGroup s = [] ->
    Forall joinFree joinNodePlans ->
    solveComponents stats fuel joinNodePlans s = Returns (inl trees, s') ->
    Permutation (flat_map leavesOf trees) joinNodePlans /\
    (joinNodePlans <> [] -> trees <> []) /\
    length trees <= length joinNodePlans.
Proof.
  intros stats fuel plans s trees s' Hfresh Hfree Hrun.
  destruct (shaped_run _ _ _ _ _ _ Hfresh Hfree Hrun) as [[_ _ Hl] Hnil].
  rewrite Hnil in Hl. simpl in Hl. rewrite app_nil_r in Hl.
  split; [exact Hl|]. split.
  - intros Hne ->. simpl in Hl. apply Permutation_nil in Hl. congruence.
  - rewrite <- (Permutation_length Hl). clear.
    induction trees as [|t trees IH]; simpl; [lia|].
    rewrite length_app.
    assert (1 <= length (leavesOf t)).
    { clear. induction t; simpl; try lia. rewrite length_app. lia. }
    lia.
Qed.

Lemma component_trees_have_the_members_as_leaves_witness :
  solveComponents ExampleStats.unit 4 FourMembers.members Examples.chain =
    Returns (inl [FourMembers.treeABC; Examples.D], FourMembers.leftover) /\
  Permutation (flat_map leavesOf [FourMembers.treeABC; Examples.D]) FourMembers.members /\
  (FourMembers.members <> [] -> [FourMembers.treeABC; Examples.D] <> []) /\
  length [FourMembers.treeABC; Examples.D] <= length FourMembers.members.
Proof.
  split; [vm_compute; reflexivity|].
  apply (component_trees_have_the_members_as_leaves
           ExampleStats.unit 4 FourMembers.members Examples.chain
           [FourMembers.treeABC; Examples.D] FourMembers.leftover).
  - reflexivity.
  - repeat constructor.
  - vm_compute; reflexivity.
Defined.

(** Property X3.  Every component tree is grown left-deep: it is a member,
    or a join whose right child is a single member, whose left child is
    again such a tree, and which carries at least one equality condition.
    No cross join is ever built inside a component. *)
Theorem component_trees_are_left_deep_equality_joins :
  forall (stats : StatsCollaborator) (fuel : nat) (joinNodePlans : list LogicalPlan)
         (s : joinReorderGreedySolver) (trees : list LogicalPlan)
         (s' : joinReorderGreedySolver),
    curJoinGroup s = [] ->
    Forall joinFree joinNodePlans ->
    solveComponents stats fuel joinNodePlans s = Returns (inl trees, s') ->
    Forall grownLeftDeep trees.
Proof.
  intros stats fuel plans s trees s' Hfresh Hfree Hrun.
  destruct (shaped_run _ _ _ _ _ _ Hfresh Hfree Hrun) as [[Ht _ _] _].
  exact Ht.
Qed.

Lemma component_trees_are_left_deep_equality_joins_witness :
  solveComponents ExampleStats.unit 4 FourMembers.members Examples.chain =
    Returns (inl [FourMembers.treeABC; Examples.D], FourMembers.leftover) /\
  Forall grownLeftDeep [FourMembers.treeABC; Examples.D].
Proof.
  split; [vm_compute; reflexivity|].
  apply (component_trees_are_left_deep_equality_joins
           ExampleStats.unit 4 FourMembers.members Examples.chain
           [FourMembers.treeABC; Examples.D] FourMembers.leftover).
  - reflexivity.
  - repeat constructor.
  - vm_compute; reflexivity.
Defined.

(* ------------------------------------------------------------------ *)
(** ** Residual predicates are attached at the earliest join *)

Lemma earliest_Permutation built built' s :
  Permutation built built' -> earliest built s -> earliest built' s.
Proof.
  intros Hp [Ht Hm Hpend]. constructor; auto;
    rewrite Forall_forall in *; intros x Hx;
    [apply Ht | apply Hpend];
    (eapply Permutation_in; [apply Permutation_sym, Hp | exact Hx]).
Qed.

Lemma earliest_seed trees s seed rest :
  earliest trees s ->
  curJoinGroup s = seed :: rest ->
  earliest (p seed :: trees) (mkSolver rest (otherConds s) (eqEdges s)).
Proof.
  intros [Ht Hm Hpend] Hg. rewrite Hg in Hm. simpl in Hm.
  pose proof (Forall_inv Hm) as Hseed. pose proof (Forall_inv_tail Hm) as Hrest.
  constructor; simpl; auto.
  - constructor; [|assumption]. destruct (p seed); simpl in *; auto. destruct Hseed.
  - constructor; [|assumption].
    intros Hj. elim (joinFree_not_join _ Hseed Hj).
Qed.

Lemma earliest_merge stats trees s t t' s' :
  earliest (p t :: trees) s ->
  growStep stats s t = (StepMerged t', s') ->
  earliest (p t' :: trees) s'.
Proof.
  intros [Ht Hm Hpend] Hg.
  destruct (growStep_merged_shape _ _ _ _ _ Hg)
    as (pre & node & post & Hcjg & Hcjg' & _ & _ & Hp' & Hoc').
  rewrite Hcjg in Hm. rewrite map_app in Hm. apply Forall_app in Hm.
  destruct Hm as [Hpre Hpost]. simpl in Hpost.
  pose proof (Forall_inv_tail Hpost) as Hpost'.
  constructor.
  - constructor; [|exact (Forall_inv_tail Ht)].
    rewrite Hp'. simpl. split; [exact (Forall_inv Ht)|].
    intros Hj expr Hx. apply in_rev, filter_In in Hx.
    exact (Forall_inv Hpend Hj expr (proj1 Hx)).
  - rewrite Hcjg', map_app. apply Forall_app. split; assumption.
  - constructor.
    + intros _ expr Hx. rewrite Hoc' in Hx. apply filter_In in Hx.
      destruct Hx as [_ Hx]. apply negb_true_iff in Hx.
      rewrite Hp'. simpl. intros Hcov.
      apply (proj2 (ExprFromSchema_spec _ _)) in Hcov. congruence.
    + pose proof (Forall_inv_tail Hpend) as Hrest.
      rewrite Forall_forall in *. intros tree Htree Hj expr Hx.
      rewrite Hoc' in Hx. apply filter_In in Hx.
      exact (Hrest tree Htree Hj expr (proj1 Hx)).
Qed.

(** Property X4.  In every component tree a residual predicate sits at the
    earliest join that can evaluate it: a predicate attached to a join is
    not covered by the schema of the join below it.  And a predicate still
    pending when the component loop ends is covered by no component tree
    that is a join. *)
Theorem residuals_are_attached_at_the_earliest_join :
  forall (stats : StatsCollaborator) (fuel : nat) (joinNodePlans : list LogicalPlan)
         (s : joinReorderGreedySolver) (trees : list LogicalPlan)
         (s' : joinReorderGreedySolver),
    curJoinGroup s = [] ->
    Forall joinFree joinNodePlans ->
    solveComponents stats fuel joinNodePlans s = Returns (inl trees, s') ->
    Forall attachedEarliest trees /\
    (forall tree expr,
        In tree trees -> isJoin tree -> In expr (otherConds s') ->
        ~ coveredBy (PlanSchema tree) expr).
Proof.
  intros stats fuel plans s trees s' Hfresh Hfree Hrun.
  destruct (solveComponents_success_inv _ _ _ _ _ _ Hrun) as (Hok & Hc & Hnil).
  assert (Hinit : earliest [] (seeded stats plans s)).
  { pose proof (seeded_members stats plans s Hfresh Hok) as Hperm.
    constructor; simpl; auto.
    rewrite Forall_forall in *. intros x Hx. apply Hfree.
    eapply Permutation_in; [exact Hperm | exact Hx]. }
  pose proof (collects_invariant stats earliest
                earliest_Permutation earliest_seed (earliest_merge stats)
                _ _ _ _ Hc Hinit) as [Ht _ Hpend].
  split; [exact Ht|].
  intros tree expr Hin Hj Hx. rewrite Forall_forall in Hpend.
  exact (Hpend tree Hin Hj expr Hx).
Qed.

Lemma residuals_are_attached_at_the_earliest_join_witness :
  solveComponents ExampleStats.unit 4 FourMembers.members Examples.chain =
    Returns (inl [FourMembers.treeABC; Examples.D], FourMembers.leftover) /\
  Forall attachedEarliest [FourMembers.treeABC; Examples.D] /\
  (forall tree expr,
      In tree [FourMembers.treeABC; Examples.D] -> isJoin tree ->
      In expr (otherConds FourMembers.leftover) ->
      ~ coveredBy (PlanSchema tree) expr).
Proof.
  split; [vm_compute; reflexivity|].
  apply (residuals_are_attached_at_the_earliest_join
           ExampleStats.unit 4 FourMembers.members Examples.chain
           [FourMembers.treeABC; Examples.D] FourMembers.leftover).
  - reflexivity.
  - repeat constructor.
  - vm_compute; reflexivity.
Defined.

(* ------------------------------------------------------------------ *)
(** ** The cost of a built tree *)

Lemma growStep_merged_below stats s t t' s' :
  growStep stats s t = (StepMerged t', s') ->
  isJoin (p t') /\ ltb (cumCost t') MaxFloat64 = true.
Proof.
  intros Hg.
  destruct (growStep_merged_shape _ _ _ _ _ Hg)
    as (pre & node & post & _ & _ & _ & _ & Hp' & _).
  destruct (growStep_merged _ _ _ _ _ Hg) as (st & b & Hscan & Hjoin & Hcost & _).
  pose proof (scan_step_invariant _ _ _ _ Hscan) as [_ Hsome _].
  destruct (Hsome _ Hjoin) as (b0 & _ & _ & _ & Hmax & _).
  rewrite Hp'. split; [exact I | congruence].
Qed.

Lemma grows_unchanged_or_below stats s t s' t' :
  grows stats s t s' t' ->
  (s' = s /\ t' = t) \/
  (isJoin (p t') /\ ltb (cumCost t') MaxFloat64 = true).
Proof.
  induction 1 as [s t|s t s1 t1 s' t' Hg Hgr IH]; [now left|].
  right. destruct IH as [[-> ->] | H]; [|exact H].
  eapply growStep_merged_below; eassumption.
Qed.

(** Property X5.  The tree [constructConnectedJoinTree] returns is either
    the seed, the first node of the group, with the rest of the group left
    as it was, or a join whose cumulative cost is strictly below
    [math.MaxFloat64]: a committed cost is never +Inf and never a NaN. *)
Theorem returned_tree_is_the_seed_or_costs_below_sentinel :
  forall (stats : StatsCollaborator) (fuel : nat) (s : joinReorderGreedySolver)
         (node : jrNode) (s' : joinReorderGreedySolver),
    constructConnectedJoinTree stats fuel s = Returns ((Some node, None), s') ->
    (exists rest, curJoinGroup s = node :: rest /\
                  s' = mkSolver rest (otherConds s) (eqEdges s)) \/
    (isJoin (p node) /\ ltb (cumCost node) MaxFloat64 = true /\
     isNaN (cumCost node) = false /\ cumCost node <> PosInf).
Proof.
  intros stats fuel s node s' Hrun. unfold constructConnectedJoinTree in Hrun.
  destruct (curJoinGroup s) as [|seed rest] eqn:Hg; [discriminate|].
  destruct (growLoop_grows _ _ _ _ _ _ Hrun)
    as (last & Hgr & [[Heq _] | (err & Heq & _)]); [|discriminate].
  injection Heq as <-.
  destruct (grows_unchanged_or_below _ _ _ _ _ Hgr) as [[-> ->] | [Hj Hlt]].
  - left. exists rest. auto.
  - right. split; [exact Hj|]. split; [exact Hlt|]. split.
    + eapply ltb_true_not_NaN_l; eassumption.
    + intros Hinf. rewrite Hinf in Hlt. discriminate Hlt.
Qed.

Lemma returned_tree_is_the_seed_or_costs_below_sentinel_witness :
  constructConnectedJoinTree ExampleStats.unit 3 ChainRun.start =
    Returns ((Some (mkJrNode FourMembers.treeABC (ofZ 5)), None),
             mkSolver [] [Examples.overAD] [Examples.edgeAB; Examples.edgeCB]) /\
  ((exists rest, curJoinGroup ChainRun.start = mkJrNode FourMembers.treeABC (ofZ 5) :: rest /\
                 mkSolver [] [Examples.overAD] [Examples.edgeAB; Examples.edgeCB] =
                   mkSolver rest (otherConds ChainRun.start) (eqEdges ChainRun.start)) \/
   (isJoin FourMembers.treeABC /\ ltb (ofZ 5) MaxFloat64 = true /\
    isNaN (ofZ 5) = false /\ ofZ 5 <> PosInf)).
Proof.
  split; [vm_compute; reflexivity|].
  apply (returned_tree_is_the_seed_or_costs_below_sentinel
           ExampleStats.unit 3 ChainRun.start
           (mkJrNode FourMembers.treeABC (ofZ 5))
           (mkSolver [] [Examples.overAD] [Examples.edgeAB; Examples.edgeCB])).
  vm_compute; reflexivity.
Defined.

(* ------------------------------------------------------------------ *)
(** ** The solver after [solve] *)

Lemma filter_filter_andb (A : Type) (f g : A -> bool) (l : list A) :
  filter f (filter g l) = filter (fun x => g x && f x) l.
Proof.
  induction l as [|x l IH]; simpl; [reflexivity|].
  destruct (g x); simpl; [|exact IH]. destruct (f x); simpl; congruence.
Qed.

Lemma filter_all (A : Type) (l : list A) : l = filter (fun _ => true) l.
Proof. induction l as [|x l IH]; simpl; congruence. Qed.

Lemma grows_fields stats s t s' t' :
  grows stats s t s' t' ->
  eqEdges s' = eqEdges s /\
  exists keep, otherConds s' = filter keep (otherConds s).
Proof.
  induction 1 as [s t|s t s1 t1 s' t' Hg Hgr IH].
  - split; [reflexivity|]. exists (fun _ => true). apply filter_all.
  - destruct (growStep_merged_shape _ _ _ _ _ Hg)
      as (pre & node & post & _ & _ & He & _ & _ & Hoc).
    destruct IH as (He' & keep & Hk). split; [congruence|].
    rewrite Hk, Hoc, filter_filter_andb. eexists. reflexivity.
Qed.

Lemma collects_fields stats s trees s' trees' :
  collects stats s trees s' trees' ->
  eqEdges s' = eqEdges s /\
  exists keep, otherConds s' = filter keep (otherConds s).
Proof.
  induction 1 as [s trees|s trees seed rest s1 t1 s' trees' Hg Hgr Hlast Hc IH].
  - split; [reflexivity|]. exists (fun _ => true). apply filter_all.
  - destruct (grows_fields _ _ _ _ _ Hgr) as (He1 & k1 & Hk1). simpl in He1, Hk1.
    destruct IH as (He & k & Hk). split; [congruence|].
    rewrite Hk, Hk1, filter_filter_andb. eexists. reflexivity.
Qed.

(** Property X6.  Whatever [solve] returns, it leaves the equality edges
    of the solver as they were, and the pending list it leaves is the
    initial one with some predicates taken out: nothing is added and the
    order is kept.  After a successful [solve] the group is empty. *)
Theorem solve_keeps_edges_and_only_shortens_pending_list :
  forall (stats : StatsCollaborator) (joinNodePlans : list LogicalPlan)
         (s : joinReorderGreedySolver)
         (res : option LogicalPlan * option error) (s' : joinReorderGreedySolver),
    solve stats joinNodePlans s = Returns (res, s') ->
    eqEdges s' = eqEdges s /\
    (exists keep, otherConds s' = filter keep (otherConds s)) /\
    (snd res = None -> curJoinGroup s' = []).
Proof.
  intros stats plans s [plan [err|]] s' Hrun.
  - destruct (solve_error_inv _ _ _ _ _ _ Hrun)
      as [_ [(pre & node & post & -> & Hpre & Herr)
            | (Hok & sk & gk & seed & rest & last & Hc & Hsk & Hgr & _)]].
    + rewrite (solve_seeding_failure stats _ s pre node post err eq_refl Hpre Herr) in Hrun.
      injection Hrun as _ Hs. subst s'. simpl. split; [reflexivity|].
      split; [|discriminate]. exists (fun _ => true). apply filter_all.
    + destruct (collects_fields _ _ _ _ _ Hc) as (He1 & k1 & Hk1).
      destruct (grows_fields _ _ _ _ _ Hgr) as (He2 & k2 & Hk2).
      simpl in He2, Hk2. rewrite seeded_ok in He1, Hk1 by assumption.
      simpl in He1, Hk1.
      split; [congruence|]. split; [|discriminate].
      rewrite Hk2, Hk1, filter_filter_andb. eexists. reflexivity.
  - destruct (solve_success_inv _ _ _ _ _ Hrun) as (Hok & trees & Hc & Hnil & _).
    destruct (collects_fields _ _ _ _ _ Hc) as (He1 & k1 & Hk1).
    rewrite seeded_ok in He1, Hk1 by assumption. simpl in He1, Hk1.
    split; [exact He1|]. split; [|intros _; exact Hnil].
    exists k1. exact Hk1.
Qed.

Lemma solve_keeps_edges_and_only_shortens_pending_list_witness :
  solve ExampleStats.unit FourMembers.members Examples.chain =
    Returns ((Some FourMembers.final, None), FourMembers.leftover) /\
  eqEdges FourMembers.leftover = eqEdges Examples.chain /\
  (exists keep, otherConds FourMembers.leftover = filter keep (otherConds Examples.chain)) /\
  (snd (Some FourMembers.final, @None error) = None ->
   curJoinGroup FourMembers.leftover = []).
Proof.
  split; [vm_compute; reflexivity|].
  apply (solve_keeps_edges_and_only_shortens_pending_list
           ExampleStats.unit FourMembers.members Examples.chain
           (Some FourMembers.final, None) FourMembers.leftover).
  vm_compute; reflexivity.
Defined.

(** Property X7.  When deriving the stats of a member fails, [solve]
    returns that error at once with a nil plan: the members after it are
    not looked at, the group is neither sorted nor grown, and the solver
    holds the nodes it had followed by the members before the failing one,
    in input order with their base costs; pending predicates and edges are
    untouched. *)
Theorem member_failure_stops_before_sorting :
  forall (stats : StatsCollaborator) (s : joinReorderGreedySolver)
         (pre : list LogicalPlan) (node : LogicalPlan) (post : list LogicalPlan)
         (err : error),
    (forall m, In m pre -> deriveStatsError stats m = None) ->
    deriveStatsError stats node = Some err ->
    solve stats (pre ++ node :: post) s =
      Returns ((None, Some err),
               mkSolver (curJoinGroup s ++
                           map (fun m => mkJrNode m (baseNodeCumCost stats m)) pre)
                        (otherConds s) (eqEdges s)).
Proof.
  intros stats s pre node post err Hpre Herr.
  exact (solve_seeding_failure stats _ s pre node post err eq_refl Hpre Herr).
Qed.

Lemma member_failure_stops_before_sorting_witness :
  solve MemberFailure.failOnB ([Examples.A] ++ Examples.B :: [Examples.C]) Examples.chain =
    Returns ((None, Some 7),
             mkSolver (curJoinGroup Examples.chain ++
                         map (fun m => mkJrNode m (baseNodeCumCost MemberFailure.failOnB m))
                             [Examples.A])
                      (otherConds Examples.chain) (eqEdges Examples.chain)).
Proof.
  apply (member_failure_stops_before_sorting
           MemberFailure.failOnB Examples.chain [Examples.A] Examples.B [Examples.C] 7).
  - intros m [<- | []]. reflexivity.
  - reflexivity.
Defined.

(* ------------------------------------------------------------------ *)
(** ** Which error a growing step returns *)

(** Property X8.  A growing step returns the error of the first node, in
    the order of the group, whose candidate join fails to derive its stats:
    the nodes after it are not tried, a cheaper candidate found before it is
    given up, and the solver is left as the step found it. *)
Theorem growing_step_returns_first_candidate_failure :
  forall (stats : StatsCollaborator) (s : joinReorderGreedySolver) (curJoinTree : jrNode)
         (pre : list jrNode) (node : jrNode) (post : list jrNode)
         (join : LogicalPlan) (remain : list Expression) (err : error),
    curJoinGroup s = pre ++ node :: post ->
    (forall n j r, In n pre ->
       checkConnectionAndMakeJoin s (p curJoinTree) (p n) = (Some j, r) ->
       deriveStatsError stats j = None) ->
    checkConnectionAndMakeJoin s (p curJoinTree) (p node) = (Some join, remain) ->
    deriveStatsError stats join = Some err ->
    growStep stats s curJoinTree = (StepError err, s) /\
    forall fuel,
      growLoop stats (S fuel) s curJoinTree = Returns ((None, Some err), s).
Proof.
  intros stats s t pre node post join remain err Hg Hpre Hc Herr.
  assert (Hstep : growStep stats s t = (StepError err, s)).
  { unfold growStep. rewrite Hg.
    now rewrite (scanCandidates_first_error stats s t node post join remain err pre
                   0 scanInit Hpre Hc Herr). }
  split; [exact Hstep|]. intros fuel. simpl. now rewrite Hstep.
Qed.

Lemma growing_step_returns_first_candidate_failure_witness :
  growStep ExampleStats.failOnC Star.afterSeed Star.nodeA =
    (StepError 42, Star.afterSeed) /\
  forall fuel,
    growLoop ExampleStats.failOnC (S fuel) Star.afterSeed Star.nodeA =
      Returns ((None, Some 42), Star.afterSeed).
Proof.
  apply (growing_step_returns_first_candidate_failure
           ExampleStats.failOnC Star.afterSeed Star.nodeA
           [Star.nodeB] Star.nodeC []
           (LogicalJoin Examples.A Examples.C [Star.edgeAC] [Examples.overAC])
           [Examples.overB] 42).
  - reflexivity.
  - intros n j r [<- | []] Hc. vm_compute in Hc. injection Hc as <- _. reflexivity.
  - vm_compute; reflexivity.
  - reflexivity.
Defined.

(* ------------------------------------------------------------------ *)
(** ** Connecting two subtrees does not depend on their order *)

Lemma Contains_app l r col :
  Contains (l ++ r) col = Contains l col || Contains r col.
Proof. unfold Contains. apply existsb_app. Qed.

Lemma ExprFromSchema_swap expr l r :
  ExprFromSchema expr (MergeSchema l r) = ExprFromSchema expr (MergeSchema r l).
Proof.
  unfold ExprFromSchema, MergeSchema.
  induction (exprColumns expr) as [|col cols IH]; simpl; [reflexivity|].
  rewrite IH, !Contains_app. f_equal. apply orb_comm.
Qed.

Lemma usedEdgesOf_length_swap edges l r :
  length (usedEdgesOf edges l r) = length (usedEdgesOf edges r l).
Proof.
  induction edges as [|edge rest IH]; simpl; [reflexivity|].
  destruct (Contains (PlanSchema l) (Arg0 edge)),
           (Contains (PlanSchema r) (Arg1 edge)),
           (Contains (PlanSchema r) (Arg0 edge)),
           (Contains (PlanSchema l) (Arg1 edge)); simpl; congruence.
Qed.

(** Property X9.  Whether two subtrees connect does not depend on which
    one is on the left: [checkConnectionAndMakeJoin] returns a candidate
    for [(left, right)] exactly when it does for [(right, left)]; the two
    candidates carry the same number of equalities and the same residual
    predicates, and the same predicates stay pending. *)
Theorem checkConnectionAndMakeJoin_symmetric :
  forall (s : joinReorderGreedySolver) (leftNode rightNode : LogicalPlan),
    (fst (checkConnectionAndMakeJoin s leftNode rightNode) = None <->
     fst (checkConnectionAndMakeJoin s rightNode leftNode) = None) /\
    snd (checkConnectionAndMakeJoin s leftNode rightNode) =
      snd (checkConnectionAndMakeJoin s rightNode leftNode) /\
    (forall join join',
        fst (checkConnectionAndMakeJoin s leftNode rightNode) = Some join ->
        fst (checkConnectionAndMakeJoin s rightNode leftNode) = Some join' ->
        attachedOthers join = attachedOthers join' /\
        length (attachedEdges join) = length (attachedEdges join')).
Proof.
  intros s l r.
  pose proof (usedEdgesOf_length_swap (eqEdges s) l r) as Hlen.
  unfold checkConnectionAndMakeJoin. rewrite !FilterOutInPlace_eq.
  assert (Hf : forall A (g : list Expression -> A),
             g (filter (fun e => ExprFromSchema e (MergeSchema (PlanSchema l) (PlanSchema r)))
                       (otherConds s)) =
             g (filter (fun e => ExprFromSchema e (MergeSchema (PlanSchema r) (PlanSchema l)))
                       (otherConds s))).
  { intros A g. f_equal. apply filter_ext. intros e. apply ExprFromSchema_swap. }
  assert (Hn : filter (fun e => negb (ExprFromSchema e
                                        (MergeSchema (PlanSchema l) (PlanSchema r))))
                      (otherConds s) =
               filter (fun e => negb (ExprFromSchema e
                                        (MergeSchema (PlanSchema r) (PlanSchema l))))
                      (otherConds s)).
  { apply filter_ext. intros e. now rewrite ExprFromSchema_swap. }
  destruct (usedEdgesOf (eqEdges s) l r) as [|u us],
           (usedEdgesOf (eqEdges s) r l) as [|u' us']; simpl in *; try discriminate.
  - repeat split; auto; discriminate.
  - split; [split; discriminate|]. split; [exact Hn|].
    intros join join' H1 H2. injection H1 as <-. injection H2 as <-. simpl.
    split; [|exact Hlen]. exact (Hf _ (@rev Expression)).
Qed.

(* ------------------------------------------------------------------ *)
(** ** What decides the outcome of a growing step *)

Lemma scanCandidates_fails stats s t nodes :
  forall i st,
    (exists node join remain err,
        In node nodes /\
        checkConnectionAndMakeJoin s (p t) (p node) = (Some join, remain) /\
        deriveStatsError stats join = Some err) ->
    exists err, scanCandidates stats s t i nodes st = inr err.
Proof.
  induction nodes as [|n nodes IH]; intros i st (node & join & remain & err & Hin & Hc & He).
  - destruct Hin.
  - assert (Hrest : In node nodes ->
                    forall i' st', exists err', scanCandidates stats s t i' nodes st' = inr err').
    { intros Hin' i' st'. apply IH. exists node, join, remain, err. auto. }
    simpl. destruct (checkConnectionAndMakeJoin s (p t) (p n)) as [[j|] r] eqn:Hn.
    + destruct (deriveStatsError stats j) as [e|] eqn:Hj; [now exists e|].
      destruct Hin as [-> | Hin]; [congruence|].
      destruct (gtb (bestCost st) (calcJoinCumCost stats j t n)); now apply Hrest.
    + destruct Hin as [-> | Hin]; [congruence|]. now apply Hrest.
Qed.

Lemma growStep_fails stats s t :
  candidateFails stats s t -> exists err, growStep stats s t = (StepError err, s).
Proof.
  intros Hf. unfold growStep.
  destruct (scanCandidates_fails stats s t (curJoinGroup s) 0 scanInit Hf) as (err & ->).
  now exists err.
Qed.

Lemma growStep_cases stats s t :
  ~ candidateFails stats s t ->
  (exists t' s', growStep stats s t = (StepMerged t', s')) \/
  growStep stats s t = (StepExhausted, s).
Proof.
  intros Hok.
  destruct (growStep stats s t) as [[err| |t'] s'] eqn:Hg.
  - destruct (growStep_error _ _ _ _ _ Hg) as (_ & Hf). elim Hok. 
    destruct Hf as (node & join & remain & Hf). now exists node, join, remain, err.
  - right. f_equal. apply (growStep_not_merged _ _ _ _ _ Hg). discriminate.
  - left. now exists t', s'.
Qed.

Lemma growStep_merged_candidate stats s t t' s' :
  growStep stats s t = (StepMerged t', s') ->
  exists j join remain cost,
    candidateAt stats s t j join remain cost /\ ltb cost MaxFloat64 = true.
Proof.
  intros Hg.
  destruct (growStep_merged _ _ _ _ _ Hg) as (st & b & _ & _ & _ & _ & _ & _ & Hc).
  destruct (growStep_merged_below _ _ _ _ _ Hg) as (_ & Hlt).
  now exists b, (p t'), (finalRemainOthers st), (cumCost t').
Qed.

(** Property X10.  What a growing step does is decided by the candidates
    of the remaining nodes: it returns an error exactly when deriving the
    stats of some candidate fails; otherwise it commits a merge exactly
    when some candidate costs strictly less than [math.MaxFloat64], and it
    ends the component exactly when none does. *)
Theorem growing_step_outcome_is_decided_by_the_candidates :
  forall (stats : StatsCollaborator) (s : joinReorderGreedySolver) (curJoinTree : jrNode),
    ((exists err s', growStep stats s curJoinTree = (StepError err, s')) <->
     candidateFails stats s curJoinTree) /\
    ((exists t' s', growStep stats s curJoinTree = (StepMerged t', s')) <->
     (~ candidateFails stats s curJoinTree /\
      exists j join remain cost,
        candidateAt stats s curJoinTree j join remain cost /\
        ltb cost MaxFloat64 = true)) /\
    ((exists s', growStep stats s curJoinTree = (StepExhausted, s')) <->
     (~ candidateFails stats s curJoinTree /\
      forall j join remain cost,
        candidateAt stats s curJoinTree j join remain cost ->
        ltb cost MaxFloat64 = false)).
Proof.
  intros stats s t. split; [|split]; split.
  - intros (err & s' & Hg). destruct (growStep_error _ _ _ _ _ Hg) as (_ & Hf).
    destruct Hf as (node & join & remain & Hf). now exists node, join, remain, err.
  - intros Hf. destruct (growStep_fails _ _ _ Hf) as (err & Hg). now exists err, s.
  - intros (t' & s' & Hg). split.
    + intros Hf. destruct (growStep_fails _ _ _ Hf) as (err & Hg'). congruence.
    + exact (growStep_merged_candidate _ _ _ _ _ Hg).
  - intros (Hok & j & join & remain & cost & Hc & Hlt).
    destruct (growStep_cases _ _ _ Hok) as [Hm | He]; [exact Hm|].
    rewrite (growStep_exhausted _ _ _ _ He _ _ _ _ Hc) in Hlt. discriminate.
  - intros (s' & Hg). split.
    + intros Hf. destruct (growStep_fails _ _ _ Hf) as (err & Hg'). congruence.
    + exact (growStep_exhausted _ _ _ _ Hg).
  - intros (Hok & Hall).
    destruct (growStep_cases _ _ _ Hok) as [(t' & s' & Hm) | He]; [|now exists s].
    destruct (growStep_merged_candidate _ _ _ _ _ Hm) as (j & join & remain & cost & Hc & Hlt).
    rewrite (Hall _ _ _ _ Hc) in Hlt. discriminate.
Qed.

(** Property X11.  When [constructConnectedJoinTree] returns a tree, the
    tree cannot be grown further: for every node left in the group that
    still connects to it, the stats of the candidate join derive without
    error and its cumulative cost is not below [math.MaxFloat64]. *)
Theorem returned_tree_has_no_candidate_below_sentinel :
  forall (stats : StatsCollaborator) (fuel : nat) (s : joinReorderGreedySolver)
         (tree : jrNode) (s' : joinReorderGreedySolver)
         (node : jrNode) (join : LogicalPlan) (remain : list Expression),
    constructConnectedJoinTree stats fuel s = Returns ((Some tree, None), s') ->
    In node (curJoinGroup s') ->
    checkConnectionAndMakeJoin s' (p tree) (p node) = (Some join, remain) ->
    deriveStatsError stats join = None /\
    ltb (calcJoinCumCost stats join tree node) MaxFloat64 = false.
Proof.
  intros stats fuel s tree s' node join remain Hrun Hin Hc.
  unfold constructConnectedJoinTree in Hrun.
  destruct (curJoinGroup s) as [|seed rest] eqn:Hg; [discriminate|].
  destruct (growLoop_grows _ _ _ _ _ _ Hrun)
    as (last & _ & [[Heq Hlast] | (err & Heq & _)]); [|discriminate].
  injection Heq as <-. split.
  - destruct (deriveStatsError stats join) as [err|] eqn:Hd; [|reflexivity].
    assert (Hf : candidateFails stats s' tree) by now exists node, join, remain, err.
    destruct (growStep_fails _ _ _ Hf) as (err' & Hg'). congruence.
  - destruct (In_nth_error _ _ Hin) as (j & Hj).
    apply (growStep_exhausted _ _ _ _ Hlast j join remain).
    exists node. auto.
Qed.

Lemma returned_tree_has_no_candidate_below_sentinel_witness :
  deriveStatsError ExampleStats.infiniteJoins
    (LogicalJoin Examples.A Examples.B [Examples.edgeAB] []) = None /\
  ltb (calcJoinCumCost ExampleStats.infiniteJoins
         (LogicalJoin Examples.A Examples.B [Examples.edgeAB] [])
         Star.nodeA Star.nodeB) MaxFloat64 = false.
Proof.
  apply (returned_tree_has_no_candidate_below_sentinel
           ExampleStats.infiniteJoins 2 Pair.start Star.nodeA Pair.afterSeed
           Star.nodeB (LogicalJoin Examples.A Examples.B [Examples.edgeAB] []) []).
  - vm_compute; reflexivity.
  - left; reflexivity.
  - vm_compute; reflexivity.
Defined.

(* ------------------------------------------------------------------ *)
(** ** The seed of a component *)

Lemma StronglySorted_remove (A : Type) (R : A -> A -> Prop) (pre : list A) (x : A)
    (post : list A) :
  StronglySorted R (pre ++ x :: post) -> StronglySorted R (pre ++ post).
Proof.
  induction pre as [|a pre IH]; simpl; intros Hs.
  - now apply StronglySorted_inv in Hs.
  - apply StronglySorted_inv in Hs. destruct Hs as [Hs Ha].
    constructor; [now apply IH|].
    apply Forall_app in Ha. destruct Ha as [Hpre Hpost].
    apply Forall_app. split; [exact Hpre | now apply Forall_inv_tail in Hpost].
Qed.

(** Property X12.  Unless some base cost is a NaN, every component is
    started from a cheapest node: when the component loop takes the first
    node of the group as the seed of a tree, no node left in the group has
    a smaller cumulative cost. *)
Theorem component_seed_is_a_cheapest_remaining_node :
  forall (stats : StatsCollaborator) (joinNodePlans : list LogicalPlan)
         (s sk : joinReorderGreedySolver) (trees : list LogicalPlan)
         (seed : jrNode) (rest : list jrNode),
    (forall node, In node joinNodePlans -> deriveStatsError stats node = None) ->
    (forall node, In node joinNodePlans ->
                  isNaN (baseNodeCumCost stats node) = false) ->
    (forall node, In node (curJoinGroup s) -> isNaN (cumCost node) = false) ->
    collects stats (seeded stats joinNodePlans s) [] sk trees ->
    curJoinGroup sk = seed :: rest ->
    Forall (fun node => leb (cumCost seed) (cumCost node) = true) rest.
Proof.
  intros stats plans s sk trees seed rest Hok Hbase Hold Hrun Hg.
  assert (Hinv : StronglySorted costLe (curJoinGroup sk)).
  { apply (collects_invariant stats
             (fun _ s0 => StronglySorted costLe (curJoinGroup s0)))
      with (s := seeded stats plans s) (trees := []) (trees' := trees).
    - auto.
    - intros _ s0 seed0 rest0 Hs Hg0. simpl. rewrite Hg0 in Hs.
      now apply StronglySorted_inv in Hs.
    - intros _ s0 t t' s0' Hs Hm.
      destruct (growStep_merged_shape _ _ _ _ _ Hm)
        as (pre & node & post & Hg0 & Hg0' & _).
      rewrite Hg0'. rewrite Hg0 in Hs. exact (StronglySorted_remove _ _ _ _ _ Hs).
    - exact Hrun.
    - rewrite (seeded_ok _ _ _ Hok). simpl. apply SliceStable_ascending.
      intros node Hin. apply in_app_or in Hin. destruct Hin as [Hin | Hin].
      + now apply Hold.
      + apply in_map_iff in Hin. destruct Hin as (m & <- & Hm). simpl. now apply Hbase. }
  rewrite Hg in Hinv. apply StronglySorted_inv in Hinv. exact (proj2 Hinv).
Qed.

Lemma component_seed_is_a_cheapest_remaining_node_witness :
  Forall (fun node => leb (cumCost Star.nodeA) (cumCost node) = true)
         [Star.nodeB; Star.nodeC; mkJrNode Examples.D (ofZ 1)].
Proof.
  apply (component_seed_is_a_cheapest_remaining_node
           ExampleStats.unit FourMembers.members Examples.chain
           (seeded ExampleStats.unit FourMembers.members Examples.chain) []
           Star.nodeA [Star.nodeB; Star.nodeC; mkJrNode Examples.D (ofZ 1)]).
  - intros node _. reflexivity.
  - intros node [<- | [<- | [<- | [<- | []]]]]; vm_compute; reflexivity.
  - intros node [].
  - apply collects_here.
  - vm_compute; reflexivity.
Defined.

(* ------------------------------------------------------------------ *)
(** ** No linking edge is lost inside a component *)

Lemma joinFree_carriesLinkingEdges edges plan :
  joinFree plan -> carriesLinkingEdges edges plan.
Proof. destruct plan; simpl; auto. intros []. Qed.

Lemma carrying_Permutation edges built built' s :
  Permutation built built' -> carrying edges built s -> carrying edges built' s.
Proof.
  intros Hp [He Ht Hm]. constructor; auto.
  eapply Permutation_Forall; eassumption.
Qed.

Lemma carrying_seed edges trees s seed rest :
  carrying edges trees s ->
  curJoinGroup s = seed :: rest ->
  carrying edges (p seed :: trees) (mkSolver rest (otherConds s) (eqEdges s)).
Proof.
  intros [He Ht Hm] Hg. rewrite Hg in Hm. simpl in Hm.
  constructor; simpl.
  - exact He.
  - constructor; [|exact Ht].
    apply joinFree_carriesLinkingEdges. exact (Forall_inv Hm).
  - exact (Forall_inv_tail Hm).
Qed.

Lemma carrying_merge stats edges trees s t t' s' :
  carrying edges (p t :: trees) s ->
  growStep stats s t = (StepMerged t', s') ->
  carrying edges (p t' :: trees) s'.
Proof.
  intros [He Ht Hm] Hstep.
  destruct (growStep_merged_shape _ _ _ _ _ Hstep)
    as (pre & node & post & Hg & Hg' & He' & _ & Hp & _).
  constructor.
  - congruence.
  - constructor; [|exact (Forall_inv_tail Ht)].
    rewrite Hp. simpl. split; [exact (Forall_inv Ht)|].
    intros edge Hin. rewrite He. split.
    + intros Has. apply usedEdgesOf_In. exists edge. split; [exact Hin|]. now left.
    + intros Hsw.
      destruct (Contains (PlanSchema (p t)) (Arg0 edge)
                && Contains (PlanSchema (p node)) (Arg1 edge)) eqn:Htest.
      * left. apply usedEdgesOf_In. exists edge. split; [exact Hin|].
        left. split; [|reflexivity]. now apply asIs_test.
      * right. apply usedEdgesOf_In. exists edge. split; [exact Hin|].
        right. split; [|split; [exact Hsw | reflexivity]].
        intros Has. apply asIs_test in Has. congruence.
  - rewrite Hg', map_app. rewrite Hg, map_app in Hm. simpl in Hm.
    apply Forall_app in Hm. destruct Hm as [Hpre Hpost].
    apply Forall_app. split; [exact Hpre | exact (Forall_inv_tail Hpost)].
Qed.

(** Property X13.  Inside a component no linking edge is lost: at every
    join of a component tree, each equality edge of the solver that links
    the tree grown so far (the left child) with the member joined to it
    (the right child) is among the equality conditions of that join, as it
    is when its first column is on the left, as it is or with its columns
    swapped when its first column is on the right. *)
Theorem component_joins_carry_every_linking_edge :
  forall (stats : StatsCollaborator) (fuel : nat) (joinNodePlans : list LogicalPlan)
         (s : joinReorderGreedySolver) (trees : list LogicalPlan)
         (s' : joinReorderGreedySolver),
    curJoinGroup s = [] ->
    Forall joinFree joinNodePlans ->
    solveComponents stats fuel joinNodePlans s = Returns (inl trees, s') ->
    Forall (carriesLinkingEdges (eqEdges s)) trees.
Proof.
  intros stats fuel plans s trees s' Hfresh Hfree Hrun.
  destruct (solveComponents_success_inv _ _ _ _ _ _ Hrun) as (Hok & Hc & Hnil).
  assert (Hinit : carrying (eqEdges s) [] (seeded stats plans s)).
  { pose proof (seeded_members stats plans s Hfresh Hok) as Hperm.
    constructor.
    - now rewrite (seeded_ok _ _ _ Hok).
    - constructor.
    - rewrite Forall_forall in *. intros x Hx. apply Hfree.
      eapply Permutation_in; [exact Hperm | exact Hx]. }
  exact (ca_trees
           (collects_invariant stats (carrying (eqEdges s))
              (carrying_Permutation (eqEdges s)) (carrying_seed (eqEdges s))
              (carrying_merge stats (eqEdges s))
              _ _ _ _ Hc Hinit)).
Qed.

Lemma component_joins_carry_every_linking_edge_witness :
  solveComponents ExampleStats.unit 4 FourMembers.members Examples.chain =
    Returns (inl [FourMembers.treeABC; Examples.D], FourMembers.leftover) /\
  Forall (carriesLinkingEdges (eqEdges Examples.chain))
         [FourMembers.treeABC; Examples.D].
Proof.
  split; [vm_compute; reflexivity|].
  apply (component_joins_carry_every_linking_edge
           ExampleStats.unit 4 FourMembers.members Examples.chain
           [FourMembers.treeABC; Examples.D] FourMembers.leftover).
  - reflexivity.
  - repeat constructor.
  - vm_compute; reflexivity.
Defined.

(* ------------------------------------------------------------------ *)
(** ** Predicates in the final tree *)

Lemma crossAssembly_joinNodesWith edge trees final n :
  crossAssembly trees final n ->
  forall tree, In tree trees -> joinNodesWith edge tree <= joinNodesWith edge final.
Proof.
  induction 1 as [tree0|trees1 trees2 l r n1 n2 H1 IH1 H2 IH2]; intros tree Hin.
  - destruct Hin as [<- | []]. lia.
  - unfold newCartesianJoin. simpl. apply in_app_or in Hin.
    destruct Hin as [Hin | Hin]; [specialize (IH1 _ Hin) | specialize (IH2 _ Hin)]; lia.
Qed.

(** In a tree grown by the solver, an edge with both columns in the tree
    and no leaf that has both is attached to some join of the tree. *)
Lemma spanned_edge_attached edges edge tree :
  In edge edges ->
  grownLeftDeep tree ->
  carriesLinkingEdges edges tree ->
  spans edge tree ->
  (forall m, In m (leavesOf tree) -> ~ spans edge m) ->
  1 <= joinNodesWith edge tree.
Proof.
  intros Hin. induction tree as [id sch|conds child _|l IHl r _ eqs others];
    intros Hshape Hcarry Hspan Hleaf.
  - elim (Hleaf _ (or_introl eq_refl)). exact Hspan.
  - elim (Hleaf _ (or_introl eq_refl)). exact Hspan.
  - simpl in Hshape, Hcarry, Hleaf. destruct Hshape as (Hl & Hr & _).
    destruct Hcarry as (Hcl & Hall). destruct (Hall edge Hin) as [Has Hsw].
    destruct Hspan as [H0 H1]. simpl in H0, H1. unfold MergeSchema in H0, H1.
    apply in_app_or in H0. apply in_app_or in H1.
    assert (Hhere : In edge eqs \/ In (swappedEdge edge) eqs ->
                    1 <= joinNodesWith edge (LogicalJoin l r eqs others)).
    { intros H. apply attachedHere_In in H. simpl. rewrite H. lia. }
    destruct H0 as [H0 | H0], H1 as [H1 | H1].
    + assert (1 <= joinNodesWith edge l).
      { apply IHl; auto. - now split. - intros m Hm. apply Hleaf, in_or_app. now left. }
      simpl. lia.
    + apply Hhere. left. apply Has. now split.
    + apply Hhere. apply Hsw. now split.
    + elim (Hleaf r).
      * apply in_or_app. right. rewrite (joinFree_leavesOf _ Hr). now left.
      * now split.
Qed.

Lemma adjacent_join edges tree l r eqs others :
  adjacent edges tree (LogicalJoin l r eqs others) ->
  adjacent edges tree l \/ adjacent edges tree r.
Proof.
  intros (edge & Hin & [[H0 H1] | [H0 H1]]); simpl in H0, H1;
    unfold MergeSchema in H0, H1.
  - apply in_app_or in H1. destruct H1 as [H1 | H1]; [left | right];
      exists edge; (split; [exact Hin | left; now split]).
  - apply in_app_or in H0. destruct H0 as [H0 | H0]; [left | right];
      exists edge; (split; [exact Hin | right; now split]).
Qed.

Lemma ForallOrdPairs_snoc (A : Type) (R : A -> A -> Prop) (l : list A) (a : A) :
  ForallOrdPairs R l -> (forall x, In x l -> R x a) -> ForallOrdPairs R (l ++ [a]).
Proof.
  induction 1 as [|x l Hx Hl IH]; intros Ha; simpl.
  - constructor; constructor.
  - constructor.
    + apply Forall_app. split; [exact Hx|]. constructor; [|constructor].
      apply Ha. now left.
    + apply IH. intros y Hy. apply Ha. now right.
Qed.

(** While a component grows, the trees found before stay apart from the
    current tree and from the remaining nodes. *)
Lemma grows_detached stats edges found s t s' t' :
  grows stats s t s' t' ->
  eqEdges s = edges ->
  (forall tree, In tree found -> ~ adjacent edges tree (p t)) ->
  (forall tree node, In tree found -> In node (curJoinGroup s) ->
                     ~ adjacent edges tree (p node)) ->
  eqEdges s' = edges /\
  (forall tree, In tree found -> ~ adjacent edges tree (p t')) /\
  (forall tree node, In tree found -> In node (curJoinGroup s') ->
                     ~ adjacent edges tree (p node)).
Proof.
  induction 1 as [s t|s t s1 t1 s' t' Hstep Hgr IH]; intros He Ht Hn; [auto|].
  destruct (growStep_merged_shape _ _ _ _ _ Hstep)
    as (pre & node & post & Hg & Hg1 & He1 & _ & Hp & _).
  apply IH.
  - congruence.
  - intros tree Hin Hadj. rewrite Hp in Hadj.
    destruct (adjacent_join _ _ _ _ _ _ Hadj) as [H | H].
    + exact (Ht tree Hin H).
    + apply (Hn tree node Hin); [|exact H]. rewrite Hg. apply in_or_app. right. now left.
  - intros tree n Hin Hn1. apply Hn; [exact Hin|].
    rewrite Hg1 in Hn1. rewrite Hg. apply in_app_or in Hn1.
    apply in_or_app. destruct Hn1; [now left | right; now right].
Qed.

(** When every candidate evaluated costs less than the sentinel, a
    component ends only when no edge links its tree with a remaining node:
    the component trees stay closed under the edges. *)
Lemma collects_detached stats edges s trees s' trees' :
  collects stats s trees s' trees' ->
  (forall sx tx, reachedFrom stats s trees sx tx -> belowSentinel stats sx tx) ->
  detached edges trees s ->
  detached edges trees' s'.
Proof.
  induction 1 as [s trees|s trees seed rest s1 t1 s' trees' Hg Hgr Hlast Hc IH];
    intros Hclean [He Ht Hn]; [now constructor|].
  destruct (grows_detached stats edges trees _ _ _ _ Hgr) as (He1 & Ht1 & Hn1).
  - exact He.
  - intros tree Hin. apply Hn; [exact Hin|]. rewrite Hg. now left.
  - intros tree node Hin Hnode. apply Hn; [exact Hin|]. rewrite Hg. now right.
  - pose proof (Hclean _ _ (reachedFrom_first _ _ _ _ _ _ _ Hg Hgr)) as Hbelow.
    pose proof (exhausted_below_sentinel_disconnected _ _ _ _ Hlast Hbelow) as Hdis.
    apply IH.
    + intros sx tx Hr. apply Hclean. eapply reachedFrom_later; eassumption.
    + constructor.
      * exact He1.
      * apply ForallOrdPairs_snoc; [exact Ht | exact Ht1].
      * intros tree node Hin Hnode. apply in_app_or in Hin.
        destruct Hin as [Hin | [<- | []]]; [now apply Hn1|].
        intros Hadj. apply usedEdgesOf_adjacent in Hadj.
        apply Hadj. rewrite <- He1. now apply Hdis.
Qed.

(** Claim C4 (amended).  Take a fresh solver and members that have no join
    node of their own and pairwise disjoint schemas, and let [solve] succeed
    with a final tree.  Every predicate attached to a join node of the tree
    can be evaluated there: an equality is an edge of the solver, as it is
    or swapped, with its first column in the left child and its second in
    the right child, and a residual predicate is covered by the schema of
    its node.  No equality edge is attached to two join nodes.  The residual
    predicates attached in the tree, together with those still pending in
    the solver, are a rearrangement of the residual predicates the solver
    started with, so none is attached twice and none is lost; and a residual
    predicate covered by a component tree that the grower joined is
    attached, not pending.  The schema of the final tree is a rearrangement
    of the members' columns.  When moreover every candidate evaluated in the
    run costs strictly less than [math.MaxFloat64], every equality edge that
    equates columns of two different members is attached to exactly one
    join node. *)
Theorem solve_attaches_each_predicate_soundly_and_once_where_joined :
  forall (stats : StatsCollaborator) (joinNodePlans : list LogicalPlan)
         (s : joinReorderGreedySolver) (final : LogicalPlan)
         (s' : joinReorderGreedySolver),
    curJoinGroup s = [] ->
    Forall joinFree joinNodePlans ->
    NoDup (flat_map PlanSchema joinNodePlans) ->
    solve stats joinNodePlans s = Returns ((Some final, None), s') ->
    wellAttached (eqEdges s) final /\
    Permutation (attachedResiduals final ++ otherConds s') (otherConds s) /\
    (forall edge, joinNodesWith edge final <= 1) /\
    Permutation (PlanSchema final) (flat_map PlanSchema joinNodePlans) /\
    (exists trees,
        solveComponents stats (length (curJoinGroup s) + length joinNodePlans)
          joinNodePlans s = Returns (inl trees, s') /\
        makeBushyJoin trees = Some final /\
        forall tree expr,
          In tree trees -> isJoin tree -> coveredBy (PlanSchema tree) expr ->
          In expr (otherConds s) -> In expr (attachedResiduals final)) /\
    ((forall sx tx, reached stats joinNodePlans s sx tx -> belowSentinel stats sx tx) ->
     forall edge,
       In edge (eqEdges s) -> joinsTwoMembers joinNodePlans edge ->
       joinNodesWith edge final = 1).
Proof.
  intros stats plans s final s' Hfresh Hfree Hnd Hrun.
  unfold solve, solveWithFuel in Hrun.
  destruct (solveComponents stats (length (curJoinGroup s) + length plans) plans s)
    as [[[trees|err] s0]| |] eqn:Hcomp; try discriminate.
  injection Hrun as Hfinal <-.
  destruct (solveComponents_success_inv _ _ _ _ _ _ Hcomp) as (Hok & Hc & Hnil).
  pose proof (accounted_collects _ _ _ _ _ _ _ _ Hc
                (accounted_seeded stats plans s Hfresh Hfree Hok))
    as [_ Hattached _ Hres Hcols].
  assert (Hne : trees <> []) by (intros ->; discriminate Hfinal).
  destruct (makeBushyJoin_assembles trees Hne) as (final' & Hbushy & Hasm).
  assert (final' = final) by congruence. subst final'.
  destruct (crossAssembly_facts (eqEdges s) _ _ _ Hasm) as (Hschema & Hresid & Hwell).
  rewrite Hnil in Hcols. simpl in Hcols. rewrite app_nil_r in Hcols.
  rewrite <- Hschema in Hcols. rewrite <- Hresid in Hres.
  assert (Hw : wellAttached (eqEdges s) final) by auto.
  assert (Hmost : forall edge, joinNodesWith edge final <= 1).
  { intros edge. apply (joinNodesWith_at_most_one (eqEdges s)); [exact Hw|].
    eapply Permutation_NoDup; [apply Permutation_sym, Hcols | exact Hnd]. }
  assert (Hmembers : Forall joinFree (map p (curJoinGroup (seeded stats plans s)))).
  { pose proof (seeded_members stats plans s Hfresh Hok) as Hperm.
    rewrite Forall_forall in *. intros x Hx. apply Hfree.
    eapply Permutation_in; [exact Hperm | exact Hx]. }
  split; [exact Hw|]. split; [exact Hres|]. split; [exact Hmost|].
  split; [exact Hcols|]. split.
  - exists trees. split; [reflexivity|]. split; [exact Hfinal|].
    intros tree expr Hin Hj Hcov Hexpr.
    assert (Hinit : earliest [] (seeded stats plans s)).
    { constructor; simpl; auto. }
    pose proof (collects_invariant stats earliest
                  earliest_Permutation earliest_seed (earliest_merge stats)
                  _ _ _ _ Hc Hinit) as [_ _ Hpend].
    rewrite Forall_forall in Hpend.
    apply (Permutation_in _ (Permutation_sym Hres)) in Hexpr.
    apply in_app_or in Hexpr. destruct Hexpr as [Hexpr | Hexpr]; [exact Hexpr|].
    elim (Hpend tree Hin Hj expr Hexpr Hcov).
  - intros Hclean edge Hedge (H0 & H1 & Hnone).
    destruct (shaped_run stats plans s trees s0 _ Hfresh Hfree Hcomp) as [[Hshape _ Hleaves] _].
    rewrite Hnil in Hleaves. simpl in Hleaves. rewrite app_nil_r in Hleaves.
    assert (Hcarry : Forall (carriesLinkingEdges (eqEdges s)) trees).
    { assert (Hinit : carrying (eqEdges s) [] (seeded stats plans s)).
      { constructor; [now rewrite (seeded_ok _ _ _ Hok) | constructor | exact Hmembers]. }
      exact (ca_trees
               (collects_invariant stats (carrying (eqEdges s))
                  (carrying_Permutation (eqEdges s)) (carrying_seed (eqEdges s))
                  (carrying_merge stats (eqEdges s))
                  _ _ _ _ Hc Hinit)). }
    assert (Hapart : ForallOrdPairs (fun t1 t2 => ~ adjacent (eqEdges s) t1 t2) trees).
    { assert (Hinit : detached (eqEdges s) [] (seeded stats plans s)).
      { constructor; [now rewrite (seeded_ok _ _ _ Hok) | constructor |].
        intros tree node []. }
      exact (de_trees (collects_detached stats (eqEdges s) _ _ _ _ Hc Hclean Hinit)). }
    apply (Permutation_in _ (Permutation_sym Hcols)) in H0.
    apply (Permutation_in _ (Permutation_sym Hcols)) in H1.
    rewrite Hschema in H0, H1.
    apply in_flat_map in H0. destruct H0 as (t0 & Ht0 & H0).
    apply in_flat_map in H1. destruct H1 as (t1 & Ht1 & H1).
    assert (Hsame : t0 = t1).
    { destruct (ForallOrdPairs_In Hapart _ _ Ht0 Ht1) as [Heq | [Hno | Hno]];
        [exact Heq | |]; elim Hno; exists edge; (split; [exact Hedge|]).
      - left. now split.
      - right. now split. }
    subst t1. rewrite Forall_forall in Hshape, Hcarry.
    assert (Hone : 1 <= joinNodesWith edge t0).
    { apply (spanned_edge_attached (eqEdges s)); auto.
      - now split.
      - intros m Hm. apply Hnone.
        eapply Permutation_in; [exact Hleaves|].
        apply in_flat_map. exists t0. now split. }
    pose proof (crossAssembly_joinNodesWith edge _ _ _ Hasm t0 Ht0).
    specialize (Hmost edge). lia.
Qed.

Lemma solve_attaches_each_predicate_soundly_and_once_where_joined_witness :
  solve ExampleStats.unit FourMembers.members Examples.chain =
    Returns ((Some FourMembers.final, None), FourMembers.leftover) /\
  wellAttached (eqEdges Examples.chain) FourMembers.final /\
  Permutation (attachedResiduals FourMembers.final ++ otherConds FourMembers.leftover)
              (otherConds Examples.chain) /\
  joinNodesWith Examples.edgeAB FourMembers.final = 1 /\
  joinNodesWith Examples.edgeCB FourMembers.final = 1.
Proof.
  split; [vm_compute; reflexivity|].
  destruct (solve_attaches_each_predicate_soundly_and_once_where_joined
              ExampleStats.unit FourMembers.members Examples.chain
              FourMembers.final FourMembers.leftover)
    as (Hw & Hres & _ & _ & _ & Hedges).
  - reflexivity.
  - repeat constructor.
  - repeat constructor; simpl; intuition discriminate.
  - vm_compute; reflexivity.
  - split; [exact Hw|]. split; [exact Hres|].
    assert (Hclean : forall sx tx,
               reached ExampleStats.unit FourMembers.members Examples.chain sx tx ->
               belowSentinel ExampleStats.unit sx tx).
    { apply visitedSteps_below_sentinel. vm_compute. reflexivity. }
    split; apply (Hedges Hclean).
    + now left.
    + split; [simpl; auto|]. split; [simpl; auto|].
      intros m [<- | [<- | [<- | [<- | []]]]] [H0 H1]; simpl in H0, H1;
        intuition discriminate.
    + right; now left.
    + split; [simpl; auto 6|]. split; [simpl; auto 6|].
      intros m [<- | [<- | [<- | [<- | []]]]] [H0 H1]; simpl in H0, H1;
        intuition discriminate.
Defined.

(** Claim C4 as stated fails for a residual predicate that no join of the
    grower covers.  On the chain [A - B - C] with the unconnected member
    [D], every candidate costs less than the sentinel and both edges are
    attached; the component loop ends with the trees [(A join B) join C]
    and [D], neither of which carries the residual predicate over
    [{a1, d1}]: it is covered by the schema of the final cross join but
    attached to no join node, and still pending when [solve] returns.  And
    for the group of the single member [B], the tree returned is [B]
    itself: the predicate over [{b1}] is covered by it, but there is no
    join node to carry it. *)
Lemma residual_across_components_left_unattached :
  (solve ExampleStats.unit FourMembers.members Examples.chain =
     Returns ((Some FourMembers.final, None), FourMembers.leftover) /\
   (forall sx tx,
       reached ExampleStats.unit FourMembers.members Examples.chain sx tx ->
       belowSentinel ExampleStats.unit sx tx) /\
   solveComponents ExampleStats.unit 4 FourMembers.members Examples.chain =
     Returns (inl [FourMembers.treeABC; Examples.D], FourMembers.leftover) /\
   ~ In Examples.overAD (flat_map attachedResiduals [FourMembers.treeABC; Examples.D]) /\
   In Examples.overAD (otherConds Examples.chain) /\
   coveredBy (PlanSchema FourMembers.final) Examples.overAD /\
   ~ In Examples.overAD (attachedResiduals FourMembers.final) /\
   In Examples.overAD (otherConds FourMembers.leftover)) /\
  (solve ExampleStats.unit [Examples.B] (mkSolver [] [Examples.overB] []) =
     Returns ((Some Examples.B, None), mkSolver [] [Examples.overB] []) /\
   coveredBy (PlanSchema Examples.B) Examples.overB /\
   attachedResiduals Examples.B = []).
Proof.
  split.
  - split; [vm_compute; reflexivity|]. split.
    { apply visitedSteps_below_sentinel. vm_compute. reflexivity. }
    split; [vm_compute; reflexivity|]. split.
    { simpl. intros [H | [H | []]]; discriminate H. }
    split; [simpl; auto|]. split; [|split].
    + intros col [<- | [<- | []]]; simpl; auto.
    + simpl. intros [H | [H | []]]; discriminate H.
    + now left.
  - split; [vm_compute; reflexivity|]. split; [|reflexivity].
    intros col [<- | []]. simpl. auto.
Qed.
